(** * Regex-Automata: Thompson construction and NFA simulation of [src/App.tsx]

    A shallow embedding of the regex engine of [src/App.tsx]:
    [insertConcat], [toPostfix], [compileRegexToNFA] and the simulation
    effect of the [RegexAutomata] component, together with the properties
    of the engine stated in the specification; then the rest of the
    file, [layoutGraph] and the two handlers of [BitConverter], and what
    the engine does as a whole: the automaton of a pattern accepts the
    regular expression the pattern stands for.

    JavaScript strings are sequences of UTF-16 code units; [pattern[i]] and
    [split('')] index code units, [for (const char of s)] iterates code
    points.  Both views are modelled: a string is a [list N] of code units
    and [codePoints] groups surrogate pairs the way the string iterator
    does. *)

From Stdlib Require Import Ascii String DecimalString.
From stdpp Require Import base list gmap numbers strings.

Local Open Scope N_scope.

(** ** JavaScript strings *)

Abbreviation codeUnit := N (only parsing).
Abbreviation jsstring := (list N) (only parsing).

(** An ASCII literal as a JavaScript string (one code unit per character). *)
Definition lit (s : string) : jsstring :=
  (λ a, N_of_ascii a) <$> list_ascii_of_string s.

(** The characters the engine names. *)
Definition chDot : codeUnit := 46.     (* '.' *)
Definition chBar : codeUnit := 124.    (* '|' *)
Definition chStar : codeUnit := 42.    (* '*' *)
Definition chLParen : codeUnit := 40.  (* '(' *)
Definition chRParen : codeUnit := 41.  (* ')' *)
Definition chEpsilon : codeUnit := 949. (* 'ε', U+03B5 *)

(** The label ['ε'] used for epsilon transitions, as a string. *)
Definition epsilon : jsstring := [chEpsilon].

(** [a-zA-Z0-9] on one code unit. *)
Definition isAlnumUnit (c : codeUnit) : bool :=
  ((97 <=? c) && (c <=? 122)) || ((65 <=? c) && (c <=? 90)) || ((48 <=? c) && (c <=? 57)).

(** [/[a-zA-Z0-9]/.test(s)]: some code unit of [s] is in the class. *)
Definition testAlnum (s : jsstring) : bool := existsb isAlnumUnit s.

(** The two regular-expression tests of [insertConcat], on the one-unit
    strings [pattern[i]] and [pattern[i + 1]]: [c1] is alphanumeric, a
    star or a closing parenthesis; [c2] is alphanumeric or an opening
    parenthesis. *)
Definition isC1Alphanum (c1 : codeUnit) : bool :=
  isAlnumUnit c1 || (c1 =? chStar) || (c1 =? chRParen).
Definition isC2Alphanum (c2 : codeUnit) : bool :=
  isAlnumUnit c2 || (c2 =? chLParen).

Definition isHighSurrogate (u : codeUnit) : bool := (55296 <=? u) && (u <=? 56319).
Definition isLowSurrogate (u : codeUnit) : bool := (56320 <=? u) && (u <=? 57343).

Local Close Scope N_scope.

(** The string iterator ([for (const char of s)]): one string per code
    point, a well-formed surrogate pair giving a two-unit string. *)
Fixpoint codePoints (s : jsstring) : list jsstring :=
  match s with
  | [] => []
  | h :: t =>
      match t with
      | l :: t' =>
          if isHighSurrogate h && isLowSurrogate l
          then [h; l] :: codePoints t'
          else [h] :: codePoints t
      | [] => [[h]]
      end
  end.

(** [s.split('')]: one string per code unit. *)
Definition split_units (s : jsstring) : list jsstring := (λ u, [u]) <$> s.

(** ** Lexical normalizer: [insertConcat] *)

(** One iteration of the [for (let i = 0; ...)] loop, on the accumulator
    [res].  [pattern !! i] is always [Some] inside the loop. *)
Definition insertConcat_iter (pattern : jsstring) (res : jsstring) (i : nat) : jsstring :=
  match pattern !! i with
  | None => res
  | Some c1 =>
      let res := res ++ [c1] in
      if bool_decide (i + 1 < length pattern) then
        match pattern !! (i + 1) with
        | Some c2 =>
            if isC1Alphanum c1 && isC2Alphanum c2 then res ++ [chDot] else res
        | None => res
        end
      else res
  end.

Definition insertConcat (pattern : jsstring) : jsstring :=
  foldl (insertConcat_iter pattern) [] (seq 0 (length pattern)).

(** ** Infix to postfix: [toPostfix] *)

(** [precedence[op]]: a missing key reads [undefined]. *)
Definition precedence (op : jsstring) : option nat :=
  if decide (op = [chStar]) then Some 3
  else if decide (op = [chDot]) then Some 2
  else if decide (op = [chBar]) then Some 1
  else None.

(** [a >= b] on numbers that may be [undefined]: a comparison with
    [undefined] is false. *)
Definition js_ge (a b : option nat) : bool :=
  match a, b with
  | Some x, Some y => bool_decide (y ≤ x)
  | _, _ => false
  end.

(** The operator stack has its top at the head of the list. *)

(** [while (stack.length && stack[stack.length - 1] !== '(') output += stack.pop();] *)
Fixpoint popUntilParen (stack : list jsstring) (output : jsstring)
  : list jsstring * jsstring :=
  match stack with
  | top :: rest =>
      if bool_decide (top ≠ [chLParen])
      then popUntilParen rest (output ++ top)
      else (stack, output)
  | [] => ([], output)
  end.

(** [while (stack.length && precedence[top] >= precedence[char]) output += stack.pop();] *)
Fixpoint popHigher (char : jsstring) (stack : list jsstring) (output : jsstring)
  : list jsstring * jsstring :=
  match stack with
  | top :: rest =>
      if js_ge (precedence top) (precedence char)
      then popHigher char rest (output ++ top)
      else (stack, output)
  | [] => ([], output)
  end.

(** [while (stack.length) output += stack.pop();] *)
Fixpoint popAll (stack : list jsstring) (output : jsstring) : jsstring :=
  match stack with
  | top :: rest => popAll rest (output ++ top)
  | [] => output
  end.

(** The body of [for (const char of formatted)], on [(stack, output)]. *)
Definition toPostfix_iter (st : list jsstring * jsstring) (char : jsstring)
  : list jsstring * jsstring :=
  let '(stack, output) := st in
  if testAlnum char then (stack, output ++ char)
  else if decide (char = [chLParen]) then (char :: stack, output)
  else if decide (char = [chRParen]) then
    let '(stack, output) := popUntilParen stack output in
    (tail stack, output)
  else
    let '(stack, output) := popHigher char stack output in
    (char :: stack, output).

Definition toPostfix (pattern : jsstring) : jsstring :=
  let formatted := insertConcat pattern in
  let '(stack, output) := foldl toPostfix_iter ([], []) (codePoints formatted) in
  popAll stack output.

(** ** The automaton: [State] and [NFA]

    Objects live in a heap, a [list State]; a reference to a [State] is its
    index in the heap.  The heap holds the states allocated since
    [State.idCounter] was last reset, i.e. those of one compilation. *)

Record State := mkState {
  id : nat;
  transitions : gmap (list N) (list nat);
  isAccept : bool;
}.

Record NFA := mkNFA { start : nat; end_ : nat }.

(** [addTransition(char, next)] on one state:
    [if (!this.transitions[char]) this.transitions[char] = [];
     this.transitions[char].push(next);] *)
Definition State_addTransition (char : jsstring) (next : nat) (this : State) : State :=
  let transitions0 :=
    match transitions this !! char with
    | Some _ => transitions this
    | None => <[char := []]> (transitions this)
    end in
  {| id := id this;
     transitions := alter (λ arr, arr ++ [next]) char transitions0;
     isAccept := isAccept this |}.

Definition State_setAccept (b : bool) (this : State) : State :=
  {| id := id this; transitions := transitions this; isAccept := b |}.

(** ** The compiler: [compileRegexToNFA] *)

(** What the compiler mutates: the heap, the static [State.idCounter] and
    the local [stack] of fragments (top at the head). *)
Record cstate := mkCstate {
  heap : list State;
  idCounter : nat;
  stack : list NFA;
}.

(** A computation either completes normally with a value or throws (the
    only exception of the engine is the [TypeError] of reading a property
    of [undefined]); both leave a state behind. *)
Inductive completion (A : Type) : Type :=
  | Normal (a : A) (σ : cstate)
  | Throw (σ : cstate).
Arguments Normal {A} a σ.
Arguments Throw {A} σ.

Definition M (A : Type) : Type := cstate → completion A.

#[export] Instance M_ret : MRet M := λ A a σ, Normal a σ.
#[export] Instance M_bind : MBind M := λ A B f m σ,
  match m σ with
  | Normal a σ' => f a σ'
  | Throw σ' => Throw σ'
  end.

Definition throwTypeError {A} : M A := λ σ, Throw σ.

(** [new State()] *)
Definition newState : M nat := λ σ,
  Normal (length (heap σ))
    {| heap := heap σ ++ [mkState (idCounter σ) ∅ false];
       idCounter := S (idCounter σ);
       stack := stack σ |}.

(** [stack.pop()]: [undefined] on an empty array. *)
Definition stack_pop : M (option NFA) := λ σ,
  match stack σ with
  | top :: rest =>
      Normal (Some top) {| heap := heap σ; idCounter := idCounter σ; stack := rest |}
  | [] => Normal None σ
  end.

Definition stack_push (n : NFA) : M unit := λ σ,
  Normal () {| heap := heap σ; idCounter := idCounter σ; stack := n :: stack σ |}.

(** [n.start] and [n.end] on a popped value that may be [undefined]. *)
Definition get_start (n : option NFA) : M nat :=
  match n with Some n => mret (start n) | None => throwTypeError end.
Definition get_end (n : option NFA) : M nat :=
  match n with Some n => mret (end_ n) | None => throwTypeError end.

Definition update_heap (f : list State → list State) : M unit := λ σ,
  Normal () {| heap := f (heap σ); idCounter := idCounter σ; stack := stack σ |}.

(** [s.isAccept = b] *)
Definition set_isAccept (s : nat) (b : bool) : M unit :=
  update_heap (alter (State_setAccept b) s).

(** [s.addTransition(char, next)] *)
Definition addTransition (s : nat) (char : jsstring) (next : nat) : M unit :=
  update_heap (alter (State_addTransition char next) s).

(** The body of [for (const char of postfix)]. *)
Definition compile_iter (char : jsstring) : M unit :=
  if decide (char = [chDot]) then
    n2 ← stack_pop;
    n1 ← stack_pop;
    e1 ← get_end n1; set_isAccept e1 false;;
    e1 ← get_end n1; s2 ← get_start n2; addTransition e1 epsilon s2;;
    s1 ← get_start n1; e2 ← get_end n2; stack_push (mkNFA s1 e2)
  else if decide (char = [chBar]) then
    n2 ← stack_pop;
    n1 ← stack_pop;
    start ← newState;
    end_ ← newState;
    s1 ← get_start n1; addTransition start epsilon s1;;
    s2 ← get_start n2; addTransition start epsilon s2;;
    e1 ← get_end n1; set_isAccept e1 false;;
    e2 ← get_end n2; set_isAccept e2 false;;
    e1 ← get_end n1; addTransition e1 epsilon end_;;
    e2 ← get_end n2; addTransition e2 epsilon end_;;
    stack_push (mkNFA start end_)
  else if decide (char = [chStar]) then
    n1 ← stack_pop;
    start ← newState;
    end_ ← newState;
    s1 ← get_start n1; addTransition start epsilon s1;;
    addTransition start epsilon end_;;
    e1 ← get_end n1; set_isAccept e1 false;;
    e1 ← get_end n1; s1 ← get_start n1; addTransition e1 epsilon s1;;
    e1 ← get_end n1; addTransition e1 epsilon end_;;
    stack_push (mkNFA start end_)
  else
    start ← newState;
    end_ ← newState;
    addTransition start char end_;;
    stack_push (mkNFA start end_).

Fixpoint compile_loop (tokens : list jsstring) : M unit :=
  match tokens with
  | [] => mret ()
  | char :: rest => compile_iter char;; compile_loop rest
  end.

(** The state at the start of a compilation: [State.idCounter = 0], an
    empty [stack], no state allocated yet. *)
Definition initial : cstate := {| heap := []; idCounter := 0; stack := [] |}.

(** The statements after the [try] block. *)
Definition compile_finish : M (option NFA) :=
  finalNFA ← stack_pop;
  match finalNFA with
  | Some n => set_isAccept (end_ n) true;; mret (Some n)
  | None => mret None
  end.

(** [compileRegexToNFA(pattern)]: [Normal (Some nfa) σ] is the returned
    fragment with the heap of its states in [σ], [Normal None σ] is
    [null], [Throw σ] an exception leaving the function. *)
Definition compileRegexToNFA (pattern : jsstring) : completion (option NFA) :=
  let postfix := toPostfix pattern in
  match compile_loop (codePoints postfix) initial with
  | Throw σ => Normal None σ
  | Normal _ σ => compile_finish σ
  end.

(** ** The simulator: the effect of [RegexAutomata] *)

(** [addState(s, set)].  A [Set<State>] is the list of its members in
    insertion order.  [fuel] bounds the depth of the recursion; [None] is
    an exhausted bound or a reference outside the heap. *)
Fixpoint addState (fuel : nat) (h : list State) (s : nat) (set : list nat)
  : option (list nat) :=
  match fuel with
  | O => None
  | S fuel =>
      if bool_decide (s ∈ set) then Some set
      else
        let set := set ++ [s] in
        st ← h !! s;
        match transitions st !! epsilon with
        | Some nexts =>
            foldl (λ acc next, acc ≫= addState fuel h next) (Some set) nexts
        | None => Some set
        end
  end.

(** One iteration of [for (const char of testString.split(''))]: the new
    value of [currentStates]. *)
Definition simulate_iter (fuel : nat) (h : list State)
    (currentStates : list nat) (char : jsstring) : option (list nat) :=
  foldl (λ acc s,
           nextStates ← acc;
           st ← h !! s;
           match transitions st !! char with
           | Some nexts =>
               foldl (λ acc next, acc ≫= addState fuel h next) (Some nextStates) nexts
           | None => Some nextStates
           end)
        (Some []) currentStates.

(** The simulation effect for a non-null [nfaObject]: the values given to
    [setActiveStates] and [setIsMatch]. *)
Definition simulate (fuel : nat) (h : list State) (nfaObject : NFA)
    (testString : jsstring) : option (list nat * bool) :=
  if decide (testString = []) then
    st ← h !! start nfaObject;
    Some ([id st], false)
  else
    currentStates ← addState fuel h (start nfaObject) [];
    currentStates ← foldl (λ acc char, acc ≫= λ cur, simulate_iter fuel h cur char)
                      (Some currentStates) (split_units testString);
    activeIds ← mapM (λ s, id <$> h !! s) currentStates;
    matchFound ← mapM (λ s, isAccept <$> h !! s) currentStates;
    Some (activeIds, existsb (λ b, b) matchFound).

(** ** The two translators as the specification words them *)

(** The normalizer of the specification: the input, with a ['.'] after
    position [i] exactly when the character at [i] is alphanumeric, a star
    or a closing parenthesis and the character at [i + 1] is alphanumeric
    or an opening parenthesis. *)
Definition concatBetween (pattern : jsstring) (i : nat) : bool :=
  match pattern !! i, pattern !! S i with
  | Some c1, Some c2 =>
      (isAlnumUnit c1 || bool_decide (c1 = chStar) || bool_decide (c1 = chRParen))
      && (isAlnumUnit c2 || bool_decide (c2 = chLParen))
  | _, _ => false
  end.

Definition insertConcat_spec (pattern : jsstring) : jsstring :=
  mjoin (imap (λ i c, if concatBetween pattern i then [c; chDot] else [c]) pattern).

Section while_lists.
Context {A : Type} (p : A → bool).

Fixpoint takeWhile (l : list A) : list A :=
  match l with
  | x :: l' => if p x then x :: takeWhile l' else []
  | [] => []
  end.

Fixpoint dropWhile (l : list A) : list A :=
  match l with
  | x :: l' => if p x then dropWhile l' else l
  | [] => []
  end.
End while_lists.

(** The precedence order of the specification: [*] above [.] above [|];
    anything else is no operator of the order. *)
Definition rank (op : jsstring) : option nat :=
  match op with
  | [c] =>
      if (c =? chStar)%N then Some 3
      else if (c =? chDot)%N then Some 2
      else if (c =? chBar)%N then Some 1
      else None
  | _ => None
  end.

(** [top] is an operator of precedence greater than or equal to that of [op]. *)
Definition outranks (op top : jsstring) : bool :=
  match rank top, rank op with
  | Some x, Some y => (y <=? x)
  | _, _ => false
  end.

Definition notLParen (tok : jsstring) : bool := bool_decide (tok ≠ [chLParen]).

(** The shunting-yard translation of the specification on a stream of
    characters: the operator stack and the output emitted so far. *)
Definition shuntingYard_step (st : list jsstring * jsstring) (char : jsstring)
  : list jsstring * jsstring :=
  let '(ops, out) := st in
  if testAlnum char then (ops, out ++ char)
  else if bool_decide (char = [chLParen]) then (char :: ops, out)
  else if bool_decide (char = [chRParen]) then
    (drop 1 (dropWhile notLParen ops), out ++ mjoin (takeWhile notLParen ops))
  else
    (char :: dropWhile (outranks char) ops, out ++ mjoin (takeWhile (outranks char) ops)).

Definition shuntingYard (chars : list jsstring) : jsstring :=
  let '(ops, out) := foldl shuntingYard_step ([], []) chars in
  out ++ mjoin ops.

(** ** Observations on a heap of states *)

(** [s.transitions[c]] as a list: the successors of [s] on [c]. *)
Definition succs (h : list State) (s : nat) (c : jsstring) : list nat :=
  match h !! s with
  | Some st => default [] (transitions st !! c)
  | None => []
  end.

(** [s.isAccept] *)
Definition accepting (h : list State) (s : nat) : bool :=
  match h !! s with
  | Some st => isAccept st
  | None => false
  end.

(** There is a transition from [s] to [s'], on any label. *)
Definition edge (h : list State) (s s' : nat) : Prop := ∃ c, s' ∈ succs h s c.

(** [s'] is reachable from [s] along transitions. *)
Definition reachable (h : list State) : nat → nat → Prop := rtc (edge h).

(** Every reference held by a state of the heap is a state of the heap,
    and a state's identifier is its place in the heap. *)
Record heap_ok (h : list State) : Prop := {
  ok_succs : ∀ s c s', s' ∈ succs h s c → (s' < length h);
  ok_id : id <$> h = seq 0 (length h);
}.

(** The invariant of the compiler's loop. *)
Record wf (σ : cstate) : Prop := {
  wf_heap : heap_ok (heap σ);
  wf_counter : idCounter σ = length (heap σ);
  wf_noaccept : ∀ s, accepting (heap σ) s = false;
  wf_stack : ∀ n, n ∈ stack σ →
      (start n < length (heap σ)) ∧ (end_ n < length (heap σ))
      ∧ reachable (heap σ) (start n) (end_ n);
}.

(** A [Set<State>] of states of the heap [h]: no repetition, no reference
    outside the heap. *)
Definition good (h : list State) (set : list nat) : Prop :=
  NoDup set ∧ Forall (λ x, x < length h) set.

(** [h'] has the transitions of [h], in their order, and possibly more. *)
Definition extends (h h' : list State) : Prop :=
  ∀ s c, ∃ extra, succs h' s c = succs h s c ++ extra.

(** The state a computation leaves behind. *)
Definition state_of {A} (r : completion A) : cstate :=
  match r with Normal _ σ | Throw σ => σ end.

(** The compiler's state after the postfix stream ["a"]: one literal
    fragment on the stack. *)
Definition after_literal_a : cstate :=
  state_of (compile_loop [lit "a"] initial).

(** A state of [toPostfix] in which the token ['ε'] is on the operator
    stack or its character has been emitted. *)
Definition kept (st : list (list N) * list N) : Prop :=
  epsilon ∈ st.1 ∨ chEpsilon ∈ st.2.

(** The number of operands an operator token pops. *)
Definition arity (char : jsstring) : nat :=
  if decide (char = [chDot]) then 2
  else if decide (char = [chBar]) then 2
  else if decide (char = [chStar]) then 1
  else 0.

(** [insertConcat] by recursion on the pattern, one character of
    lookahead; used to reason about the index loop. *)
Fixpoint insertConcat_from (l : jsstring) : jsstring :=
  match l with
  | [] => []
  | c1 :: rest =>
      c1 :: match rest with
            | c2 :: _ =>
                if isC1Alphanum c1 && isC2Alphanum c2
                then chDot :: insertConcat_from rest
                else insertConcat_from rest
            | [] => []
            end
  end.

(** ** The bit converter: [BitConverter] *)

Definition ch0 : codeUnit := 48%N.  (* '0' *)
Definition ch1 : codeUnit := 49%N.  (* '1' *)

(** The digits of a positive number in base two, most significant first,
    in front of [acc]. *)
Fixpoint pos_bits (p : positive) (acc : jsstring) : jsstring :=
  match p with
  | xH => ch1 :: acc
  | xO p => pos_bits p (ch0 :: acc)
  | xI p => pos_bits p (ch1 :: acc)
  end.

(** [n.toString(2)] on a code unit. *)
Definition toString2 (n : N) : jsstring :=
  match n with
  | N0 => [ch0]
  | Npos p => pos_bits p []
  end.

(** [s.padStart(targetLength, fill)] with a one-character [fill]. *)
Definition padStart (targetLength : nat) (fill : codeUnit) (s : jsstring) : jsstring :=
  replicate (targetLength - length s) fill ++ s.

(** [c.charCodeAt(0).toString(2).padStart(8, '0')]; the character code of
    the empty string is [NaN], which prints as ["NaN"]. *)
Definition charToBits (c : jsstring) : jsstring :=
  match c with
  | u :: _ => padStart 8 ch0 (toString2 u)
  | [] => padStart 8 ch0 (lit "NaN")
  end.

(** The state of the component: the two text areas. *)
Record converter := mkConverter { text : jsstring; binary : jsstring }.

(** [onTextChange] on the value typed in the text area. *)
Definition onTextChange (val : jsstring) : converter :=
  {| text := val;
     binary := mjoin (charToBits <$> split_units val) |}.

(** The class [[01]]. *)
Definition isBit (u : codeUnit) : bool := (u =? ch0)%N || (u =? ch1)%N.

(** The value of a string of binary digits. *)
Definition bits_value (digits : jsstring) : N :=
  foldl (λ acc u, 2 * acc + (u - ch0))%N 0%N digits.

(** [parseInt(b, 2)] on a string with no leading white space or sign: the
    value of the longest prefix of binary digits, [NaN] ([None]) when that
    prefix is empty. *)
Definition parseInt2 (b : jsstring) : option N :=
  match takeWhile isBit b with
  | [] => None
  | digits => Some (bits_value digits)
  end.

(** [String.fromCharCode(n)]: the code unit [n] modulo 2^16, [NaN] giving 0. *)
Definition fromCharCode (n : option N) : jsstring :=
  [(default 0 n mod 65536)%N].

(** The successive matches of [/.{1,8}/g] in a string without line
    terminators: groups of eight characters, the last one possibly
    shorter.  [fuel] bounds the number of matches. *)
Fixpoint chunks8 (fuel : nat) (s : jsstring) : list jsstring :=
  match fuel with
  | O => []
  | S fuel =>
      match s with
      | [] => []
      | _ => take 8 s :: chunks8 fuel (drop 8 s)
      end
  end.

(** [clean.match(/.{1,8}/g) || []] *)
Definition match_1_8 (clean : jsstring) : list jsstring :=
  chunks8 (length clean) clean.

(** [onBinaryChange] on the value typed in the binary area. *)
Definition onBinaryChange (val : jsstring) : converter :=
  let clean := filter (λ u, isBit u) val in
  let bytes := match_1_8 clean in
  {| text := mjoin ((λ b, fromCharCode (parseInt2 b)) <$> bytes);
     binary := val |}.


(** ** The shape of the automata the compiler builds *)

(** The invariant of Thompson's construction, on the compiler's state:
    the end of a stacked fragment has no transition yet and its start has
    one; stacked fragments have different ends; a state leaves on one
    label only, to at most two states, and to at most one on a label
    other than ['ε']. *)
Record thompson (σ : cstate) : Prop := {
  th_end : ∀ n c, n ∈ stack σ → succs (heap σ) (end_ n) c = [];
  th_start : ∀ n, n ∈ stack σ → ∃ c, succs (heap σ) (start n) c ≠ [];
  th_ends : NoDup (end_ <$> stack σ);
  th_two : ∀ s c, length (succs (heap σ) s c) ≤ 2;
  th_one : ∀ s c, c ≠ epsilon → length (succs (heap σ) s c) ≤ 1;
  th_label : ∀ s c1 c2,
      succs (heap σ) s c1 ≠ [] → succs (heap σ) s c2 ≠ [] → c1 = c2;
}.


(** ** What the simulator is to compute *)

(** [s'] is reached from [s] along transitions labelled ['ε']. *)
Definition eps_closure (h : list State) : nat → nat → Prop :=
  rtc (λ s s', s' ∈ succs h s epsilon).

(** The states an automaton can be in after reading one more character:
    a transition on the character from an active state, then any number
    of transitions labelled ['ε']. *)
Definition after_char (h : list State) (active : nat → Prop) (char : jsstring)
  : nat → Prop :=
  λ s', ∃ s p, active s ∧ p ∈ succs h s char ∧ eps_closure h p s'.

(** The states an automaton can be in after reading [chars] from the
    closure of [s0]. *)
Definition activeAfter (h : list State) (s0 : nat) (chars : list jsstring)
  : nat → Prop :=
  foldl (after_char h) (eps_closure h s0) chars.

(** A set that holds the ['ε'] successors of its members. *)
Definition eps_closed (h : list State) (set : list nat) : Prop :=
  ∀ s s', s ∈ set → s' ∈ succs h s epsilon → s' ∈ set.

(** What a call [add s set] (a call of [addState] on a heap) may return:
    the set, with [s] and states reached from [s] on ['ε'] added at the
    end, every added state having its ['ε'] successors in the result. *)
Definition closure_call (h : list State)
    (add : nat → list nat → option (list nat)) : Prop :=
  ∀ s set result, add s set = Some result →
    (∃ extra, result = set ++ extra)
    ∧ s ∈ result
    ∧ (∀ x, x ∈ result → x ∈ set ∨ eps_closure h s x)
    ∧ (∀ x y, x ∈ result → x ∉ set → y ∈ succs h x epsilon → y ∈ result)
    ∧ (NoDup set → NoDup result).


(** ** The layout of the graph: [layoutGraph] *)

Record NodeType := mkNode {
  node_id : nat;
  node_x : Z;
  node_y : Z;
  node_label : jsstring;
  node_isAccept : bool;
}.

Record EdgeType := mkEdge {
  edge_from : nat;
  edge_to : nat;
  edge_label : jsstring;
  edge_id : jsstring;
}.

(** [`${n}`] for a non-negative integer: its decimal digits. *)
Definition numberToString (n : nat) : jsstring :=
  lit (NilEmpty.string_of_uint (Nat.to_uint n)).

Definition chMinus : codeUnit := 45%N.  (* '-' *)

(** The pairs of a label and a successor that the two nested [forEach]
    over [Object.entries(state.transitions)] go through.  A [gmap] keeps
    no insertion order: the order of [Object.entries] is that of
    [map_to_list] for a state with at most one label, which is every state
    the compiler builds. *)
Definition entries_flat (st : State) : list (jsstring * nat) :=
  '(char, nextStates) ← map_to_list (transitions st);
  (λ next, (char, next)) <$> nextStates.

(** [(layerCount % 2 === 0 ? 1 : -1) * (Math.floor(layerCount / 1) * 70)] *)
Definition yOffset (layerCount : nat) : Z :=
  ((if Nat.even layerCount then 1 else -1) * (Z.of_nat layerCount * 70))%Z.

(** The variables of [layoutGraph]; a queue entry is a state and its layer. *)
Record layout_state := mkLayout {
  queue : list (nat * nat);
  visited : gset nat;
  layers : gmap nat nat;
  nodes : list NodeType;
  edges : list EdgeType;
}.

(** The body of the inner [forEach] for one successor [next] on [char]. *)
Definition push_edge (h : list State) (state_id layer : nat)
    (acc : option (list EdgeType * list (nat * nat))) (entry : jsstring * nat)
  : option (list EdgeType * list (nat * nat)) :=
  '(edges, queue) ← acc;
  nx ← h !! entry.2;
  Some (edges ++ [{| edge_from := state_id;
                     edge_to := id nx;
                     edge_label := if decide (entry.1 = epsilon) then epsilon else entry.1;
                     edge_id := numberToString state_id ++ [chMinus]
                                ++ numberToString (id nx) ++ [chMinus] ++ entry.1 |}],
        queue ++ [(entry.2, layer + 1)]).

(** The [while (queue.length > 0)] loop; [fuel] bounds its iterations. *)
Fixpoint layout_loop (fuel : nat) (h : list State) (ls : layout_state)
  : option (list NodeType * list EdgeType) :=
  match fuel with
  | O => None
  | S fuel =>
      match queue ls with
      | [] => Some (nodes ls, edges ls)
      | (state, layer) :: queue =>
          st ← h !! state;
          if decide (id st ∈ visited ls) then
            layout_loop fuel h
              {| queue := queue; visited := visited ls; layers := layers ls;
                 nodes := nodes ls; edges := edges ls |}
          else
            let layerCount := default 0 (layers ls !! layer) in
            let node :=
              {| node_id := id st;
                 node_x := (60 + Z.of_nat layer * 120)%Z;
                 node_y := (150 + yOffset layerCount)%Z;
                 node_label := if isAccept st then lit "End" else numberToString (id st);
                 node_isAccept := isAccept st |} in
            '(edges, queue) ← foldl (push_edge h (id st) layer)
                                (Some (edges ls, queue)) (entries_flat st);
            layout_loop fuel h
              {| queue := queue;
                 visited := {[id st]} ∪ visited ls;
                 layers := <[layer := layerCount + 1]> (layers ls);
                 nodes := nodes ls ++ [node];
                 edges := edges |}
      end
  end.

(** [layoutGraph(nfa)] *)
Definition layoutGraph (fuel : nat) (h : list State) (nfa : NFA)
  : option (list NodeType * list EdgeType) :=
  layout_loop fuel h
    {| queue := [(start nfa, 0)]; visited := ∅; layers := ∅;
       nodes := []; edges := [] |}.


(** The edge [layoutGraph] draws from [state_id] for one transition. *)
Definition edge_of (state_id : nat) (entry : jsstring * nat) : EdgeType :=
  {| edge_from := state_id;
     edge_to := entry.2;
     edge_label := if decide (entry.1 = epsilon) then epsilon else entry.1;
     edge_id := numberToString state_id ++ [chMinus]
                ++ numberToString entry.2 ++ [chMinus] ++ entry.1 |}.

(** The transitions of the states not yet visited: what the loop may
    still add to the queue. *)
Definition pending (h : list State) (visited : gset nat) : nat :=
  sum_list_with
    (λ st, if decide (id st ∈ visited) then 0 else length (entries_flat st)) h.

(** The invariant of the loop of [layoutGraph] from the start state [s0]. *)
Record layout_inv (h : list State) (s0 : nat) (ls : layout_state) : Prop := {
  li_nodes : ∀ s, s ∈ visited ls ↔ s ∈ node_id <$> nodes ls;
  li_nodup : NoDup (node_id <$> nodes ls);
  li_sound : ∀ s, s ∈ visited ls ∨ s ∈ (queue ls).*1 → reachable h s0 s;
  li_start : s0 ∈ visited ls ∨ s0 ∈ (queue ls).*1;
  li_closed : ∀ v c w, v ∈ visited ls → w ∈ succs h v c →
                       w ∈ visited ls ∨ w ∈ (queue ls).*1;
  li_edges : ∀ e, e ∈ edges ls
                  ↔ ∃ v c w, v ∈ visited ls ∧ w ∈ succs h v c ∧ e = edge_of v (c, w);
  li_info : ∀ n, n ∈ nodes ls →
      node_isAccept n = accepting h (node_id n)
      ∧ node_label n = (if accepting h (node_id n) then lit "End"
                        else numberToString (node_id n))
      ∧ ∃ layer k, node_x n = (60 + Z.of_nat layer * 120)%Z
                   ∧ node_y n = (150 + yOffset k)%Z
                   ∧ k < default 0 (layers ls !! layer);
  li_pos : NoDup ((λ n, (node_x n, node_y n)) <$> nodes ls);
}.

(** What [layoutGraph] returns for the start state [s0]: one node for
    every state reachable from [s0], one edge for every transition
    between them, the accepting states labelled ["End"] and the others
    by their identifier, no two nodes at the same place. *)
Record layout_ok (h : list State) (s0 : nat)
    (nodes : list NodeType) (edges : list EdgeType) : Prop := {
  lo_nodup : NoDup (node_id <$> nodes);
  lo_nodes : ∀ s, s ∈ node_id <$> nodes ↔ reachable h s0 s;
  lo_edges : ∀ e, e ∈ edges
                  ↔ ∃ v c w, reachable h s0 v ∧ w ∈ succs h v c ∧ e = edge_of v (c, w);
  lo_info : ∀ n, n ∈ nodes →
      node_isAccept n = accepting h (node_id n)
      ∧ node_label n = (if accepting h (node_id n) then lit "End"
                        else numberToString (node_id n))
      ∧ ∃ layer k, node_x n = (60 + Z.of_nat layer * 120)%Z
                   ∧ node_y n = (150 + yOffset k)%Z;
  lo_pos : NoDup ((λ n, (node_x n, node_y n)) <$> nodes);
}.


(** The callback of [useMemo] in [RegexAutomata]: the nodes and edges to
    draw and the automaton, for the pattern typed in. *)
Definition useMemo_graph (fuel : nat) (regexInput : jsstring)
  : option (list NodeType * list EdgeType * option NFA) :=
  match compileRegexToNFA regexInput with
  | Normal (Some nfa) σ =>
      match layoutGraph fuel (heap σ) nfa with
      | Some (nodes, edges) => Some (nodes, edges, Some nfa)
      | None => None
      end
  | _ => Some ([], [], None)
  end.



(** ** The language of an automaton and of a postfix stream *)

(** A path from [s] to [t] that spells the word [w]: a transition
    labelled ['ε'] may be taken without reading, and a transition on any
    label may be taken reading that label. *)
Inductive run (h : list State) : nat → list jsstring → nat → Prop :=
  | run_nil s : run h s [] s
  | run_eps s s' w t : s' ∈ succs h s epsilon → run h s' w t → run h s w t
  | run_char s s' c w t : s' ∈ succs h s c → run h s' w t → run h s (c :: w) t.

(** Regular expressions, and the words they match.  The literal ['ε']
    matches the empty word. *)
Inductive regex : Type :=
  | Lit (char : jsstring)
  | Cat (r1 r2 : regex)
  | Alt (r1 r2 : regex)
  | Star (r : regex).

Inductive lang_star (L : list jsstring → Prop) : list jsstring → Prop :=
  | lang_star_nil : lang_star L []
  | lang_star_app w1 w2 : L w1 → lang_star L w2 → lang_star L (w1 ++ w2).

Fixpoint matches (r : regex) (w : list jsstring) : Prop :=
  match r with
  | Lit char => if decide (char = epsilon) then w = [] else w = [char]
  | Cat r1 r2 => ∃ w1 w2, w = w1 ++ w2 ∧ matches r1 w1 ∧ matches r2 w2
  | Alt r1 r2 => matches r1 w ∨ matches r2 w
  | Star r => lang_star (matches r) w
  end.

(** The expression a postfix stream stands for, read with a stack as the
    compiler's loop reads it: ['.'] and ['|'] take two operands, ['*']
    takes one, any other token is a literal; [None] when an operand is
    missing. *)
Definition parse_iter (stack : list regex) (char : jsstring) : option (list regex) :=
  if decide (char = [chDot]) then
    match stack with
    | r2 :: r1 :: rest => Some (Cat r1 r2 :: rest)
    | _ => None
    end
  else if decide (char = [chBar]) then
    match stack with
    | r2 :: r1 :: rest => Some (Alt r1 r2 :: rest)
    | _ => None
    end
  else if decide (char = [chStar]) then
    match stack with
    | r1 :: rest => Some (Star r1 :: rest)
    | _ => None
    end
  else Some (Lit char :: stack).

Definition parse_postfix (tokens : list jsstring) : option (list regex) :=
  foldl (λ o char, o ≫= λ stack, parse_iter stack char) (Some []) tokens.

(** The fragment [n] accepts the words of [r]: the paths from its start
    to its end spell them. *)
Definition accepts (h : list State) (n : NFA) (r : regex) : Prop :=
  ∀ w, epsilon ∉ w → run h (start n) w (end_ n) ↔ matches r w.

(** No state is reachable from the starts of two fragments of the stack. *)
Fixpoint apart (h : list State) (stack : list NFA) : Prop :=
  match stack with
  | [] => True
  | n :: rest =>
      Forall (λ m, ∀ s, reachable h (start n) s → ¬ reachable h (start m) s) rest
      ∧ apart h rest
  end.

(** The fragments on the compiler's stack accept the expressions on the
    stack of the reading of the postfix stream. *)
Record built (σ : cstate) (rs : list regex) : Prop := {
  bu_accepts : Forall2 (accepts (heap σ)) (stack σ) rs;
  bu_apart : apart (heap σ) (stack σ);
}.



(** ** The patterns of the grammar, and what they stand for *)

(** [parses k pattern r]: [pattern] is written in the usual grammar of
    regular expressions over letters and digits, and stands for [r].
    [k] is the level of the pattern: an alternation has level 1, a
    concatenation level 2, a starred pattern level 3, and a letter, a
    digit or a pattern in parentheses any level; the operands of an
    alternation have levels 1 and 2, those of a concatenation 2 and 3,
    and that of a star 3, so that ['|'] and concatenation associate to the
    left and ['*'] binds strongest. *)
Inductive parses : nat → jsstring → regex → Prop :=
  | parses_lit k c :
      isAlnumUnit c = true → parses k [c] (Lit [c])
  | parses_paren k s r :
      parses 1 s r → parses k ([chLParen] ++ s ++ [chRParen]) r
  | parses_star k s r :
      k ≤ 3 → parses 3 s r → parses k (s ++ [chStar]) (Star r)
  | parses_cat k s1 s2 r1 r2 :
      k ≤ 2 → parses 2 s1 r1 → parses 3 s2 r2 →
      parses k (s1 ++ s2) (Cat r1 r2)
  | parses_alt k s1 s2 r1 r2 :
      k ≤ 1 → parses 1 s1 r1 → parses 2 s2 r2 →
      parses k (s1 ++ [chBar] ++ s2) (Alt r1 r2).

(** The postfix form of an expression. *)
Fixpoint postfix (r : regex) : jsstring :=
  match r with
  | Lit char => char
  | Cat r1 r2 => postfix r1 ++ postfix r2 ++ [chDot]
  | Alt r1 r2 => postfix r1 ++ postfix r2 ++ [chBar]
  | Star r => postfix r ++ [chStar]
  end.

(** The top of the operator stack is no operator of precedence [k] or
    more: an operator of such a precedence pops nothing from it. *)
Definition exposed (k : nat) (stack : list jsstring) : Prop :=
  match stack with
  | [] => True
  | top :: _ => ∀ j, precedence top = Some j → j < k
  end.

(** Operators of precedence [k] or more. *)
Definition pending_ops (k : nat) (stack : list jsstring) : Prop :=
  Forall (λ op, ∃ j, precedence op = Some j ∧ k ≤ j) stack.



(** [t] is reached from [s] along exactly [n] transitions. *)
Fixpoint steps (h : list State) (n : nat) (s t : nat) : Prop :=
  match n with
  | O => s = t
  | S n => ∃ m, steps h n s m ∧ edge h m t
  end.

(** [d] is the least number of transitions from [s] to [t]. *)
Definition distance (h : list State) (s t : nat) (d : nat) : Prop :=
  steps h d s t ∧ ∀ d', steps h d' s t → d ≤ d'.

(** The loop of [layoutGraph] visits the states breadth first: while the
    entries of layer [L] are taken from the queue, the queue holds
    entries of layer [L] followed by entries of layer [L + 1], every
    state nearer than [L] has its node, and the layer of a node is the
    distance of its state from the start state [s0]. *)
Record bfs_inv (h : list State) (s0 : nat) (L : nat) (ls : layout_state)
  : Prop := {
  bf_queue : ∃ qa qb, queue ls = qa ++ qb
                      ∧ Forall (λ e, e.2 = L) qa ∧ Forall (λ e, e.2 = S L) qb;
  bf_steps : Forall (λ e, steps h e.2 s0 e.1) (queue ls);
  bf_near : ∀ s d, steps h d s0 s → d < L → s ∈ visited ls;
  bf_start : s0 ∈ visited ls ∨ (s0, 0) ∈ queue ls;
  bf_nodes : ∀ n, n ∈ nodes ls →
      ∃ d, node_x n = (60 + Z.of_nat d * 120)%Z
           ∧ distance h s0 (node_id n) d ∧ d ≤ L
           ∧ ∀ t, edge h (node_id n) t → t ∈ visited ls ∨ (t, S d) ∈ queue ls;
}.



(** The rows of the layout: [layers] counts the nodes of each column,
    and the height of a node is given by the number of nodes placed
    before it in its column. *)
Record rows_inv (ls : layout_state) : Prop := {
  ro_count : ∀ layer,
      default 0 (layers ls !! layer)
      = length (filter (λ n, node_x n = (60 + Z.of_nat layer * 120)%Z) (nodes ls));
  ro_rows : ∀ i n, nodes ls !! i = Some n →
      node_y n
      = (150 + yOffset (length (filter (λ m, node_x m = node_x n)
                                  (take i (nodes ls)))))%Z;
}.



(** * Properties *)

(** ** The lexical normalizer *)

Section normalizer.
Implicit Types (pattern pre suf res : list N).

Lemma insertConcat_loop suf : ∀ pre res,
  foldl (insertConcat_iter (pre ++ suf)) res (seq (length pre) (length suf))
  = res ++ insertConcat_from suf.
Proof.
  induction suf as [|c1 suf IH]; intros pre res.
  { simpl. by rewrite app_nil_r. }
  cbn [length seq foldl].
  assert (Hstep : insertConcat_iter (pre ++ c1 :: suf) res (length pre)
                  = res ++ c1 :: match suf with
                                 | c2 :: _ => if isC1Alphanum c1 && isC2Alphanum c2
                                              then [chDot] else []
                                 | [] => []
                                 end).
  { unfold insertConcat_iter. rewrite list_lookup_middle by done.
    rewrite (cons_middle c1 pre suf), (assoc_L (++)).
    replace (length pre + 1) with (length (pre ++ [c1]) + 0)
      by (rewrite length_app; simpl; lia).
    rewrite lookup_app_r by lia.
    replace (length (pre ++ [c1]) + 0 - length (pre ++ [c1])) with 0 by lia.
    destruct suf as [|c2 suf]; simpl.
    - by case_bool_decide.
    - rewrite bool_decide_true by (rewrite !length_app; simpl; lia).
      destruct (isC1Alphanum c1 && isC2Alphanum c2);
        by rewrite <-?(assoc_L (++)). }
  rewrite Hstep.
  rewrite (cons_middle c1 pre suf), (assoc_L (++)).
  replace (S (length pre)) with (length (pre ++ [c1]))
    by (rewrite length_app; simpl; lia).
  rewrite IH. destruct suf as [|c2 suf]; simpl.
  - by rewrite app_nil_r.
  - destruct (isC1Alphanum c1 && isC2Alphanum c2); simpl;
      by rewrite <-?(assoc_L (++)).
Qed.

Lemma insertConcat_unfold pattern : insertConcat pattern = insertConcat_from pattern.
Proof. apply (insertConcat_loop pattern [] []). Qed.

Lemma classes_agree c1 c2 :
  (isAlnumUnit c1 || bool_decide (c1 = chStar) || bool_decide (c1 = chRParen))
  && (isAlnumUnit c2 || bool_decide (c2 = chLParen))
  = isC1Alphanum c1 && isC2Alphanum c2.
Proof.
  unfold isC1Alphanum, isC2Alphanum.
  destruct (N.eqb_spec c1 chStar), (N.eqb_spec c1 chRParen),
    (N.eqb_spec c2 chLParen); repeat case_bool_decide; done.
Qed.

Lemma insertConcat_spec_from suf : ∀ pre,
  mjoin (imap (λ i c, if concatBetween (pre ++ suf) (length pre + i) then [c; chDot] else [c]) suf)
  = insertConcat_from suf.
Proof.
  induction suf as [|c1 suf IH]; intros pre; [done|].
  rewrite imap_cons. cbn [mjoin list_join].
  assert (Hnext : imap ((λ i c, if concatBetween (pre ++ c1 :: suf) (length pre + i)
                                then [c; chDot] else [c]) ∘ S) suf
                  = imap (λ i c, if concatBetween ((pre ++ [c1]) ++ suf)
                                      (length (pre ++ [c1]) + i)
                                 then [c; chDot] else [c]) suf).
  { apply imap_ext. intros i c _. simpl.
    rewrite <-(assoc_L (++)), length_app. simpl.
    by replace (length pre + S i) with (length pre + 1 + i) by lia. }
  rewrite Hnext, IH.
  unfold concatBetween.
  replace (length pre + 0) with (length pre) by lia.
  rewrite list_lookup_middle by done.
  rewrite (cons_middle c1 pre suf), (assoc_L (++)).
  replace (S (length pre)) with (length (pre ++ [c1]) + 0)
    by (rewrite length_app; simpl; lia).
  rewrite lookup_app_r by lia.
  replace (length (pre ++ [c1]) + 0 - length (pre ++ [c1])) with 0 by lia.
  destruct suf as [|c2 suf]; simpl; [done|].
  rewrite classes_agree.
  by destruct (isC1Alphanum c1 && isC2Alphanum c2).
Qed.

Example insertConcat_composite :
  insertConcat (lit "(a|b)*abb") = lit "(a|b)*.a.b.b".
Proof. vm_compute. reflexivity. Qed.

(** C7: for every input string the lexical normalizer returns the input
    with a ['.'] inserted between positions [i] and [i + 1] exactly when
    the character at [i] is alphanumeric, a star or a closing
    parenthesis and the character at [i + 1] is alphanumeric or an
    opening parenthesis; nothing else changes, nothing is inserted at
    the boundaries, and the function is total. *)
Theorem insertConcat_inserts_exactly_between_operands pattern :
  insertConcat pattern = insertConcat_spec pattern.
Proof.
  rewrite insertConcat_unfold. symmetry.
  apply (insertConcat_spec_from pattern []).
Qed.
End normalizer.

(** ** The infix-to-postfix translator *)

Section translator.
Implicit Types (stack ops : list (list N)) (output out char top op : list N).

Lemma precedence_rank op : precedence op = rank op.
Proof.
  unfold precedence, rank, chStar, chDot, chBar.
  destruct op as [|c [|c' op]]; [by repeat case_decide| |by repeat case_decide].
  destruct (N.eqb_spec c 42), (N.eqb_spec c 46), (N.eqb_spec c 124);
    repeat case_decide; congruence.
Qed.

Lemma js_ge_outranks top char :
  js_ge (precedence top) (precedence char) = outranks char top.
Proof.
  unfold js_ge, outranks. rewrite !precedence_rank.
  destruct (rank top) as [x|], (rank char) as [y|]; try done.
  case_bool_decide; symmetry; [by apply Nat.leb_le|by apply Nat.leb_gt; lia].
Qed.

Lemma popUntilParen_span stack : ∀ output,
  popUntilParen stack output
  = (dropWhile notLParen stack, output ++ mjoin (takeWhile notLParen stack)).
Proof.
  induction stack as [|top rest IH]; intros output; simpl.
  - by rewrite app_nil_r.
  - unfold notLParen at 1 3. case_bool_decide; simpl.
    + by rewrite IH, (assoc_L (++)).
    + by rewrite app_nil_r.
Qed.

Lemma popHigher_span char stack : ∀ output,
  popHigher char stack output
  = (dropWhile (outranks char) stack,
     output ++ mjoin (takeWhile (outranks char) stack)).
Proof.
  induction stack as [|top rest IH]; intros output; simpl.
  - by rewrite app_nil_r.
  - rewrite js_ge_outranks. destruct (outranks char top); simpl.
    + by rewrite IH, (assoc_L (++)).
    + by rewrite app_nil_r.
Qed.

Lemma popAll_join stack : ∀ output, popAll stack output = output ++ mjoin stack.
Proof.
  induction stack as [|top rest IH]; intros output; simpl.
  - by rewrite app_nil_r.
  - by rewrite IH, (assoc_L (++)).
Qed.

Lemma toPostfix_iter_shuntingYard st char :
  toPostfix_iter st char = shuntingYard_step st char.
Proof.
  destruct st as [stack output]. unfold toPostfix_iter, shuntingYard_step.
  destruct (testAlnum char); [done|].
  case_decide; [by rewrite bool_decide_true|rewrite bool_decide_false by done].
  case_decide; [rewrite bool_decide_true by done|rewrite bool_decide_false by done].
  - rewrite popUntilParen_span. by destruct (dropWhile notLParen stack).
  - by rewrite popHigher_span.
Qed.

Lemma foldl_pointwise {A B} (f g : A → B → A) (l : list B) :
  (∀ a b, f a b = g a b) → ∀ a, foldl f a l = foldl g a l.
Proof.
  intros Hfg. induction l as [|b l IH]; intros a; simpl; [done|].
  by rewrite Hfg, IH.
Qed.

Example toPostfix_composite :
  toPostfix (lit "(a|b)*abb") = lit "ab|*a.b.b.".
Proof. vm_compute. reflexivity. Qed.

(** An unbalanced parenthesis stays on the stack and is emitted at the end. *)
Example toPostfix_unbalanced : toPostfix (lit "(a") = lit "a(".
Proof. vm_compute. reflexivity. Qed.

(** C6: for every input string the translator emits alphanumeric
    characters immediately, pushes an opening parenthesis, on a closing
    parenthesis pops and emits down to the matching opening parenthesis
    and discards it, on any other character pops and emits the stacked
    operators of precedence greater than or equal to its own (star above
    dot above bar) before pushing it, and at the end of the input emits
    the rest of the stack in pop order: it is the shunting-yard
    translation of the normalized pattern. *)
Theorem toPostfix_is_shunting_yard (pattern : list N) :
  toPostfix pattern = shuntingYard (codePoints (insertConcat pattern)).
Proof.
  unfold toPostfix, shuntingYard.
  rewrite (foldl_pointwise _ _ _ toPostfix_iter_shuntingYard).
  destruct (foldl _ _ _) as [stack output]. apply popAll_join.
Qed.
End translator.

(** ** Heap updates, seen through [succs] and [accepting] *)

Section heap_updates.
Implicit Types (h : list State) (st : State) (s r n : nat) (c : list N).

Lemma State_addTransition_lookup c' n st c :
  default [] (transitions (State_addTransition c' n st) !! c)
  = default [] (transitions st !! c) ++ (if decide (c = c') then [n] else []).
Proof.
  unfold State_addTransition; simpl. rewrite lookup_alter.
  case_decide as Hc; subst.
  - rewrite decide_True by done.
    destruct (transitions st !! c) as [arr|] eqn:Harr; simpl.
    + by rewrite Harr.
    + by rewrite lookup_insert_eq.
  - rewrite decide_False by done. rewrite app_nil_r.
    destruct (transitions st !! c') as [arr|] eqn:Harr; [done|].
    by rewrite lookup_insert_ne.
Qed.

Lemma succs_addTransition h c' n r s c :
  succs (alter (State_addTransition c' n) r h) s c
  = succs h s c
    ++ (if decide (s = r ∧ c = c' ∧ r < length h) then [n] else []).
Proof.
  unfold succs. rewrite list_lookup_alter.
  destruct (decide (r = s)) as [->|Hne].
  - destruct (h !! s) as [st|] eqn:Hst; cbn -[State_addTransition].
    + rewrite State_addTransition_lookup. apply lookup_lt_Some in Hst.
      destruct (decide (c = c')).
      * by rewrite decide_True.
      * rewrite decide_False; [done|intuition congruence].
    + apply lookup_ge_None in Hst. rewrite decide_False; [done|lia].
  - rewrite decide_False; [by rewrite app_nil_r|intuition congruence].
Qed.

Lemma accepting_addTransition h c' n r s :
  accepting (alter (State_addTransition c' n) r h) s = accepting h s.
Proof.
  unfold accepting. rewrite list_lookup_alter.
  case_decide; subst; [|done]. by destruct (h !! s).
Qed.

Lemma succs_setAccept h b r s c :
  succs (alter (State_setAccept b) r h) s c = succs h s c.
Proof.
  unfold succs. rewrite list_lookup_alter.
  case_decide; subst; [|done]. by destruct (h !! s).
Qed.

Lemma accepting_setAccept h b r s :
  accepting (alter (State_setAccept b) r h) s
  = if decide (s = r ∧ r < length h) then b else accepting h s.
Proof.
  unfold accepting. rewrite list_lookup_alter.
  destruct (decide (r = s)) as [->|Hne].
  - destruct (h !! s) as [st|] eqn:Hst; simpl.
    + apply lookup_lt_Some in Hst. by rewrite decide_True.
    + apply lookup_ge_None in Hst. rewrite decide_False; [done|lia].
  - rewrite decide_False; [done|intuition congruence].
Qed.

Lemma succs_alloc h i s c : succs (h ++ [mkState i ∅ false]) s c = succs h s c.
Proof.
  unfold succs. destruct (decide (s < length h)) as [Hlt|Hge].
  - by rewrite lookup_app_l.
  - rewrite (proj2 (lookup_ge_None h s)) by lia.
    destruct (decide (s = length h)) as [->|Hne].
    + by rewrite list_lookup_middle.
    + rewrite (proj2 (lookup_ge_None _ s)); [done|].
      rewrite length_app; simpl; lia.
Qed.

Lemma accepting_alloc h i s :
  accepting (h ++ [mkState i ∅ false]) s = accepting h s.
Proof.
  unfold accepting. destruct (decide (s < length h)) as [Hlt|Hge].
  - by rewrite lookup_app_l.
  - rewrite (proj2 (lookup_ge_None h s)) by lia.
    destruct (decide (s = length h)) as [->|Hne].
    + by rewrite list_lookup_middle.
    + rewrite (proj2 (lookup_ge_None _ s)); [done|].
      rewrite length_app; simpl; lia.
Qed.

End heap_updates.

(** ** One step of the compiler *)

Ltac heap_len := rewrite ?length_alter, ?length_app; simpl; lia.

Ltac heap_obs :=
  repeat first
    [ rewrite succs_setAccept
    | rewrite succs_alloc
    | rewrite accepting_addTransition
    | rewrite accepting_alloc
    | rewrite succs_addTransition
    | rewrite accepting_setAccept
    | rewrite length_alter
    | rewrite length_app ].

Ltac heap_cases :=
  repeat case_decide; simpl; rewrite ?app_nil_r, <-?(assoc_L (++)); simpl;
  first [ done | exfalso; lia | exfalso; intuition (subst; first [congruence | lia]) ].

Section compiler_steps.
Implicit Types (σ : cstate) (h : list State) (rest : list NFA) (s : nat) (c : list N).

Lemma ids_addTransition h c n r :
  id <$> alter (State_addTransition c n) r h = id <$> h.
Proof.
  rewrite (list_fmap_alter id _ (λ x, x)) by by apply Forall_true.
  by apply list_alter_id.
Qed.

Lemma ids_setAccept h b r : id <$> alter (State_setAccept b) r h = id <$> h.
Proof.
  rewrite (list_fmap_alter id _ (λ x, x)) by by apply Forall_true.
  by apply list_alter_id.
Qed.

(** The Kleene star on a stack that holds an operand. *)
Lemma compile_iter_star σ A rest :
  stack σ = A :: rest →
  end_ A < length (heap σ) →
  let n := length (heap σ) in
  ∃ h',
    compile_iter [chStar] σ
    = Normal () (mkCstate h' (S (S (idCounter σ))) (mkNFA n (S n) :: rest))
    ∧ length h' = S (S n)
    ∧ id <$> h' = (id <$> heap σ) ++ [idCounter σ; S (idCounter σ)]
    ∧ (∀ s, accepting h' s
            = if decide (s = end_ A) then false else accepting (heap σ) s)
    ∧ (∀ s c, succs h' s c
              = succs (heap σ) s c
                ++ (if decide (s = n ∧ c = epsilon) then [start A; S n] else [])
                ++ (if decide (s = end_ A ∧ c = epsilon) then [start A; S n] else [])).
Proof.
  intros Hstack Hend n. eexists. split.
  { unfold compile_iter. rewrite !decide_False by done. rewrite decide_True by done.
    unfold mbind, M_bind, stack_pop. rewrite Hstack. simpl.
    rewrite length_app. simpl. rewrite Nat.add_1_r. fold n. reflexivity. }
  simpl. split; [heap_len|]. split.
  { rewrite !ids_addTransition, ids_setAccept, !ids_addTransition.
    by rewrite !fmap_app, <-(assoc_L (++)). }
  split.
  - intros s. heap_obs. simpl. heap_cases.
  - intros s c. heap_obs. simpl. fold n. heap_cases.
Qed.

(** Concatenation on a stack that holds two operands. *)
Lemma compile_iter_dot σ B A rest :
  stack σ = B :: A :: rest →
  end_ A < length (heap σ) →
  ∃ h',
    compile_iter [chDot] σ
    = Normal () (mkCstate h' (idCounter σ) (mkNFA (start A) (end_ B) :: rest))
    ∧ length h' = length (heap σ)
    ∧ id <$> h' = id <$> heap σ
    ∧ (∀ s, accepting h' s
            = if decide (s = end_ A) then false else accepting (heap σ) s)
    ∧ (∀ s c, succs h' s c
              = succs (heap σ) s c
                ++ (if decide (s = end_ A ∧ c = epsilon) then [start B] else [])).
Proof.
  intros Hstack Hend. eexists. split.
  { unfold compile_iter. rewrite decide_True by done.
    unfold mbind, M_bind, stack_pop. rewrite Hstack. simpl. reflexivity. }
  simpl. split; [heap_len|]. split.
  { by rewrite ids_addTransition, ids_setAccept. }
  split.
  - intros s. heap_obs. simpl. heap_cases.
  - intros s c. heap_obs. simpl. heap_cases.
Qed.

(** Alternation on a stack that holds two operands. *)
Lemma compile_iter_bar σ B A rest :
  stack σ = B :: A :: rest →
  end_ A < length (heap σ) →
  end_ B < length (heap σ) →
  let n := length (heap σ) in
  ∃ h',
    compile_iter [chBar] σ
    = Normal () (mkCstate h' (S (S (idCounter σ))) (mkNFA n (S n) :: rest))
    ∧ length h' = S (S n)
    ∧ id <$> h' = (id <$> heap σ) ++ [idCounter σ; S (idCounter σ)]
    ∧ (∀ s, accepting h' s
            = if decide (s = end_ A ∨ s = end_ B) then false
              else accepting (heap σ) s)
    ∧ (∀ s c, succs h' s c
              = succs (heap σ) s c
                ++ (if decide (s = n ∧ c = epsilon) then [start A; start B] else [])
                ++ (if decide (s = end_ A ∧ c = epsilon) then [S n] else [])
                ++ (if decide (s = end_ B ∧ c = epsilon) then [S n] else [])).
Proof.
  intros Hstack HendA HendB n. eexists. split.
  { unfold compile_iter. rewrite decide_False by done. rewrite decide_True by done.
    unfold mbind, M_bind, stack_pop. rewrite Hstack. simpl.
    rewrite length_app. simpl. rewrite Nat.add_1_r. fold n. reflexivity. }
  simpl. split; [heap_len|]. split.
  { rewrite !ids_addTransition, !ids_setAccept, !ids_addTransition.
    by rewrite !fmap_app, <-(assoc_L (++)). }
  split.
  - intros s. heap_obs. simpl. heap_cases.
  - intros s c. heap_obs. simpl. fold n. heap_cases.
Qed.

(** Any other character is a literal. *)
Lemma compile_iter_literal σ char :
  char ≠ [chDot] → char ≠ [chBar] → char ≠ [chStar] →
  let n := length (heap σ) in
  ∃ h',
    compile_iter char σ
    = Normal () (mkCstate h' (S (S (idCounter σ))) (mkNFA n (S n) :: stack σ))
    ∧ length h' = S (S n)
    ∧ id <$> h' = (id <$> heap σ) ++ [idCounter σ; S (idCounter σ)]
    ∧ (∀ s, accepting h' s = accepting (heap σ) s)
    ∧ (∀ s c, succs h' s c
              = succs (heap σ) s c
                ++ (if decide (s = n ∧ c = char) then [S n] else [])).
Proof.
  intros Hdot Hbar Hstar n. eexists. split.
  { unfold compile_iter. rewrite !decide_False by done.
    unfold mbind, M_bind. simpl.
    rewrite length_app. simpl. rewrite Nat.add_1_r. fold n. reflexivity. }
  simpl. split; [heap_len|]. split.
  { rewrite !ids_addTransition. by rewrite !fmap_app, <-(assoc_L (++)). }
  split.
  - intros s. by heap_obs.
  - intros s c. heap_obs. simpl. fold n. heap_cases.
Qed.

(** An operator that finds too few operands throws. *)
Lemma compile_iter_underflow σ char :
  length (stack σ) < arity char → ∃ σ', compile_iter char σ = Throw σ'.
Proof.
  unfold arity, compile_iter. intros Hlen.
  destruct (stack σ) as [|B [|A rest]] eqn:Hstack; simpl in Hlen;
    repeat case_decide; try lia;
    unfold mbind, M_bind, stack_pop; rewrite ?Hstack; simpl; eauto.
Qed.

(** An operator that finds its operands, and any literal, completes. *)
Lemma compile_iter_enough σ char :
  arity char ≤ length (stack σ) → ∃ σ', compile_iter char σ = Normal () σ'.
Proof.
  unfold arity, compile_iter. intros Hlen.
  destruct (stack σ) as [|B [|A rest]] eqn:Hstack; simpl in Hlen;
    repeat case_decide; try lia;
    unfold mbind, M_bind, stack_pop; rewrite ?Hstack; simpl; eauto.
Qed.
End compiler_steps.

(** ** The invariant of the compiler *)

Section invariant.
Implicit Types (σ : cstate) (h : list State) (rest : list NFA) (s : nat) (c : list N).

Lemma reachable_mono h h' :
  extends h h' → ∀ s s', reachable h s s' → reachable h' s s'.
Proof.
  intros Hext s s'. apply rtc_subrel. intros x y [c Hc]. exists c.
  destruct (Hext x c) as [extra ->]. apply elem_of_app. by left.
Qed.

Lemma reachable_edge h s c s' : s' ∈ succs h s c → reachable h s s'.
Proof. intros Hs. apply rtc_once. by exists c. Qed.

Lemma wf_initial : wf initial.
Proof.
  split; simpl; [split| | |]; try done.
  - intros s c s'. unfold succs. by intros ?%elem_of_nil.
  - intros n ?%elem_of_nil. done.
Qed.

(** A step that allocates [k] states, only adds transitions to states of
    the heap, sets no accept flag and replaces operands by a fragment
    whose end is reachable from its start keeps the invariant. *)
Lemma wf_step σ h' k n rest :
  wf σ →
  length h' = k + length (heap σ) →
  id <$> h' = (id <$> heap σ) ++ seq (idCounter σ) k →
  (∀ s, accepting h' s = false) →
  (∀ s c, ∃ extra, succs h' s c = succs (heap σ) s c ++ extra
                   ∧ Forall (λ x, x < length h') extra) →
  (∀ m, m ∈ rest → m ∈ stack σ) →
  start n < length h' → end_ n < length h' →
  reachable h' (start n) (end_ n) →
  wf (mkCstate h' (k + idCounter σ) (n :: rest)).
Proof.
  intros [[Hs Hid] Hcnt Hacc Hstk] Hlen Hids Hacc' Hsuccs Hrest Hstart Hend Hreach.
  split; simpl; [split| | |].
  - intros s c s'. destruct (Hsuccs s c) as (extra & -> & Hextra).
    intros [Hold|Hnew]%elem_of_app.
    + apply Hs in Hold. lia.
    + by apply (proj1 (Forall_forall _ _) Hextra).
  - rewrite Hids, Hid, Hcnt, Hlen, (Nat.add_comm k), seq_app. done.
  - lia.
  - done.
  - intros m [->|Hm]%elem_of_cons; [done|].
    destruct (Hstk m (Hrest m Hm)) as (? & ? & Hr). split_and!; [lia..|].
    eapply reachable_mono; [|done].
    intros s c. destruct (Hsuccs s c) as (extra & ? & _). eauto.
Qed.

Ltac pick := rewrite ?elem_of_app, ?elem_of_cons; by intuition.

Ltac extras :=
  repeat case_decide; simpl;
  repeat first [apply Forall_nil_2 | apply Forall_cons_2; [lia|]].

Lemma wf_compile_iter char σ σ' :
  wf σ → compile_iter char σ = Normal () σ' →
  wf σ' ∧ extends (heap σ) (heap σ').
Proof.
  intros Hwf Hrun.
  destruct (decide (length (stack σ) < arity char)) as [Hlow|Hok].
  { destruct (compile_iter_underflow σ char Hlow) as [? Hthrow]. congruence. }
  pose proof (wf_noaccept _ Hwf) as Hnoacc.
  pose proof (wf_stack _ Hwf) as Hstk.
  unfold arity in Hok.
  destruct (decide (char = [chDot])) as [->|Hdot].
  { destruct (stack σ) as [|B [|A rest]] eqn:Hstack; simpl in Hok; try lia.
    destruct (Hstk A) as (HsA & HeA & HrA); [rewrite !elem_of_cons; auto|].
    destruct (Hstk B) as (HsB & HeB & HrB); [rewrite !elem_of_cons; auto|].
    destruct (compile_iter_dot σ B A rest Hstack HeA)
      as (h' & Heq & Hlen & Hids & Hacc & Hsuccs).
    rewrite Heq in Hrun. injection Hrun as <-.
    assert (Hext : extends (heap σ) h').
    { intros s c. rewrite Hsuccs. eauto. }
    split; [|done].
    apply (wf_step σ h' 0); simpl; try done; try lia.
    - by rewrite app_nil_r.
    - intros s. rewrite Hacc. by case_decide.
    - intros s c. rewrite Hsuccs. eexists; split; [done|]. rewrite Hlen. extras.
    - intros m Hm. rewrite Hstack, !elem_of_cons. auto.
    - etrans; [by eapply reachable_mono|].
      etrans; [|by eapply reachable_mono].
      apply (reachable_edge _ _ epsilon). rewrite Hsuccs.
      rewrite decide_True by done. pick. }
  destruct (decide (char = [chBar])) as [->|Hbar].
  { destruct (stack σ) as [|B [|A rest]] eqn:Hstack; simpl in Hok; try lia.
    destruct (Hstk A) as (HsA & HeA & HrA); [rewrite !elem_of_cons; auto|].
    destruct (Hstk B) as (HsB & HeB & HrB); [rewrite !elem_of_cons; auto|].
    destruct (compile_iter_bar σ B A rest Hstack HeA HeB)
      as (h' & Heq & Hlen & Hids & Hacc & Hsuccs).
    rewrite Heq in Hrun. injection Hrun as <-.
    assert (Hext : extends (heap σ) h').
    { intros s c. rewrite Hsuccs. eauto. }
    split; [|done].
    apply (wf_step σ h' 2); simpl; try done; try lia.
    - intros s. rewrite Hacc. by case_decide.
    - intros s c. rewrite Hsuccs. eexists; split; [done|]. rewrite Hlen. extras.
    - intros m Hm. rewrite Hstack, !elem_of_cons. auto.
    - etrans; [apply (reachable_edge _ _ epsilon (start A))|].
      { rewrite Hsuccs. rewrite (decide_True _ _ (conj eq_refl eq_refl)). pick. }
      etrans; [by eapply reachable_mono|].
      apply (reachable_edge _ _ epsilon). rewrite Hsuccs.
      rewrite (decide_True (P := end_ A = end_ A ∧ _)) by done. pick. }
  destruct (decide (char = [chStar])) as [->|Hstar].
  { destruct (stack σ) as [|A rest] eqn:Hstack; simpl in Hok; try lia.
    destruct (Hstk A) as (HsA & HeA & HrA); [rewrite !elem_of_cons; auto|].
    destruct (compile_iter_star σ A rest Hstack HeA)
      as (h' & Heq & Hlen & Hids & Hacc & Hsuccs).
    rewrite Heq in Hrun. injection Hrun as <-.
    split; [|intros s c; rewrite Hsuccs; eauto].
    apply (wf_step σ h' 2); simpl; try done; try lia.
    - intros s. rewrite Hacc. by case_decide.
    - intros s c. rewrite Hsuccs. eexists; split; [done|]. rewrite Hlen. extras.
    - intros m Hm. rewrite Hstack, !elem_of_cons. auto.
    - apply (reachable_edge _ _ epsilon). rewrite Hsuccs.
      rewrite (decide_True _ _ (conj eq_refl eq_refl)). pick. }
  destruct (compile_iter_literal σ char Hdot Hbar Hstar)
    as (h' & Heq & Hlen & Hids & Hacc & Hsuccs).
  rewrite Heq in Hrun. injection Hrun as <-.
  split; [|intros s c; rewrite Hsuccs; eauto].
  apply (wf_step σ h' 2); simpl; try done; try lia.
  - intros s. by rewrite Hacc.
  - intros s c. rewrite Hsuccs. eexists; split; [done|]. rewrite Hlen. extras.
  - apply (reachable_edge _ _ char). rewrite Hsuccs.
    rewrite (decide_True _ _ (conj eq_refl eq_refl)). pick.
Qed.

Lemma extends_refl h : extends h h.
Proof. intros s c. exists []. by rewrite app_nil_r. Qed.

Lemma extends_trans h1 h2 h3 : extends h1 h2 → extends h2 h3 → extends h1 h3.
Proof.
  intros H12 H23 s c. destruct (H12 s c) as [e1 He1], (H23 s c) as [e2 He2].
  exists (e1 ++ e2). by rewrite He2, He1, (assoc_L (++)).
Qed.

Lemma wf_compile_loop_extends tokens : ∀ σ σ',
  wf σ → compile_loop tokens σ = Normal () σ' →
  wf σ' ∧ extends (heap σ) (heap σ').
Proof.
  induction tokens as [|char tokens IH]; intros σ σ' Hwf; simpl.
  - intros [= <-]. split; [done|apply extends_refl].
  - unfold mbind, M_bind.
    destruct (compile_iter char σ) as [[] σ1|σ1] eqn:Hiter; [|done].
    intros Hloop. destruct (wf_compile_iter _ _ _ Hwf Hiter) as [Hwf1 Hext1].
    destruct (IH _ _ Hwf1 Hloop) as [Hwf' Hext']. split; [done|].
    by eapply extends_trans.
Qed.

Lemma wf_compile_loop tokens σ σ' :
  wf σ → compile_loop tokens σ = Normal () σ' → wf σ'.
Proof. intros Hwf Hloop. by apply (wf_compile_loop_extends tokens σ σ'). Qed.
End invariant.

(** ** The compiler as a whole *)

Section compiler.
Implicit Types (σ : cstate) (pattern : list N) (nfa : NFA) (s : nat).

Lemma compile_loop_app pre post σ :
  compile_loop (pre ++ post) σ
  = match compile_loop pre σ with
    | Normal _ σ1 => compile_loop post σ1
    | Throw σ1 => Throw σ1
    end.
Proof.
  revert σ. induction pre as [|char pre IH]; intros σ; simpl; [done|].
  unfold mbind, M_bind. destruct (compile_iter char σ) as [[] σ1|σ1]; [|done].
  apply IH.
Qed.

(** What [compileRegexToNFA] returns, from the state the loop leaves. *)
Lemma compileRegexToNFA_unfold pattern :
  compileRegexToNFA pattern
  = match compile_loop (codePoints (toPostfix pattern)) initial with
    | Throw σ => Normal None σ
    | Normal _ σ =>
        match stack σ with
        | [] => Normal None σ
        | top :: rest =>
            Normal (Some top)
              (mkCstate (alter (State_setAccept true) (end_ top) (heap σ))
                        (idCounter σ) rest)
        end
    end.
Proof.
  unfold compileRegexToNFA.
  destruct (compile_loop _ _) as [[] σ|σ]; [|done].
  unfold compile_finish, mbind, M_bind, stack_pop.
  by destruct (stack σ) as [|top rest].
Qed.

(** The heap of a returned automaton. *)
Lemma compiled_heap pattern nfa σ' :
  compileRegexToNFA pattern = Normal (Some nfa) σ' →
  heap_ok (heap σ')
  ∧ start nfa < length (heap σ')
  ∧ end_ nfa < length (heap σ')
  ∧ reachable (heap σ') (start nfa) (end_ nfa)
  ∧ ∀ s, accepting (heap σ') s = bool_decide (s = end_ nfa).
Proof.
  rewrite compileRegexToNFA_unfold.
  destruct (compile_loop _ _) as [[] σ|σ] eqn:Hloop; [|done].
  apply wf_compile_loop in Hloop; [|apply wf_initial].
  destruct (stack σ) as [|top rest] eqn:Hstack; [done|].
  intros [= -> <-]. simpl.
  destruct Hloop as [[Hs Hid] Hcnt Hacc Hstk].
  destruct (Hstk nfa) as (Hstart & Hend & Hreach).
  { rewrite Hstack. by left. }
  rewrite length_alter. split_and!; try done.
  - split.
    + intros s c s'. rewrite succs_setAccept, length_alter. apply Hs.
    + by rewrite ids_setAccept, length_alter.
  - eapply reachable_mono; [|done].
    intros s c. exists []. by rewrite succs_setAccept, app_nil_r.
  - intros s. rewrite accepting_setAccept, Hacc.
    case_decide; case_bool_decide; try done; exfalso; intuition.
Qed.
End compiler.

(** ** The simulator *)

Section folds.
Context {A B : Type}.
Implicit Types (F G : option A → B → option A).

Lemma foldl_None F l : (∀ b, F None b = None) → foldl F None l = None.
Proof. intros HF. induction l as [|b l IH]; simpl; [done|]. by rewrite HF. Qed.

Lemma foldl_option_mono F G :
  (∀ b, F None b = None) →
  (∀ a b r, F (Some a) b = Some r → G (Some a) b = Some r) →
  ∀ l acc r, foldl F acc l = Some r → foldl G acc l = Some r.
Proof.
  intros HF HFG. induction l as [|b l IH]; intros acc r; simpl; [done|].
  destruct acc as [a|].
  - destruct (F (Some a) b) as [a'|] eqn:Ha.
    + rewrite (HFG _ _ _ Ha). apply IH.
    + by rewrite foldl_None.
  - by rewrite HF, foldl_None.
Qed.
End folds.

Section simulator.
Context (h : list State) (Hok : heap_ok h).
Implicit Types (s : nat) (set acc cur nexts : list nat) (char : list N).

Local Abbreviation good := (good h).

Lemma good_nil : good [].
Proof. split; constructor. Qed.

Lemma good_length set : good set → length set ≤ length h.
Proof.
  intros [Hnd Hall]. rewrite <-(length_seq (length h) 0).
  apply submseteq_length, NoDup_submseteq; [done|].
  intros x Hx. apply elem_of_seq.
  apply (proj1 (Forall_forall _ _) Hall) in Hx. lia.
Qed.

Lemma good_snoc set s : good set → s ∉ set → s < length h → good (set ++ [s]).
Proof.
  intros [Hnd Hall] Hs Hlt. split.
  - apply NoDup_app. split_and!; [done| |apply NoDup_singleton].
    intros x Hx ->%list_elem_of_singleton. done.
  - apply Forall_app. split; [done|]. by apply Forall_singleton.
Qed.

Lemma succs_valid s c : Forall (λ x, x < length h) (succs h s c).
Proof. apply Forall_forall. intros x. apply (ok_succs _ Hok). Qed.

(** Already-visited states are not expanded again. *)
Lemma addState_visited fuel s set :
  s ∈ set → addState (S fuel) h s set = Some set.
Proof. intros Hs. simpl. by rewrite bool_decide_true. Qed.

Lemma fold_addState_aux fuel :
  (∀ s set, s < length h → good set → length h - length set < fuel →
            ∃ extra, addState fuel h s set = Some (set ++ extra)
                     ∧ good (set ++ extra)) →
  ∀ nexts acc,
    Forall (λ x, x < length h) nexts → good acc →
    length h - length acc < fuel →
    ∃ extra,
      foldl (λ o next, o ≫= addState fuel h next) (Some acc) nexts
      = Some (acc ++ extra)
      ∧ good (acc ++ extra).
Proof.
  intros IH. induction nexts as [|next nexts IHn]; intros acc Hvalid Hacc Hlen.
  { exists []. by rewrite app_nil_r. }
  apply Forall_cons in Hvalid as [Hnext Hvalid]. simpl.
  destruct (IH next acc Hnext Hacc Hlen) as (e1 & -> & Hgood1).
  destruct (IHn (acc ++ e1) Hvalid Hgood1) as (e2 & -> & Hgood2).
  { rewrite length_app. lia. }
  exists (e1 ++ e2). by rewrite (assoc_L (++)).
Qed.

(** The closure terminates: a recursion bound above the number of
    states not yet visited is never exhausted. *)
Lemma addState_total fuel : ∀ s set,
  s < length h → good set → length h - length set < fuel →
  ∃ extra, addState fuel h s set = Some (set ++ extra) ∧ good (set ++ extra).
Proof.
  induction fuel as [|fuel IH]; intros s set Hs Hset Hlen; [lia|].
  simpl. case_bool_decide as Hin.
  { exists []. by rewrite app_nil_r. }
  pose proof (good_snoc set s Hset Hin Hs) as Hset1.
  pose proof (good_length _ Hset1) as Hlen1.
  rewrite length_app in Hlen1; simpl in Hlen1.
  destruct (lookup_lt_is_Some_2 h s Hs) as [st Hst]. rewrite Hst. simpl.
  destruct (transitions st !! epsilon) as [nexts|] eqn:Hnexts.
  - destruct (fold_addState_aux fuel IH nexts (set ++ [s])) as (e & -> & Hgood).
    + pose proof (succs_valid s epsilon) as Hv. unfold succs in Hv.
      by rewrite Hst, Hnexts in Hv.
    + done.
    + rewrite length_app; simpl; lia.
    + exists ([s] ++ e). by rewrite (assoc_L (++)).
  - by exists [s].
Qed.

Lemma simulate_iter_total fuel char : ∀ cur,
  length h < fuel → Forall (λ x, x < length h) cur →
  ∃ next, simulate_iter fuel h cur char = Some next ∧ good next.
Proof.
  intros cur Hfuel. unfold simulate_iter. generalize (@nil nat), good_nil.
  induction cur as [|s cur IH]; intros acc Hacc Hcur; simpl; [by eauto|].
  apply Forall_cons in Hcur as [Hs Hcur].
  destruct (lookup_lt_is_Some_2 h s Hs) as [st Hst]. rewrite Hst. simpl.
  destruct (transitions st !! char) as [nexts|] eqn:Hnexts; [|by apply IH].
  destruct (fold_addState_aux fuel (addState_total fuel) nexts acc)
    as (e & -> & Hgood); [|done|lia|by apply IH].
  pose proof (succs_valid s char) as Hv. unfold succs in Hv.
  by rewrite Hst, Hnexts in Hv.
Qed.

(** Simulation terminates with a result on every input string. *)
Lemma simulate_total fuel nfaObject testString :
  length h < fuel → start nfaObject < length h →
  ∃ activeIds isMatch,
    simulate fuel h nfaObject testString = Some (activeIds, isMatch).
Proof.
  intros Hfuel Hstart. unfold simulate.
  destruct (lookup_lt_is_Some_2 h _ Hstart) as [st Hst].
  case_decide; [rewrite Hst; simpl; by eauto|].
  destruct (addState_total fuel (start nfaObject) [] Hstart good_nil)
    as (cur & -> & Hcur); [simpl; lia|]. simpl.
  assert (Hloop : ∀ chars cur0, good cur0 →
    ∃ cur1, foldl (λ o char, o ≫= λ cur, simulate_iter fuel h cur char)
              (Some cur0) chars = Some cur1 ∧ good cur1).
  { induction chars as [|char chars IH]; intros cur0 Hcur0; simpl; [by eauto|].
    destruct (simulate_iter_total fuel char cur0 Hfuel) as (next & -> & Hnext);
      [apply Hcur0|]. by apply IH. }
  destruct (Hloop (split_units testString) cur Hcur) as (cur1 & -> & [_ Hvalid]).
  simpl.
  destruct (mapM_is_Some_2 (λ s, id <$> h !! s) cur1) as [ids ->].
  { eapply Forall_impl; [done|]. intros s Hs. simpl.
    destruct (lookup_lt_is_Some_2 h s Hs) as [? ->]. by eexists. }
  destruct (mapM_is_Some_2 (λ s, isAccept <$> h !! s) cur1) as [flags ->].
  { eapply Forall_impl; [done|]. intros s Hs. simpl.
    destruct (lookup_lt_is_Some_2 h s Hs) as [? ->]. by eexists. }
  simpl. by eauto.
Qed.
End simulator.

Section fuel.
Context (h : list State).

(** A larger recursion bound does not change a result. *)
Lemma addState_mono fuel : ∀ fuel' s set r,
  fuel ≤ fuel' → addState fuel h s set = Some r → addState fuel' h s set = Some r.
Proof.
  induction fuel as [|fuel IH]; intros fuel' s set r Hle; [done|].
  destruct fuel' as [|fuel']; [lia|]. simpl.
  case_bool_decide; [done|].
  destruct (h !! s) as [st|]; simpl; [|done].
  destruct (transitions st !! epsilon) as [nexts|]; [|done].
  apply foldl_option_mono; [done|]. intros a b r'. simpl. apply IH. lia.
Qed.

Lemma simulate_iter_mono fuel fuel' cur char r :
  fuel ≤ fuel' →
  simulate_iter fuel h cur char = Some r → simulate_iter fuel' h cur char = Some r.
Proof.
  intros Hle. unfold simulate_iter. apply foldl_option_mono; [done|].
  intros a s r'. simpl. destruct (h !! s) as [st|]; simpl; [|done].
  destruct (transitions st !! char) as [nexts|]; [|done].
  apply foldl_option_mono; [done|]. intros ? ? ?. simpl. by apply addState_mono.
Qed.

Lemma simulate_mono fuel fuel' nfaObject testString r :
  fuel ≤ fuel' →
  simulate fuel h nfaObject testString = Some r →
  simulate fuel' h nfaObject testString = Some r.
Proof.
  intros Hle. unfold simulate. case_decide; [done|].
  destruct (addState fuel h _ _) as [cur|] eqn:Hcur; simpl; [|done].
  rewrite (addState_mono _ _ _ _ _ Hle Hcur). simpl.
  destruct (foldl _ (Some cur) _) as [cur1|] eqn:Hloop; simpl; [|done].
  apply (foldl_option_mono _
           (λ o char, o ≫= λ cur, simulate_iter fuel' h cur char)) in Hloop.
  - by rewrite Hloop.
  - done.
  - intros a b r'. simpl. by apply simulate_iter_mono.
Qed.
End fuel.

(** ** Claims about the compiler *)

Section compiler_claims.
Implicit Types (σ : cstate) (pattern : list N) (nfa : NFA) (s : nat) (c : list N).

(** C5: on a Kleene star token the compiler pops one fragment [A],
    creates a fresh start state and a fresh end state, adds exactly the
    four epsilon transitions start to [A.start], start to end, [A.end] to
    [A.start] and [A.end] to end, clears the accept flag of [A.end], and
    pushes the fragment (start, end). *)
Theorem star_pops_one_and_adds_four_epsilon_transitions σ A rest :
  stack σ = A :: rest →
  end_ A < length (heap σ) →
  let n := length (heap σ) in
  ∃ σ',
    compile_iter [chStar] σ = Normal () σ'
    ∧ stack σ' = mkNFA n (S n) :: rest
    ∧ length (heap σ') = S (S n)
    ∧ id <$> heap σ' = (id <$> heap σ) ++ [idCounter σ; S (idCounter σ)]
    ∧ idCounter σ' = S (S (idCounter σ))
    ∧ (∀ c, succs (heap σ') n c = if decide (c = epsilon) then [start A; S n] else [])
    ∧ (∀ c, succs (heap σ') (S n) c = [])
    ∧ (∀ c, succs (heap σ') (end_ A) c
            = succs (heap σ) (end_ A) c
              ++ (if decide (c = epsilon) then [start A; S n] else []))
    ∧ (∀ s c, s < n → s ≠ end_ A → succs (heap σ') s c = succs (heap σ) s c)
    ∧ accepting (heap σ') (end_ A) = false
    ∧ accepting (heap σ') n = false
    ∧ accepting (heap σ') (S n) = false
    ∧ (∀ s, s ≠ end_ A → accepting (heap σ') s = accepting (heap σ) s).
Proof.
  intros Hstack Hend n.
  destruct (compile_iter_star σ A rest Hstack Hend)
    as (h' & Heq & Hlen & Hids & Hacc & Hsuccs).
  assert (Hout : ∀ s c, n ≤ s → succs (heap σ) s c = []).
  { intros s c Hs. unfold succs. by rewrite (proj2 (lookup_ge_None _ _) Hs). }
  assert (Hout' : ∀ s, n ≤ s → accepting (heap σ) s = false).
  { intros s Hs. unfold accepting. by rewrite (proj2 (lookup_ge_None _ _) Hs). }
  eexists. split; [exact Heq|]. simpl. fold n. split_and!; try done.
  - intros c. rewrite Hsuccs, Hout by done. fold n. heap_cases.
  - intros c. rewrite Hsuccs, Hout by (unfold n; lia). fold n. heap_cases.
  - intros c. rewrite Hsuccs. fold n. heap_cases.
  - intros s c Hs Hne. rewrite Hsuccs. fold n. heap_cases.
  - rewrite Hacc. by rewrite decide_True.
  - rewrite Hacc, Hout' by done. by case_decide.
  - rewrite Hacc, Hout' by (unfold n; lia). by case_decide.
  - intros s Hne. rewrite Hacc. by rewrite decide_False.
Qed.

Lemma star_pops_one_and_adds_four_epsilon_transitions_witness :
  (stack after_literal_a = [mkNFA 0 1] ∧ 1 < length (heap after_literal_a))
  ∧ ∃ σ', compile_iter [chStar] after_literal_a = Normal () σ'
          ∧ stack σ' = [mkNFA 2 3]
          ∧ succs (heap σ') 2 epsilon = [0; 3]
          ∧ succs (heap σ') 1 epsilon = [0; 3].
Proof.
  assert (Hstk : stack after_literal_a = [mkNFA 0 1]) by (vm_compute; reflexivity).
  assert (Hlen : 1 < length (heap after_literal_a)) by (vm_compute; lia).
  split; [by split|].
  destruct (star_pops_one_and_adds_four_epsilon_transitions
              after_literal_a (mkNFA 0 1) [] Hstk Hlen)
    as (σ' & Heq & Hstack & _ & _ & _ & Hstart & _ & Hend & _).
  exists σ'. split; [exact Heq|]. split; [exact Hstack|]. split.
  - exact (Hstart epsilon).
  - exact (Hend epsilon).
Defined.

(** C2, as the code has it: [compileRegexToNFA] returns an automaton
    exactly when the postfix stream has been consumed without an operand
    underflow and at least one fragment remains on the stack; the
    automaton is the fragment on top of the stack (the only one, when
    exactly one remains) with its end state marked accepting and nothing
    else changed; with an empty stream, an underflow or an empty stack
    it returns [null]. *)
Theorem compile_returns_top_fragment_marked_accepting pattern :
  (codePoints (toPostfix pattern) = [] →
   compileRegexToNFA pattern = Normal None initial)
  ∧ match compile_loop (codePoints (toPostfix pattern)) initial with
    | Throw σ => compileRegexToNFA pattern = Normal None σ
    | Normal _ σ =>
        match stack σ with
        | [] => compileRegexToNFA pattern = Normal None σ
        | top :: rest =>
            ∃ σ', compileRegexToNFA pattern = Normal (Some top) σ'
                  ∧ stack σ' = rest
                  ∧ accepting (heap σ') (end_ top) = true
                  ∧ (∀ s, s ≠ end_ top →
                          accepting (heap σ') s = accepting (heap σ) s)
                  ∧ (∀ s c, succs (heap σ') s c = succs (heap σ) s c)
                  ∧ id <$> heap σ' = id <$> heap σ
        end
    end.
Proof.
  split.
  { intros Hempty. rewrite compileRegexToNFA_unfold, Hempty. done. }
  pose proof (compiled_heap pattern) as Hheap.
  rewrite compileRegexToNFA_unfold in *.
  destruct (compile_loop _ _) as [[] σ|σ] eqn:Hloop; [|done].
  destruct (stack σ) as [|top rest] eqn:Hstack; [done|].
  eexists. split; [done|]. simpl.
  destruct (Hheap top _ eq_refl) as (_ & _ & _ & _ & Hacc). simpl in Hacc.
  split_and!; try done.
  - rewrite Hacc. by apply bool_decide_true.
  - intros s Hne. rewrite accepting_setAccept.
    rewrite decide_False; [done|]. by intros [? _].
  - intros s c. apply succs_setAccept.
  - apply ids_setAccept.
Qed.

Lemma compile_returns_top_fragment_marked_accepting_witness :
  codePoints (toPostfix (lit "()")) = []
  ∧ compileRegexToNFA (lit "()") = Normal None initial.
Proof.
  assert (Hempty : codePoints (toPostfix (lit "()")) = [])
    by (vm_compute; reflexivity).
  split; [exact Hempty|].
  exact (proj1 (compile_returns_top_fragment_marked_accepting (lit "()")) Hempty).
Defined.

(** C2 as stated fails: for the pattern ["(a"] two fragments remain on
    the stack after the postfix stream ["a("] has been consumed, and
    [compileRegexToNFA] still returns an automaton (the fragment of the
    literal parenthesis). *)
Lemma compile_with_two_fragments_left_returns_automaton :
  ∃ σ σ',
    compile_loop (codePoints (toPostfix (lit "(a"))) initial = Normal () σ
    ∧ stack σ = [mkNFA 2 3; mkNFA 0 1]
    ∧ compileRegexToNFA (lit "(a") = Normal (Some (mkNFA 2 3)) σ'
    ∧ succs (heap σ') 2 [chLParen] = [3]
    ∧ accepting (heap σ') 3 = true.
Proof. eexists _, _. split_and!; vm_compute; reflexivity. Qed.

(** C3: the patterns ["*"], ["|a"] and the empty pattern compile to [null];
    [compileRegexToNFA] never lets an exception out; and whenever an
    operator token finds fewer operands on the stack than it pops, the
    result is [null]. *)
Theorem underflow_and_empty_pattern_return_null :
  (∃ σ, compileRegexToNFA (lit "*") = Normal None σ)
  ∧ (∃ σ, compileRegexToNFA (lit "|a") = Normal None σ)
  ∧ (∃ σ, compileRegexToNFA [] = Normal None σ)
  ∧ (∀ pattern, ∃ r σ, compileRegexToNFA pattern = Normal r σ)
  ∧ (∀ pattern pre op post σ,
       codePoints (toPostfix pattern) = pre ++ op :: post →
       compile_loop pre initial = Normal () σ →
       length (stack σ) < arity op →
       ∃ σ', compileRegexToNFA pattern = Normal None σ').
Proof.
  split_and!.
  - eexists. vm_compute. reflexivity.
  - eexists. vm_compute. reflexivity.
  - eexists. vm_compute. reflexivity.
  - intros pattern. rewrite compileRegexToNFA_unfold.
    destruct (compile_loop _ _) as [[] σ|σ]; [|by eauto].
    destruct (stack σ); by eauto.
  - intros pattern pre op post σ Htokens Hpre Hlow.
    rewrite compileRegexToNFA_unfold, Htokens, compile_loop_app, Hpre. simpl.
    unfold mbind, M_bind.
    destruct (compile_iter_underflow σ op Hlow) as [σ' ->]. by eauto.
Qed.

Lemma underflow_and_empty_pattern_return_null_witness :
  (codePoints (toPostfix (lit "a|")) = [lit "a"] ++ [[chBar]]
   ∧ compile_loop [lit "a"] initial = Normal () after_literal_a
   ∧ length (stack after_literal_a) < arity [chBar])
  ∧ ∃ σ', compileRegexToNFA (lit "a|") = Normal None σ'.
Proof.
  assert (Htokens : codePoints (toPostfix (lit "a|")) = [lit "a"] ++ [[chBar]])
    by (vm_compute; reflexivity).
  assert (Hpre : compile_loop [lit "a"] initial = Normal () after_literal_a)
    by (vm_compute; reflexivity).
  assert (Hlow : length (stack after_literal_a) < arity [chBar])
    by (vm_compute; lia).
  split; [done|].
  destruct underflow_and_empty_pattern_return_null as (_ & _ & _ & _ & Hgen).
  exact (Hgen (lit "a|") [lit "a"] [chBar] [] after_literal_a Htokens Hpre Hlow).
Defined.

(** C9: an automaton returned by [compileRegexToNFA] has exactly one
    accepting state among the states reachable from its start, the end
    state of the returned fragment; no other state of its heap is
    accepting. *)
Theorem returned_automaton_has_one_accepting_state pattern nfa σ :
  compileRegexToNFA pattern = Normal (Some nfa) σ →
  (∀ s, reachable (heap σ) (start nfa) s ∧ accepting (heap σ) s = true
        ↔ s = end_ nfa)
  ∧ (∀ s, accepting (heap σ) s = true ↔ s = end_ nfa).
Proof.
  intros (_ & _ & _ & Hreach & Hacc)%compiled_heap. split.
  - intros s. rewrite Hacc. split.
    + intros [_ Hs]. by apply bool_decide_eq_true in Hs.
    + intros ->. split; [done|]. by apply bool_decide_eq_true.
  - intros s. rewrite Hacc. apply bool_decide_eq_true.
Qed.

Lemma returned_automaton_has_one_accepting_state_witness :
  compileRegexToNFA (lit "a*")
  = Normal (Some (mkNFA 2 3)) (state_of (compileRegexToNFA (lit "a*")))
  ∧ (reachable (heap (state_of (compileRegexToNFA (lit "a*")))) 2 3
     ∧ accepting (heap (state_of (compileRegexToNFA (lit "a*")))) 3 = true).
Proof.
  assert (Hc : compileRegexToNFA (lit "a*")
               = Normal (Some (mkNFA 2 3)) (state_of (compileRegexToNFA (lit "a*"))))
    by (vm_compute; reflexivity).
  split; [exact Hc|].
  exact (proj2 (proj1 (returned_automaton_has_one_accepting_state
                         (lit "a*") (mkNFA 2 3) _ Hc) 3) eq_refl).
Defined.
End compiler_claims.

(** ** Claims about the simulator *)

Section simulator_claims.
Implicit Types (σ : cstate) (pattern testString : list N) (nfa : NFA) (s : nat).

Lemma heap_ok_id h s st : heap_ok h → h !! s = Some st → id st = s.
Proof.
  intros [_ Hid] Hst.
  assert (Hs : (id <$> h) !! s = Some (id st)) by by rewrite list_lookup_fmap, Hst.
  rewrite Hid in Hs. apply lookup_seq in Hs as [-> _]. done.
Qed.

(** C1, as the code has it: for every pattern that compiles, simulating
    the automaton on the empty test string gives the start state alone as
    the active set, whatever its epsilon-closure, and the verdict
    [false]. *)
Theorem empty_test_string_gives_start_state_and_no_match pattern nfa σ :
  compileRegexToNFA pattern = Normal (Some nfa) σ →
  ∀ fuel, simulate fuel (heap σ) nfa [] = Some ([start nfa], false).
Proof.
  intros (Hok & Hstart & _)%compiled_heap fuel. unfold simulate.
  rewrite decide_True by done.
  destruct (lookup_lt_is_Some_2 _ _ Hstart) as [st Hst]. rewrite Hst. simpl.
  by rewrite (heap_ok_id _ _ _ Hok Hst).
Qed.

Lemma empty_test_string_gives_start_state_and_no_match_witness :
  compileRegexToNFA (lit "a*")
  = Normal (Some (mkNFA 2 3)) (state_of (compileRegexToNFA (lit "a*")))
  ∧ simulate 5 (heap (state_of (compileRegexToNFA (lit "a*")))) (mkNFA 2 3) []
    = Some ([2], false).
Proof.
  assert (Hc : compileRegexToNFA (lit "a*")
               = Normal (Some (mkNFA 2 3)) (state_of (compileRegexToNFA (lit "a*"))))
    by (vm_compute; reflexivity).
  split; [exact Hc|].
  exact (empty_test_string_gives_start_state_and_no_match
           (lit "a*") (mkNFA 2 3) _ Hc 5).
Defined.

(** C1 as stated fails: for the pattern ["a*"] the epsilon-closure of
    the start state is [[2; 0; 3]] and contains the accepting state [3],
    yet on the empty test string the active set is [[2]] and the verdict
    is [false]. *)
Lemma star_on_empty_test_string_is_no_match :
  ∃ nfa σ,
    compileRegexToNFA (lit "a*") = Normal (Some nfa) σ
    ∧ addState 5 (heap σ) (start nfa) [] = Some [2; 0; 3]
    ∧ accepting (heap σ) 3 = true
    ∧ simulate 5 (heap σ) nfa [] = Some ([2], false).
Proof. eexists _, _. split_and!; vm_compute; reflexivity. Qed.

(** C4: the automaton of ["(a|b)*abb"] accepts ["abb"], ["aababb"],
    ["bbbabb"] and ["ababb"] and rejects ["ab"], ["abbb"], ["a"] and
    the empty string; state [13] is its only accepting state, and for the non-empty
    strings the final active set contains it exactly for the accepted
    ones. *)
Theorem composite_pattern_accepts_and_rejects :
  ∃ nfa σ,
    compileRegexToNFA (lit "(a|b)*abb") = Normal (Some nfa) σ
    ∧ (∀ s, accepting (heap σ) s = bool_decide (s = 13))
    ∧ ∀ fuel,
        simulate (15 + fuel) (heap σ) nfa (lit "abb")
        = Some ([3; 5; 4; 0; 2; 7; 8; 13], true)
        ∧ simulate (15 + fuel) (heap σ) nfa (lit "aababb")
          = Some ([3; 5; 4; 0; 2; 7; 8; 13], true)
        ∧ simulate (15 + fuel) (heap σ) nfa (lit "bbbabb")
          = Some ([3; 5; 4; 0; 2; 7; 8; 13], true)
        ∧ simulate (15 + fuel) (heap σ) nfa (lit "ababb")
          = Some ([3; 5; 4; 0; 2; 7; 8; 13], true)
        ∧ simulate (15 + fuel) (heap σ) nfa (lit "ab")
          = Some ([3; 5; 4; 0; 2; 7; 8; 11; 12], false)
        ∧ simulate (15 + fuel) (heap σ) nfa (lit "abbb")
          = Some ([3; 5; 4; 0; 2; 7; 8], false)
        ∧ simulate (15 + fuel) (heap σ) nfa (lit "a")
          = Some ([1; 5; 4; 0; 2; 7; 8; 9; 10], false)
        ∧ simulate (15 + fuel) (heap σ) nfa []
          = Some ([6], false).
Proof.
  assert (Hc : compileRegexToNFA (lit "(a|b)*abb")
               = Normal (Some (mkNFA 6 13))
                   (state_of (compileRegexToNFA (lit "(a|b)*abb"))))
    by (vm_compute; reflexivity).
  eexists _, _. split; [exact Hc|]. split.
  { intros s. by destruct (compiled_heap _ _ _ Hc) as (_ & _ & _ & _ & ->). }
  intros fuel.
  split_and!; apply (simulate_mono _ 15); try lia; vm_compute; reflexivity.
Qed.

(** C8: for every automaton of a successful compile and every input
    string, simulation terminates with an active set and a verdict as
    soon as the recursion bound exceeds the number of states; the
    closure never expands a state already in the set, and from any
    state it returns the set it was given extended with new states,
    epsilon cycles or not. *)
Theorem simulation_terminates_on_every_string pattern nfa σ :
  compileRegexToNFA pattern = Normal (Some nfa) σ →
  ∀ fuel, length (heap σ) < fuel →
    (∀ testString, ∃ activeIds isMatch,
        simulate fuel (heap σ) nfa testString = Some (activeIds, isMatch))
    ∧ (∀ s set, s ∈ set → addState fuel (heap σ) s set = Some set)
    ∧ (∀ s set, s < length (heap σ) → good (heap σ) set →
         ∃ extra, addState fuel (heap σ) s set = Some (set ++ extra)
                  ∧ good (heap σ) (set ++ extra)).
Proof.
  intros (Hok & Hstart & _)%compiled_heap fuel Hfuel. split_and!.
  - intros testString. by apply simulate_total.
  - intros s set Hs. destruct fuel as [|fuel]; [lia|]. by apply addState_visited.
  - intros s set Hs Hset. apply addState_total; [done..|lia].
Qed.

Lemma simulation_terminates_on_every_string_witness :
  (compileRegexToNFA (lit "(a*)*")
   = Normal (Some (mkNFA 4 5)) (state_of (compileRegexToNFA (lit "(a*)*")))
   ∧ length (heap (state_of (compileRegexToNFA (lit "(a*)*")))) < 7)
  ∧ ∃ activeIds isMatch,
      simulate 7 (heap (state_of (compileRegexToNFA (lit "(a*)*")))) (mkNFA 4 5)
        (lit "ab") = Some (activeIds, isMatch).
Proof.
  assert (Hc : compileRegexToNFA (lit "(a*)*")
               = Normal (Some (mkNFA 4 5))
                   (state_of (compileRegexToNFA (lit "(a*)*"))))
    by (vm_compute; reflexivity).
  assert (Hlen : length (heap (state_of (compileRegexToNFA (lit "(a*)*")))) < 7)
    by (vm_compute; lia).
  split; [by split|].
  exact (proj1 (simulation_terminates_on_every_string
                  (lit "(a*)*") (mkNFA 4 5) _ Hc 7 Hlen) (lit "ab")).
Defined.
End simulator_claims.

(** ** The character ['ε'] in a pattern *)

Section epsilon_literal.
Implicit Types (σ : cstate) (pattern : list N) (nfa : NFA) (s : nat).
Implicit Types (stack : list (list N)) (output : list N).

Lemma insertConcat_from_elem (u : N) (l : list N) :
  u ∈ l → u ∈ insertConcat_from l.
Proof.
  induction l as [|c1 rest IH]; [done|].
  intros [->|Hin]%elem_of_cons; simpl; [by left|].
  right. destruct rest as [|c2 rest]; [done|].
  destruct (isC1Alphanum c1 && isC2Alphanum c2); [right|]; by apply IH.
Qed.

(** A code unit that is no surrogate is a code point of its own. *)
Lemma codePoints_unit (u : N) :
  isHighSurrogate u = false → isLowSurrogate u = false →
  ∀ n (str : list N), length str ≤ n → u ∈ str → [u] ∈ codePoints str.
Proof.
  intros Hhigh Hlow. induction n as [|n IH]; intros str Hlen Hin.
  { destruct str; [by apply elem_of_nil in Hin|simpl in Hlen; lia]. }
  destruct str as [|x [|y t]]; simpl in *.
  - by apply elem_of_nil in Hin.
  - apply list_elem_of_singleton in Hin as ->. by left.
  - destruct (isHighSurrogate x && isLowSurrogate y) eqn:Hpair.
    + apply andb_true_iff in Hpair as [Hx Hy].
      apply elem_of_cons in Hin as [->|Hin]; [congruence|].
      apply elem_of_cons in Hin as [->|Hin]; [congruence|].
      right. apply IH; [lia|done].
    + apply elem_of_cons in Hin as [->|Hin]; [by left|].
      right. apply (IH (y :: t)); [simpl; lia|done].
Qed.

Lemma popUntilParen_kept stack : ∀ output,
  kept (stack, output) →
  epsilon ∈ tail (popUntilParen stack output).1
  ∨ chEpsilon ∈ (popUntilParen stack output).2.
Proof.
  unfold kept. induction stack as [|top rest IH]; intros output; simpl.
  - intros [?%elem_of_nil|?]; [done|by right].
  - intros Hkept. case_bool_decide as Htop.
    + apply IH. simpl. rewrite elem_of_app.
      destruct Hkept as [[<-|?]%elem_of_cons|?]; auto.
      right. right. by left.
    + simpl. destruct Hkept as [[<-|?]%elem_of_cons|?]; auto.
      discriminate Htop.
Qed.

Lemma popHigher_kept char stack : ∀ output,
  kept (stack, output) → kept (popHigher char stack output).
Proof.
  unfold kept. induction stack as [|top rest IH]; intros output; simpl; [done|].
  intros Hkept. destruct (js_ge _ _); [|done].
  apply IH. simpl. rewrite elem_of_app.
  destruct Hkept as [[<-|?]%elem_of_cons|?]; auto.
  right. right. by left.
Qed.

Lemma toPostfix_iter_kept st char :
  kept st ∨ char = epsilon → kept (toPostfix_iter st char).
Proof.
  destruct st as [stack output]. unfold toPostfix_iter. intros Hkept.
  destruct (testAlnum char) eqn:Halnum.
  { destruct Hkept as [[?|?]| ->]; [by left| |done].
    right. simpl. apply elem_of_app. by left. }
  case_decide as Hl.
  { destruct Hkept as [[?|?]| ->]; [|by right|done]. left. by right. }
  case_decide as Hr.
  { destruct Hkept as [Hkept| ->]; [|done].
    pose proof (popUntilParen_kept stack output Hkept) as Hpop.
    by destruct (popUntilParen stack output). }
  destruct Hkept as [Hkept| ->].
  - pose proof (popHigher_kept char stack output Hkept) as Hpop.
    destruct (popHigher char stack output) as [stack' output'].
    destruct Hpop as [?|?]; [left; by right|by right].
  - destruct (popHigher epsilon stack output). left. by left.
Qed.

Lemma toPostfix_loop_kept tokens : ∀ st,
  kept st ∨ epsilon ∈ tokens → kept (foldl toPostfix_iter st tokens).
Proof.
  induction tokens as [|char tokens IH]; intros st; simpl.
  - intros [?|?%elem_of_nil]; done.
  - intros [Hkept|[<-|Hin]%elem_of_cons]; apply IH; auto.
    + left. apply toPostfix_iter_kept. by left.
    + left. apply toPostfix_iter_kept. by right.
Qed.

(** A pattern that contains ['ε'] has the token ['ε'] in its postfix
    stream. *)
Lemma epsilon_reaches_compiler pattern :
  chEpsilon ∈ pattern → epsilon ∈ codePoints (toPostfix pattern).
Proof.
  intros Hin.
  apply (codePoints_unit chEpsilon eq_refl eq_refl _ _ (le_n _)).
  unfold toPostfix.
  pose proof (toPostfix_loop_kept (codePoints (insertConcat pattern)) ([], [])) as Hk.
  destruct (foldl _ _ _) as [stack output].
  rewrite popAll_join. apply elem_of_app.
  destruct Hk as [Hstack|Hout]; [| |by left].
  - right. apply (codePoints_unit chEpsilon eq_refl eq_refl _ _ (le_n _)).
    rewrite insertConcat_unfold. by apply insertConcat_from_elem.
  - right. apply list_elem_of_join. exists epsilon. split; [by left|done].
Qed.

(** What a closure returns holds the set it was given, the state it was
    called on and every state added on the way. *)
Lemma fold_addState_grows (add : nat → list nat → option (list nat)) :
  (∀ s set r, add s set = Some r → (∃ extra, r = set ++ extra) ∧ s ∈ r) →
  ∀ nexts set r,
    foldl (λ o next, o ≫= add next) (Some set) nexts = Some r →
    (∃ extra, r = set ++ extra) ∧ ∀ x, x ∈ nexts → x ∈ r.
Proof.
  intros Hadd. induction nexts as [|next nexts IH]; intros set r; simpl.
  { intros [= <-]. split; [exists []; by rewrite app_nil_r|].
    by intros x ?%elem_of_nil. }
  destruct (add next set) as [set1|] eqn:Hnext; [|by rewrite foldl_None].
  intros Hfold. destruct (Hadd _ _ _ Hnext) as [[e1 ->] Hin1].
  destruct (IH _ _ Hfold) as [[e2 ->] Hin2]. split.
  - exists (e1 ++ e2). by rewrite (assoc_L (++)).
  - intros x [->|Hx]%elem_of_cons; [|by apply Hin2].
    apply elem_of_app. by left.
Qed.

Lemma addState_grows (h : list State) fuel : ∀ s (set r : list nat),
  addState fuel h s set = Some r → (∃ extra, r = set ++ extra) ∧ s ∈ r.
Proof.
  induction fuel as [|fuel IH]; intros s set r; simpl; [done|].
  case_bool_decide as Hin.
  { intros [= <-]. split; [exists []; by rewrite app_nil_r|done]. }
  destruct (h !! s) as [st|]; simpl; [|done].
  destruct (transitions st !! epsilon) as [nexts|].
  - intros [[e ->] _]%(fold_addState_grows _ IH). split.
    + exists ([s] ++ e). by rewrite (assoc_L (++)).
    + rewrite !elem_of_app, list_elem_of_singleton. auto.
  - intros [= <-]. split; [by eexists|].
    rewrite elem_of_app, list_elem_of_singleton. auto.
Qed.

(** The closure of a state holds its successors on the label ['ε']. *)
Lemma closure_follows_epsilon (h : list State) fuel s s' (closure : list nat) :
  s' ∈ succs h s epsilon →
  addState fuel h s [] = Some closure → s' ∈ closure.
Proof.
  unfold succs. destruct fuel as [|fuel]; simpl; [done|].
  destruct (h !! s) as [st|]; simpl; [|by intros ?%elem_of_nil].
  destruct (transitions st !! epsilon) as [nexts|]; simpl;
    [|by intros ?%elem_of_nil].
  intros Hin [_ Hall]%(fold_addState_grows _ (addState_grows h fuel)). auto.
Qed.

Lemma compile_loop_cons char tokens σ :
  compile_loop (char :: tokens) σ
  = match compile_iter char σ with
    | Normal _ σ1 => compile_loop tokens σ1
    | Throw σ1 => Throw σ1
    end.
Proof. done. Qed.

(** C10, as the code has it: for any pattern that contains ['ε'] and
    compiles, the literal branch of the compiler handles the token ['ε']
    and joins two fresh states by a transition whose label is the
    epsilon label, and in the returned automaton every closure computed
    from the first of them holds the second without any input consumed;
    for the pattern ["ε"] the closure of the start state holds the
    accepting end state. *)
Theorem epsilon_character_compiles_to_epsilon_transition :
  (∀ pattern nfa σ,
     chEpsilon ∈ pattern →
     compileRegexToNFA pattern = Normal (Some nfa) σ →
     ∃ pre post σ0 σ1,
       codePoints (toPostfix pattern) = pre ++ epsilon :: post
       ∧ compile_loop pre initial = Normal () σ0
       ∧ compile_iter epsilon σ0 = Normal () σ1
       ∧ let s := length (heap σ0) in
         stack σ1 = mkNFA s (S s) :: stack σ0
         ∧ succs (heap σ1) s epsilon = [S s]
         ∧ S s ∈ succs (heap σ) s epsilon
         ∧ ∀ fuel closure,
             addState fuel (heap σ) s [] = Some closure → S s ∈ closure)
  ∧ (∃ σ, compileRegexToNFA [chEpsilon] = Normal (Some (mkNFA 0 1)) σ
          ∧ accepting (heap σ) 1 = true
          ∧ ∀ fuel, addState (2 + fuel) (heap σ) 0 [] = Some [0; 1]).
Proof.
  split.
  - intros pattern nfa σ Hin Hc. rewrite compileRegexToNFA_unfold in Hc.
    destruct (compile_loop _ _) as [[] σl|σl] eqn:Hloop; [|done].
    destruct (stack σl) as [|top rest] eqn:Hstack; [done|].
    injection Hc as -> <-. simpl.
    destruct (list_elem_of_split _ _ (epsilon_reaches_compiler pattern Hin))
      as (pre & post & Htokens).
    rewrite Htokens, compile_loop_app in Hloop.
    destruct (compile_loop pre initial) as [[] σ0|σ0] eqn:Hpre; [|done].
    rewrite compile_loop_cons in Hloop.
    destruct (compile_iter_literal σ0 epsilon) as (h' & Heq & _ & _ & _ & Hsuccs);
      [done..|].
    rewrite Heq in Hloop.
    pose proof (wf_compile_loop _ _ _ wf_initial Hpre) as Hwf0.
    destruct (wf_compile_iter _ _ _ Hwf0 Heq) as [Hwf1 _].
    destruct (wf_compile_loop_extends _ _ _ Hwf1 Hloop) as [_ Hext].
    simpl in Hext.
    assert (Hnew : succs h' (length (heap σ0)) epsilon = [S (length (heap σ0))]).
    { rewrite Hsuccs. unfold succs at 1.
      rewrite (proj2 (lookup_ge_None _ _) (le_n _)). by rewrite decide_True. }
    assert (Hfinal : S (length (heap σ0))
                     ∈ succs (alter (State_setAccept true) (end_ nfa) (heap σl))
                         (length (heap σ0)) epsilon).
    { rewrite succs_setAccept. destruct (Hext (length (heap σ0)) epsilon) as [e ->].
      rewrite Hnew. by left. }
    eexists pre, post, σ0, _. split_and!; try done.
    intros fuel closure. by apply closure_follows_epsilon.
  - eexists. split; [vm_compute; reflexivity|]. split; [vm_compute; reflexivity|].
    intros fuel. apply (addState_mono _ 2); [lia|]. vm_compute. reflexivity.
Qed.

Lemma epsilon_character_compiles_to_epsilon_transition_witness :
  (chEpsilon ∈ [chEpsilon]
   ∧ compileRegexToNFA [chEpsilon]
     = Normal (Some (mkNFA 0 1)) (state_of (compileRegexToNFA [chEpsilon])))
  ∧ ∃ pre post σ0 σ1,
      codePoints (toPostfix [chEpsilon]) = pre ++ epsilon :: post
      ∧ compile_loop pre initial = Normal () σ0
      ∧ compile_iter epsilon σ0 = Normal () σ1.
Proof.
  assert (Hin : chEpsilon ∈ [chEpsilon]) by (apply list_elem_of_singleton; reflexivity).
  assert (Hc : compileRegexToNFA [chEpsilon]
               = Normal (Some (mkNFA 0 1)) (state_of (compileRegexToNFA [chEpsilon])))
    by (vm_compute; reflexivity).
  split; [by split|].
  destruct (proj1 epsilon_character_compiles_to_epsilon_transition
              [chEpsilon] (mkNFA 0 1) _ Hin Hc)
    as (pre & post & σ0 & σ1 & Htokens & Hpre & Hiter & _).
  exists pre, post, σ0, σ1. split; [exact Htokens|]. split; [exact Hpre|exact Hiter].
Defined.

(** C10 as stated fails: the pattern ["*|ε"] contains ['ε'], but its
    postfix stream ["*ε|"] makes the star underflow first; the compiler
    returns [null] having created two states and no transition. *)
Lemma epsilon_after_underflow_creates_no_transition :
  chEpsilon ∈ [chStar; chBar; chEpsilon]
  ∧ toPostfix [chStar; chBar; chEpsilon] = [chStar; chEpsilon; chBar]
  ∧ ∃ σ, compileRegexToNFA [chStar; chBar; chEpsilon] = Normal None σ
         ∧ heap σ = [mkState 0 ∅ false; mkState 1 ∅ false].
Proof.
  split; [rewrite !elem_of_cons; auto|].
  split; [vm_compute; reflexivity|].
  eexists. split; vm_compute; reflexivity.
Qed.
End epsilon_literal.

(** ** The bit converter *)

Section bit_converter.
Implicit Types (val t digits b : list N) (u : N) (p : positive).

Lemma pos_bits_acc p : ∀ acc, pos_bits p acc = pos_bits p [] ++ acc.
Proof.
  induction p as [p IH|p IH|]; intros acc; simpl; [| |done].
  - by rewrite (IH (ch1 :: acc)), (IH [ch1]), <-(assoc_L (++)).
  - by rewrite (IH (ch0 :: acc)), (IH [ch0]), <-(assoc_L (++)).
Qed.

Lemma bits_value_snoc digits u :
  bits_value (digits ++ [u]) = (2 * bits_value digits + (u - ch0))%N.
Proof. unfold bits_value. by rewrite foldl_snoc. Qed.

Lemma bits_value_pos_bits p : bits_value (pos_bits p []) = Npos p.
Proof.
  induction p as [p IH|p IH|]; simpl; [| |done].
  - rewrite pos_bits_acc, bits_value_snoc, IH. unfold ch1, ch0. lia.
  - rewrite pos_bits_acc, bits_value_snoc, IH. unfold ch0. lia.
Qed.

Lemma bits_value_toString2 u : bits_value (toString2 u) = u.
Proof. destruct u as [|p]; [done|apply bits_value_pos_bits]. Qed.

Lemma bits_value_zeros k digits :
  bits_value (replicate k ch0 ++ digits) = bits_value digits.
Proof.
  unfold bits_value. rewrite foldl_app.
  replace (foldl _ 0%N (replicate k ch0)) with 0%N; [done|].
  induction k as [|k IH]; simpl; [done|]. exact IH.
Qed.

Lemma pos_bits_isBit p : ∀ acc,
  Forall (λ u, isBit u = true) acc → Forall (λ u, isBit u = true) (pos_bits p acc).
Proof.
  induction p as [p IH|p IH|]; intros acc Hacc; simpl.
  - apply IH. by constructor.
  - apply IH. by constructor.
  - by constructor.
Qed.

Lemma toString2_isBit u : Forall (λ u, isBit u = true) (toString2 u).
Proof.
  destruct u as [|p]; simpl; [by repeat constructor|].
  apply pos_bits_isBit. constructor.
Qed.

Lemma length_pos_bits p : length (pos_bits p []) = Pos.size_nat p.
Proof.
  induction p as [p IH|p IH|]; simpl; [| |done];
    rewrite pos_bits_acc, length_app, IH; simpl; lia.
Qed.

Lemma size_nat_bound p : ∀ k, Pos.size_nat p ≤ k ↔ (Npos p < 2 ^ N.of_nat k)%N.
Proof.
  induction p as [p IH|p IH|]; intros [|k]; simpl Pos.size_nat.
  - split; [lia|]. simpl. lia.
  - rewrite Nat2N.inj_succ, N.pow_succ_r'. specialize (IH k). lia.
  - split; [lia|]. simpl. lia.
  - rewrite Nat2N.inj_succ, N.pow_succ_r'. specialize (IH k). lia.
  - split; [lia|]. simpl. lia.
  - rewrite Nat2N.inj_succ, N.pow_succ_r'.
    pose proof (N.pow_nonzero 2 (N.of_nat k)). lia.
Qed.

(** A code unit prints in at most eight binary digits exactly when it is
    below 256. *)
Lemma length_toString2 u : length (toString2 u) ≤ 8 ↔ (u < 256)%N.
Proof.
  destruct u as [|p]; simpl; [split; [lia|intros _; lia]|].
  rewrite length_pos_bits. apply (size_nat_bound p 8).
Qed.

Lemma length_padStart k u s : length (padStart k u s) = max k (length s).
Proof. unfold padStart. rewrite length_app, length_replicate. lia. Qed.

Lemma padStart_isBit u :
  Forall (λ u, isBit u = true) (padStart 8 ch0 (toString2 u)).
Proof.
  unfold padStart. apply Forall_app. split; [|apply toString2_isBit].
  by apply Forall_replicate.
Qed.

Lemma takeWhile_all {A} (f : A → bool) (l : list A) :
  Forall (λ x, f x = true) l → takeWhile f l = l.
Proof. induction 1 as [|x l Hx _ IH]; simpl; [done|]. by rewrite Hx, IH. Qed.

Lemma parseInt2_bits digits :
  digits ≠ [] → Forall (λ u, isBit u = true) digits →
  parseInt2 digits = Some (bits_value digits).
Proof.
  intros Hne Hbits. unfold parseInt2. rewrite takeWhile_all by done.
  by destruct digits.
Qed.

(** Decoding the eight digits of a code unit below 256 gives it back. *)
Lemma fromCharCode_charToBits u :
  (u < 256)%N → fromCharCode (parseInt2 (charToBits [u])) = [u].
Proof.
  intros Hu. simpl. rewrite parseInt2_bits.
  - unfold padStart, fromCharCode. rewrite bits_value_zeros, bits_value_toString2.
    simpl. f_equal. apply N.mod_small. lia.
  - intros Hnil. apply (f_equal length) in Hnil.
    rewrite length_padStart in Hnil. simpl in Hnil. lia.
  - apply padStart_isBit.
Qed.

Lemma filter_all {A} (P : A → Prop) `{∀ x, Decision (P x)} (l : list A) :
  Forall P l → filter P l = l.
Proof.
  induction 1 as [|x l Hx _ IH]; [done|]. by rewrite filter_cons_True, IH.
Qed.

Lemma chunks8_nil fuel : chunks8 fuel [] = [].
Proof. by destruct fuel. Qed.

Lemma chunks8_nonempty fuel (s : list N) :
  s ≠ [] → chunks8 (S fuel) s = take 8 s :: chunks8 fuel (drop 8 s).
Proof. by destruct s. Qed.

(** The matches of [/.{1,8}/g] in a concatenation of groups of eight. *)
Lemma chunks8_join (groups : list (list N)) : ∀ fuel rest,
  Forall (λ g, length g = 8) groups → length groups + length rest ≤ fuel →
  chunks8 fuel (mjoin groups ++ rest) = groups ++ chunks8 (fuel - length groups) rest.
Proof.
  induction groups as [|g groups IH]; intros fuel rest Hall Hfuel.
  { simpl. by rewrite Nat.sub_0_r. }
  apply Forall_cons in Hall as [Hg Hall].
  destruct fuel as [|fuel]; [simpl in Hfuel; lia|].
  cbn [mjoin list_join length]. rewrite <-(assoc_L (++)).
  rewrite chunks8_nonempty.
  - rewrite (take_app_length' g) by done. rewrite (drop_app_length' g) by done.
    simpl. f_equal. apply IH; [done|simpl in Hfuel; lia].
  - intros Hnil. apply (f_equal length) in Hnil.
    rewrite length_app in Hnil. simpl in Hnil. lia.
Qed.

Lemma length_chunks8 : ∀ fuel s,
  length s ≤ fuel → length (chunks8 fuel s) = (length s + 7) / 8.
Proof.
  induction fuel as [|fuel IH]; intros s Hfuel.
  { destruct s; simpl in *; [done|lia]. }
  destruct (decide (s = [])) as [->|Hne]; [done|].
  assert (1 ≤ length s) by (destruct s; simpl; [done|lia]).
  rewrite chunks8_nonempty by done. cbn [length].
  rewrite IH by (rewrite length_drop; lia). rewrite length_drop.
  generalize dependent (length s). intros n _ Hn.
  destruct (decide (n ≤ 8)) as [Hle|Hgt].
  - assert ((n + 7) / 8 = 1)
      by (symmetry; apply (Nat.div_unique _ 8 1 (n - 1)); lia).
    assert ((n - 8 + 7) / 8 = 0) by (apply Nat.div_small; lia).
    lia.
  - assert ((n + 7) / 8 = (n - 8 + 7) / 8 + 1)
      by (replace (n + 7) with ((n - 8 + 7) + 1 * 8) by lia;
          apply Nat.div_add; lia).
    lia.
Qed.

Lemma elem_of_take_drop {A} (x : A) n (l : list A) :
  x ∈ take n l ∨ x ∈ drop n l → x ∈ l.
Proof. intros Hx. rewrite <-(take_drop n l). by apply elem_of_app. Qed.

Lemma chunks8_shape : ∀ fuel s,
  Forall (λ g, g ≠ [] ∧ length g ≤ 8 ∧ ∀ u, u ∈ g → u ∈ s) (chunks8 fuel s).
Proof.
  induction fuel as [|fuel IH]; intros s; simpl; [constructor|].
  destruct s as [|x s]; [constructor|]. constructor.
  - split_and!; [done|rewrite length_take; lia|].
    intros u Hu. apply (elem_of_take_drop u 8). by left.
  - eapply Forall_impl; [apply IH|]. intros g (? & ? & Hin). split_and!; [done..|].
    intros u Hu. apply (elem_of_take_drop u 8). right. by apply Hin.
Qed.

Lemma mjoin_chunks8 : ∀ fuel s, length s ≤ fuel → mjoin (chunks8 fuel s) = s.
Proof.
  induction fuel as [|fuel IH]; intros s Hfuel.
  { destruct s; simpl in *; [done|lia]. }
  destruct s as [|x s]; [done|].
  cbn [chunks8 mjoin list_join]. rewrite IH by (rewrite length_drop; simpl in *; lia).
  apply take_drop.
Qed.

Lemma binary_onTextChange_cons u t :
  binary (onTextChange (u :: t))
  = padStart 8 ch0 (toString2 u) ++ binary (onTextChange t).
Proof. done. Qed.

Lemma binary_onTextChange_isBit t :
  Forall (λ u, isBit u = true) (binary (onTextChange t)).
Proof.
  induction t as [|u t IH]; [constructor|].
  rewrite binary_onTextChange_cons.
  apply Forall_app. split; [apply padStart_isBit|exact IH].
Qed.

Lemma length_binary_onTextChange t :
  8 * length t ≤ length (binary (onTextChange t))
  ∧ (Forall (λ u, (u < 256)%N) t ↔ length (binary (onTextChange t)) = 8 * length t).
Proof.
  induction t as [|u t [IHle IHeq]].
  { split; [simpl; lia|]. split; [done|constructor]. }
  rewrite binary_onTextChange_cons, length_app, length_padStart.
  change (length (u :: t)) with (S (length t)).
  pose proof (length_toString2 u) as Hu. split; [lia|].
  rewrite Forall_cons. split.
  - intros [Hlt Hall]. apply IHeq in Hall. apply Hu in Hlt. lia.
  - intros Hlen. split; [apply Hu; lia|apply IHeq; lia].
Qed.

Lemma mjoin_cons {A} (x : list A) (ls : list (list A)) :
  mjoin (x :: ls) = x ++ mjoin ls.
Proof. done. Qed.

Lemma map_cons {A B} (f : A → B) (x : A) (l : list A) :
  f <$> x :: l = f x :: (f <$> l).
Proof. done. Qed.

Lemma decode_groups t :
  Forall (λ u, (u < 256)%N) t →
  mjoin ((λ b, fromCharCode (parseInt2 b)) <$> (charToBits <$> split_units t)) = t.
Proof.
  induction 1 as [|u t Hu _ IH]; [done|].
  unfold split_units in *. rewrite !map_cons, mjoin_cons, IH.
  by rewrite fromCharCode_charToBits.
Qed.

Lemma clean_bits digits :
  Forall (λ u, isBit u = true) digits → filter (λ u, isBit u) digits = digits.
Proof.
  induction 1 as [|u l Hu _ IH]; [done|].
  rewrite filter_cons_True by by rewrite Hu. by rewrite IH.
Qed.

Lemma text_onBinaryChange val :
  text (onBinaryChange val)
  = mjoin ((λ b, fromCharCode (parseInt2 b))
           <$> match_1_8 (filter (λ u, isBit u) val)).
Proof. done. Qed.

(** Every group of digits decodes to one code unit. *)
Lemma length_text_onBinaryChange val :
  length (text (onBinaryChange val))
  = (length (filter (λ u, isBit u) val) + 7) / 8.
Proof.
  rewrite text_onBinaryChange. unfold match_1_8.
  rewrite <-(length_chunks8 (length (filter (λ u, isBit u) val))) by done.
  generalize (chunks8 (length (filter (λ u, isBit u) val))
                (filter (λ u, isBit u) val)).
  intros groups. induction groups as [|g groups IH]; [done|].
  cbn [fmap list_fmap mjoin list_join length]. rewrite length_app. simpl.
  by f_equal.
Qed.

(** X1: a text goes through [onTextChange] and [onBinaryChange] and comes
    back unchanged exactly when all its code units are below 256. *)
Theorem text_binary_text_round_trip t :
  text (onBinaryChange (binary (onTextChange t))) = t
  ↔ Forall (λ u, (u < 256)%N) t.
Proof.
  destruct (length_binary_onTextChange t) as [Hle Hiff].
  pose proof (binary_onTextChange_isBit t) as Hbits.
  split.
  - intros Heq. apply (f_equal length) in Heq.
    rewrite length_text_onBinaryChange, (clean_bits _ Hbits) in Heq.
    apply Hiff.
    destruct (decide (length (binary (onTextChange t)) = 8 * length t))
      as [?|Hne]; [done|exfalso].
    assert ((length t + 1) * 8 / 8 ≤ (length (binary (onTextChange t)) + 7) / 8)
      as Hdiv by (apply Nat.Div0.div_le_mono; lia).
    rewrite Nat.div_mul in Hdiv by lia. lia.
  - intros Hall. rewrite text_onBinaryChange, (clean_bits _ Hbits).
    unfold match_1_8.
    assert (Hgroups : binary (onTextChange t)
                      = mjoin (charToBits <$> split_units t) ++ []).
    { by rewrite app_nil_r. }
    rewrite Hgroups at 2. rewrite chunks8_join.
    + rewrite chunks8_nil, app_nil_r. by apply decode_groups.
    + unfold split_units. rewrite <-list_fmap_compose.
      apply Forall_fmap, Forall_forall. intros u Hu. simpl.
      rewrite length_padStart.
      apply (proj1 (Forall_forall _ _) Hall), length_toString2 in Hu. lia.
    + unfold split_units. rewrite !length_fmap. cbn [length]. lia.
Qed.

Lemma isBit_cases u : isBit u = true → u = ch0 ∨ u = ch1.
Proof.
  unfold isBit. intros [H|H]%orb_true_iff; apply N.eqb_eq in H; auto.
Qed.

Lemma toString2_double_bit p u :
  isBit u = true →
  toString2 (2 * Npos p + (u - ch0)) = toString2 (Npos p) ++ [u].
Proof.
  intros [->| ->]%isBit_cases; simpl; by rewrite pos_bits_acc.
Qed.

Lemma toString2_bit u : isBit u = true → toString2 (u - ch0) = [u].
Proof. by intros [->| ->]%isBit_cases. Qed.

Lemma replicate_snoc {A} k (x : A) : replicate k x ++ [x] = replicate (S k) x.
Proof. induction k as [|k IH]; simpl; [done|]. by rewrite IH. Qed.

(** Printing the value of a string of binary digits gives the string
    back, up to its leading zeros. *)
Lemma toString2_bits_value digits :
  digits ≠ [] → Forall (λ u, isBit u = true) digits →
  padStart (length digits) ch0 (toString2 (bits_value digits)) = digits.
Proof.
  induction digits as [|u g IH] using rev_ind; [done|]. intros _ Hbits.
  apply Forall_app in Hbits as [Hg Hu]. rewrite Forall_singleton in Hu.
  rewrite bits_value_snoc, length_app. cbn [length].
  destruct (decide (g = [])) as [->|Hne].
  { replace (2 * bits_value [] + (u - ch0))%N with (u - ch0)%N by done.
    by rewrite toString2_bit. }
  specialize (IH Hne Hg). unfold padStart in *.
  assert (1 ≤ length g) by (destruct g; simpl; [done|lia]).
  destruct (bits_value g) as [|p] eqn:Hval.
  - replace (2 * 0 + (u - ch0))%N with (u - ch0)%N by done.
    rewrite toString2_bit by done. cbn [length].
    change (toString2 0) with [ch0] in IH. cbn [length] in IH.
    rewrite replicate_snoc in IH.
    replace (S (length g - 1)) with (length g) in IH by lia.
    replace (length g + 1 - 1) with (length g) by lia.
    by rewrite IH.
  - rewrite toString2_double_bit by done. rewrite length_app. cbn [length].
    replace (length g + 1 - (length (toString2 (N.pos p)) + 1))
      with (length g - length (toString2 (N.pos p))) by lia.
    by rewrite (assoc_L (++)), IH.
Qed.

Lemma padStart_shorter digits s k :
  padStart (length digits) ch0 s = digits → length digits ≤ k →
  padStart k ch0 s = padStart k ch0 digits.
Proof.
  unfold padStart. intros Heq Hk.
  assert (length s ≤ length digits).
  { apply (f_equal length) in Heq. rewrite length_app, length_replicate in Heq. lia. }
  set (d := length digits) in *. rewrite <-Heq.
  rewrite (assoc_L (++)), <-replicate_add. do 2 f_equal. lia.
Qed.

(** What [onBinaryChange] decodes from one group of digits, encoded
    again, is the group padded to eight digits. *)
Lemma charToBits_fromCharCode g :
  g ≠ [] → length g ≤ 8 → Forall (λ u, isBit u = true) g →
  charToBits (fromCharCode (parseInt2 g)) = padStart 8 ch0 g.
Proof.
  intros Hne Hlen Hbits. rewrite parseInt2_bits by done.
  pose proof (toString2_bits_value g Hne Hbits) as Hprint.
  assert (Hsmall : (bits_value g < 256)%N).
  { apply length_toString2. apply (f_equal length) in Hprint.
    rewrite length_padStart in Hprint. lia. }
  unfold fromCharCode, charToBits. simpl.
  rewrite N.mod_small by lia. by apply padStart_shorter.
Qed.

Lemma clean_groups val :
  Forall (λ g, g ≠ [] ∧ length g ≤ 8 ∧ Forall (λ u, isBit u = true) g)
    (match_1_8 (filter (λ u, isBit u) val)).
Proof.
  eapply Forall_impl; [apply chunks8_shape|].
  intros g (Hne & Hlen & Hin). split_and!; [done..|].
  apply Forall_forall. intros u Hu. apply Hin, list_elem_of_filter in Hu as [Hu _].
  by apply Is_true_true.
Qed.

(** X2: decoding a binary input and encoding the text again gives the
    binary digits of the input, each group of eight kept and a shorter
    last group padded with zeros on the left; when the number of digits
    is a multiple of eight the digits come back unchanged. *)
Theorem binary_text_binary_round_trip val :
  binary (onTextChange (text (onBinaryChange val)))
  = mjoin (padStart 8 ch0 <$> match_1_8 (filter (λ u, isBit u) val))
  ∧ (length (filter (λ u, isBit u) val) `mod` 8 = 0 →
     binary (onTextChange (text (onBinaryChange val)))
     = filter (λ u, isBit u) val).
Proof.
  assert (Hgen : binary (onTextChange (text (onBinaryChange val)))
                 = mjoin (padStart 8 ch0 <$> match_1_8 (filter (λ u, isBit u) val))).
  { rewrite text_onBinaryChange.
    pose proof (clean_groups val) as Hgroups.
    induction Hgroups as [|g groups (Hne & Hlen & Hbits) _ IH]; [done|].
    rewrite !map_cons, !mjoin_cons. unfold fromCharCode at 1. simpl app.
    rewrite binary_onTextChange_cons. rewrite IH. f_equal.
    pose proof (charToBits_fromCharCode g Hne Hlen Hbits) as Hg.
    unfold fromCharCode, charToBits in Hg. exact Hg. }
  split; [exact Hgen|]. intros Hmod. rewrite Hgen.
  apply Nat.Div0.div_exact in Hmod.
  set (clean := filter (λ u, isBit u) val) in *.
  assert (Hfull : ∀ fuel s k, length s = 8 * k → length s ≤ fuel →
            mjoin (padStart 8 ch0 <$> chunks8 fuel s) = s).
  { clear. induction fuel as [|fuel IH]; intros s k Hk Hfuel.
    { destruct s; simpl in *; [done|lia]. }
    destruct (decide (s = [])) as [->|Hne]; [done|].
    assert (1 ≤ k) by (destruct s, k; simpl in *; try done; lia).
    rewrite chunks8_nonempty, map_cons, mjoin_cons by done.
    rewrite (IH _ (k - 1)) by (rewrite length_drop; lia).
    unfold padStart. rewrite length_take_le by lia. simpl.
    apply take_drop. }
  by apply (Hfull _ _ (length clean `div` 8)).
Qed.

Lemma binary_text_binary_round_trip_witness :
  length (filter (λ u, isBit u) (lit "0100 1000")) `mod` 8 = 0
  ∧ binary (onTextChange (text (onBinaryChange (lit "0100 1000"))))
    = lit "01001000".
Proof.
  assert (Hmod : length (filter (λ u, isBit u) (lit "0100 1000")) `mod` 8 = 0)
    by (vm_compute; reflexivity).
  split; [exact Hmod|].
  exact (proj2 (binary_text_binary_round_trip (lit "0100 1000")) Hmod).
Defined.

(** X3: characters other than the two binary digits (spaces, line breaks,
    letters) anywhere in the binary input do not change the decoded
    text. *)
Theorem onBinaryChange_skips_other_characters (a other b : list N) :
  Forall (λ u, isBit u = false) other →
  text (onBinaryChange (a ++ other ++ b)) = text (onBinaryChange (a ++ b)).
Proof.
  intros Hother. rewrite !text_onBinaryChange, !filter_app.
  replace (filter (λ u, isBit u) other) with (@nil N); [done|].
  symmetry. induction Hother as [|u l Hu _ IH]; [done|].
  rewrite filter_cons_False; [exact IH|]. rewrite Hu. by intros [].
Qed.

Lemma onBinaryChange_skips_other_characters_witness :
  Forall (λ u, isBit u = false) (lit " - ")
  ∧ text (onBinaryChange (lit "0100" ++ lit " - " ++ lit "1000"))
    = text (onBinaryChange (lit "0100" ++ lit "1000")).
Proof.
  assert (Hother : Forall (λ u, isBit u = false) (lit " - "))
    by (repeat constructor).
  split; [exact Hother|].
  exact (onBinaryChange_skips_other_characters (lit "0100") (lit " - ") (lit "1000") Hother).
Defined.

(** X4: the decoded text has one code unit for every started group of
    eight binary digits of the input, and every code unit of it is below
    256. *)
Theorem onBinaryChange_decodes_one_byte_per_group val :
  length (text (onBinaryChange val))
  = (length (filter (λ u, isBit u) val) + 7) / 8
  ∧ Forall (λ u, (u < 256)%N) (text (onBinaryChange val)).
Proof.
  split; [apply length_text_onBinaryChange|].
  rewrite text_onBinaryChange.
  pose proof (clean_groups val) as Hgroups.
  induction Hgroups as [|g groups (Hne & Hlen & Hbits) _ IH]; [constructor|].
  rewrite map_cons, mjoin_cons. apply Forall_app. split; [|exact IH].
  rewrite parseInt2_bits by done. apply Forall_singleton. simpl.
  pose proof (toString2_bits_value g Hne Hbits) as Hprint.
  assert ((bits_value g < 256)%N).
  { apply length_toString2. apply (f_equal length) in Hprint.
    rewrite length_padStart in Hprint. lia. }
  rewrite N.mod_small; lia.
Qed.

(** X5: the binary output of [onTextChange] holds binary digits only, at
    least eight for every code unit of the text, and exactly eight for
    each exactly when all code units are below 256. *)
Theorem onTextChange_prints_eight_digits_per_byte t :
  Forall (λ u, u = ch0 ∨ u = ch1) (binary (onTextChange t))
  ∧ 8 * length t ≤ length (binary (onTextChange t))
  ∧ (length (binary (onTextChange t)) = 8 * length t
     ↔ Forall (λ u, (u < 256)%N) t).
Proof.
  destruct (length_binary_onTextChange t) as [Hle Hiff]. split_and!; [|done|done].
  eapply Forall_impl; [apply binary_onTextChange_isBit|].
  intros u. apply isBit_cases.
Qed.
End bit_converter.

(** ** More on the two translators *)

Section translators_more.
Implicit Types (pattern l str : list N) (ops tokens : list (list N)) (out char : list N).

Lemma insertConcat_from_cons2 c1 c2 rest :
  insertConcat_from (c1 :: c2 :: rest)
  = c1 :: (if isC1Alphanum c1 && isC2Alphanum c2 then [chDot] else [])
       ++ insertConcat_from (c2 :: rest).
Proof. simpl. by destruct (isC1Alphanum c1 && isC2Alphanum c2). Qed.

Lemma insertConcat_from_head c rest :
  ∃ tl, insertConcat_from (c :: rest) = c :: tl.
Proof. simpl. eauto. Qed.


(** X7: normalizing a pattern twice is the same as normalizing it once:
    no dot is inserted next to a dot. *)
Theorem insertConcat_idempotent pattern :
  insertConcat (insertConcat pattern) = insertConcat pattern.
Proof.
  rewrite !insertConcat_unfold.
  induction pattern as [|c1 [|c2 rest] IH]; [done|done|].
  rewrite insertConcat_from_cons2.
  destruct (insertConcat_from_head c2 rest) as [tl Htl].
  rewrite Htl in *.
  destruct (isC1Alphanum c1 && isC2Alphanum c2) eqn:Hcond.
  - change (c1 :: [chDot] ++ c2 :: tl) with (c1 :: chDot :: c2 :: tl).
    rewrite (insertConcat_from_cons2 c1 chDot).
    replace (isC1Alphanum c1 && isC2Alphanum chDot) with false
      by (by rewrite andb_false_r).
    rewrite app_nil_l, (insertConcat_from_cons2 chDot c2).
    change (isC1Alphanum chDot) with false.
    rewrite andb_false_l, app_nil_l. by rewrite IH.
  - rewrite app_nil_l, (insertConcat_from_cons2 c1 c2), Hcond, app_nil_l.
    by rewrite IH.
Qed.

Lemma codePoints_cons2 (x y : N) (t : list N) :
  codePoints (x :: y :: t)
  = if isHighSurrogate x && isLowSurrogate y
    then [x; y] :: codePoints t
    else [x] :: codePoints (y :: t).
Proof. done. Qed.

Lemma mjoin_codePoints : ∀ n str, length str ≤ n → mjoin (codePoints str) = str.
Proof.
  induction n as [|n IH]; intros str Hlen.
  { destruct str; simpl in *; [done|lia]. }
  destruct str as [|x [|y t]]; [done|done|].
  rewrite codePoints_cons2. destruct (isHighSurrogate x && isLowSurrogate y).
  - rewrite mjoin_cons, IH by (simpl in *; lia). done.
  - rewrite mjoin_cons, IH by (simpl in *; lia). done.
Qed.

(** A token of [for (const char of s)] is one code unit or a surrogate
    pair. *)
Lemma codePoints_shape : ∀ n str, length str ≤ n →
  Forall (λ tok, (∃ u, tok = [u])
                 ∨ (∃ hi lo, tok = [hi; lo] ∧ isHighSurrogate hi = true
                             ∧ isLowSurrogate lo = true))
    (codePoints str).
Proof.
  induction n as [|n IH]; intros str Hlen.
  { destruct str; simpl in *; [constructor|lia]. }
  destruct str as [|x [|y t]]; [constructor|repeat constructor; eauto|].
  rewrite codePoints_cons2.
  destruct (isHighSurrogate x && isLowSurrogate y) eqn:Hpair.
  - apply andb_true_iff in Hpair as [??]. constructor; [right; by eauto|].
    apply IH. simpl in *. lia.
  - constructor; [left; by eauto|]. apply IH. simpl in *. lia.
Qed.

Lemma Forall_takeWhile {A} (P : A → Prop) (f : A → bool) (xs : list A) :
  Forall P xs → Forall P (takeWhile f xs).
Proof.
  induction 1 as [|x xs Hx _ IH]; simpl; [constructor|].
  destruct (f x); by constructor.
Qed.

Lemma Forall_dropWhile {A} (P : A → Prop) (f : A → bool) (xs : list A) :
  Forall P xs → Forall P (dropWhile f xs).
Proof.
  induction 1 as [|x xs Hx Hxs IH]; simpl; [constructor|].
  destruct (f x); [done|by constructor].
Qed.

Lemma takeWhile_dropWhile {A} (f : A → bool) (xs : list A) :
  takeWhile f xs ++ dropWhile f xs = xs.
Proof. induction xs as [|x xs IH]; simpl; [done|]. destruct (f x); simpl; by f_equal. Qed.

Lemma filter_alnum_token char :
  testAlnum char = false → filter (λ u, isAlnumUnit u) char = [].
Proof.
  unfold testAlnum. induction char as [|u char IH]; simpl; [done|].
  intros [Hu Hrest]%orb_false_iff.
  rewrite filter_cons_False by (rewrite Hu; by intros []). by apply IH.
Qed.

Lemma filter_alnum_tokens tokens :
  Forall (λ tok, testAlnum tok = false) tokens →
  filter (λ u, isAlnumUnit u) (mjoin tokens) = [].
Proof.
  induction 1 as [|tok tokens Htok _ IH]; [done|].
  by rewrite mjoin_cons, filter_app, IH, filter_alnum_token.
Qed.

(** The operator stack never holds an operand, and the operands emitted
    are those read so far, in their order. *)
Lemma shuntingYard_step_operands st char :
  Forall (λ tok, testAlnum tok = false) st.1 →
  Forall (λ tok, testAlnum tok = false) (shuntingYard_step st char).1
  ∧ filter (λ u, isAlnumUnit u) (shuntingYard_step st char).2
    = filter (λ u, isAlnumUnit u) st.2 ++ filter (λ u, isAlnumUnit u) char.
Proof.
  destruct st as [ops out]. unfold shuntingYard_step. simpl. intros Hops.
  destruct (testAlnum char) eqn:Hchar; simpl.
  { by rewrite filter_app. }
  rewrite (filter_alnum_token char Hchar), app_nil_r.
  repeat case_bool_decide; simpl; rewrite ?filter_app.
  - split; [by constructor|done].
  - split; [by apply Forall_drop, Forall_dropWhile|].
    by rewrite filter_alnum_tokens, app_nil_r by by apply Forall_takeWhile.
  - split; [constructor; [done|by apply Forall_dropWhile]|].
    by rewrite filter_alnum_tokens, app_nil_r by by apply Forall_takeWhile.
Qed.

Lemma shuntingYard_loop_operands tokens : ∀ st,
  Forall (λ tok, testAlnum tok = false) st.1 →
  Forall (λ tok, testAlnum tok = false) (foldl shuntingYard_step st tokens).1
  ∧ filter (λ u, isAlnumUnit u) (foldl shuntingYard_step st tokens).2
    = filter (λ u, isAlnumUnit u) st.2
      ++ filter (λ u, isAlnumUnit u) (mjoin tokens).
Proof.
  induction tokens as [|char tokens IH]; intros st Hst; simpl.
  { by rewrite app_nil_r. }
  destruct (shuntingYard_step_operands st char Hst) as [Hst1 Hout1].
  destruct (IH _ Hst1) as [Hst2 Hout2]. split; [done|].
  by rewrite Hout2, Hout1, filter_app, (assoc_L (++)).
Qed.

(** X8: the postfix form keeps the operands of the pattern: its
    alphanumeric characters are those of the pattern, in the same order,
    none lost and none repeated. *)
Theorem toPostfix_keeps_operands_in_order pattern :
  filter (λ u, isAlnumUnit u) (toPostfix pattern)
  = filter (λ u, isAlnumUnit u) pattern.
Proof.
  unfold toPostfix.
  rewrite (foldl_pointwise _ _ _ toPostfix_iter_shuntingYard).
  destruct (shuntingYard_loop_operands (codePoints (insertConcat pattern)) ([], []))
    as [Hstack Hout]; [constructor|].
  destruct (foldl _ _ _) as [stack output]. simpl in *.
  rewrite popAll_join, filter_app, Hout, (filter_alnum_tokens stack), app_nil_r
    by done.
  rewrite (mjoin_codePoints _ _ (le_n _)), insertConcat_unfold.
  clear. induction pattern as [|c1 [|c2 rest] IH]; [done|done|].
  rewrite insertConcat_from_cons2.
  change (c1 :: ?x ++ ?y) with ([c1] ++ x ++ y).
  change (c1 :: c2 :: rest) with ([c1] ++ c2 :: rest).
  rewrite !filter_app, IH. f_equal.
  by destruct (isC1Alphanum c1 && isC2Alphanum c2).
Qed.

Lemma dropWhile_head {A} (f : A → bool) (xs : list A) :
  dropWhile f xs = [] ∨ ∃ x rest, dropWhile f xs = x :: rest ∧ f x = false.
Proof.
  induction xs as [|x xs IH]; simpl; [by left|].
  destruct (f x) eqn:Hx; [done|]. right. by eauto.
Qed.

Lemma mjoin_takeWhile_dropWhile (f : list N → bool) ops :
  mjoin (takeWhile f ops) ++ mjoin (dropWhile f ops) = mjoin ops.
Proof. by rewrite <-join_app, takeWhile_dropWhile. Qed.

(** What a state of the translation holds: the output followed by the
    stacked operators, less the parentheses. *)
Lemma shuntingYard_step_content (P : N → Prop) `{∀ u, Decision (P u)} st char :
  ¬ P chLParen → ¬ P chRParen →
  filter P ((shuntingYard_step st char).2 ++ mjoin (shuntingYard_step st char).1)
  ≡ₚ filter P (st.2 ++ mjoin st.1) ++ filter P char.
Proof.
  destruct st as [ops out]. unfold shuntingYard_step. simpl. intros HL HR.
  destruct (testAlnum char).
  { simpl. rewrite !filter_app, <-!(assoc_L (++)). f_equiv. apply Permutation_app_comm. }
  case_bool_decide as Hl; [subst|].
  { simpl. rewrite !filter_app.
    rewrite (filter_cons_False _ chLParen []), (filter_cons_False _ chLParen (mjoin ops))
      by done.
    by rewrite filter_nil, app_nil_r. }
  case_bool_decide as Hr; [subst|]; simpl.
  - rewrite (filter_cons_False _ chRParen []), filter_nil, app_nil_r by done.
    rewrite <-(mjoin_takeWhile_dropWhile notLParen ops), <-!(assoc_L (++)), !filter_app.
    do 2 f_equiv.
    destruct (dropWhile_head notLParen ops) as [->|(x & rest & -> & Hx)]; [done|].
    unfold notLParen in Hx. apply bool_decide_eq_false in Hx.
    apply dec_stable in Hx as ->. simpl.
    by rewrite (filter_cons_False _ chLParen) by done.
  - rewrite <-(mjoin_takeWhile_dropWhile (outranks char) ops).
    rewrite <-!(assoc_L (++)), !filter_app, <-!(assoc_L (++)).
    do 2 f_equiv. apply Permutation_app_comm.
Qed.

Lemma shuntingYard_loop_content (P : N → Prop) `{∀ u, Decision (P u)} tokens :
  ¬ P chLParen → ¬ P chRParen → ∀ st,
  filter P ((foldl shuntingYard_step st tokens).2
            ++ mjoin (foldl shuntingYard_step st tokens).1)
  ≡ₚ filter P (st.2 ++ mjoin st.1) ++ filter P (mjoin tokens).
Proof.
  intros HL HR. induction tokens as [|char tokens IH]; intros st; simpl.
  { by rewrite app_nil_r. }
  rewrite IH, shuntingYard_step_content by done.
  by rewrite (filter_app _ char), (assoc_L (++)).
Qed.

(** X9: apart from parentheses, the postfix form is a rearrangement of
    the normalized pattern: every operator and operand is emitted exactly
    once. *)
Theorem toPostfix_rearranges_normalized_pattern pattern :
  filter (λ u, u ≠ chLParen ∧ u ≠ chRParen) (toPostfix pattern)
  ≡ₚ filter (λ u, u ≠ chLParen ∧ u ≠ chRParen) (insertConcat pattern).
Proof.
  unfold toPostfix.
  rewrite (foldl_pointwise _ _ _ toPostfix_iter_shuntingYard).
  pose proof (shuntingYard_loop_content (λ u, u ≠ chLParen ∧ u ≠ chRParen)
                (codePoints (insertConcat pattern))) as Hloop.
  specialize (Hloop ltac:(by intros [??]) ltac:(by intros [??]) ([], [])).
  destruct (foldl _ _ _) as [stack output]. simpl in Hloop.
  by rewrite popAll_join, Hloop, (mjoin_codePoints _ _ (le_n _)).
Qed.

Lemma token_without_rparen char :
  ((∃ u, char = [u])
   ∨ (∃ hi lo, char = [hi; lo] ∧ isHighSurrogate hi = true
               ∧ isLowSurrogate lo = true)) →
  char ≠ [chRParen] → Forall (λ u, u ≠ chRParen) char.
Proof.
  intros [[u ->]|(hi & lo & -> & Hhi & Hlo)] Hne.
  - constructor; [congruence|constructor].
  - repeat constructor; intros ->; done.
Qed.

Lemma Forall_mjoin {A} (P : A → Prop) (ls : list (list A)) :
  Forall (Forall P) ls → Forall P (mjoin ls).
Proof.
  induction 1 as [|l ls Hl _ IH]; [constructor|].
  rewrite mjoin_cons. by apply Forall_app.
Qed.

Lemma shuntingYard_step_no_rparen st char :
  char = [chRParen] ∨ Forall (λ u, u ≠ chRParen) char →
  Forall (λ u, u ≠ chRParen) st.2 → Forall (Forall (λ u, u ≠ chRParen)) st.1 →
  Forall (λ u, u ≠ chRParen) (shuntingYard_step st char).2
  ∧ Forall (Forall (λ u, u ≠ chRParen)) (shuntingYard_step st char).1.
Proof.
  destruct st as [ops out]. unfold shuntingYard_step. simpl.
  intros Hchar Hout Hops.
  destruct (testAlnum char) eqn:Halnum; simpl.
  { destruct Hchar as [->|Hchar]; [done|]. split; [by apply Forall_app|done]. }
  case_bool_decide as Hl; [subst|]; simpl.
  { split; [done|]. constructor; [|done]. by repeat constructor. }
  case_bool_decide as Hr; simpl.
  - split; [|by apply Forall_drop, Forall_dropWhile].
    apply Forall_app. split; [done|]. by apply Forall_mjoin, Forall_takeWhile.
  - destruct Hchar as [->|Hchar]; [done|]. split.
    + apply Forall_app. split; [done|]. by apply Forall_mjoin, Forall_takeWhile.
    + constructor; [done|]. by apply Forall_dropWhile.
Qed.

(** X10: a closing parenthesis never reaches the postfix form, balanced
    or not, so the compiler never reads one. *)
Theorem toPostfix_never_emits_closing_parenthesis pattern :
  chRParen ∉ toPostfix pattern.
Proof.
  unfold toPostfix.
  rewrite (foldl_pointwise _ _ _ toPostfix_iter_shuntingYard).
  pose proof (codePoints_shape _ (insertConcat pattern) (le_n _)) as Hshape.
  assert (Hinv : ∀ tokens st,
            Forall (λ tok, (∃ u, tok = [u])
                     ∨ (∃ hi lo, tok = [hi; lo] ∧ isHighSurrogate hi = true
                                 ∧ isLowSurrogate lo = true)) tokens →
            Forall (λ u, u ≠ chRParen) st.2 →
            Forall (Forall (λ u, u ≠ chRParen)) st.1 →
            Forall (λ u, u ≠ chRParen) (foldl shuntingYard_step st tokens).2
            ∧ Forall (Forall (λ u, u ≠ chRParen)) (foldl shuntingYard_step st tokens).1).
  { clear. induction tokens as [|char tokens IH]; intros st Hshape Hout Hops; [done|].
    apply Forall_cons in Hshape as [Hchar Hshape]. simpl.
    destruct (shuntingYard_step_no_rparen st char) as [Hout1 Hops1]; [|done|done|].
    - destruct (decide (char = [chRParen])); [by left|right].
      by apply token_without_rparen.
    - by apply IH. }
  destruct (Hinv _ ([], []) Hshape) as [Hout Hops]; [constructor..|].
  destruct (foldl _ _ _) as [stack output]. simpl in *.
  rewrite popAll_join. intros Hin.
  assert (Hall : Forall (λ u, u ≠ chRParen) (output ++ mjoin stack))
    by (apply Forall_app; split; [done|by apply Forall_mjoin]).
  by apply (proj1 (Forall_forall _ _) Hall) in Hin.
Qed.
End translators_more.


(** ** The shape of compiled automata *)

Section thompson_shape.
Implicit Types (σ : cstate) (h : list State) (rest : list NFA) (s : nat) (c : list N).

Lemma succs_outside h s c : length h ≤ s → succs h s c = [].
Proof. intros Hs. unfold succs. by rewrite (proj2 (lookup_ge_None _ _) Hs). Qed.

Lemma thompson_initial : thompson initial.
Proof.
  split; simpl.
  - by intros n c ?%elem_of_nil.
  - by intros n ?%elem_of_nil.
  - constructor.
  - intros s c. unfold succs. simpl. lia.
  - intros s c _. unfold succs. simpl. lia.
  - by intros s c1 c2 Hne.
Qed.

(** A step that adds transitions only to states that had none, within
    the bounds of the construction, and leaves the ends of the remaining
    fragments alone keeps the shape. *)
Lemma thompson_step σ h' k frag rest (added : nat → list N → list nat) :
  thompson σ →
  (∀ s c, succs h' s c = succs (heap σ) s c ++ added s c) →
  (∀ m, m ∈ rest → m ∈ stack σ) →
  (∀ m c, m ∈ rest → added (end_ m) c = []) →
  (∀ c, succs (heap σ) (end_ frag) c = [] ∧ added (end_ frag) c = []) →
  end_ frag ∉ end_ <$> rest →
  NoDup (end_ <$> rest) →
  (∃ c, succs h' (start frag) c ≠ []) →
  (∀ s c c', added s c ≠ [] → succs (heap σ) s c' = []) →
  (∀ s c, length (added s c) ≤ 2) →
  (∀ s c, c ≠ epsilon → length (added s c) ≤ 1) →
  (∀ s c1 c2, added s c1 ≠ [] → added s c2 ≠ [] → c1 = c2) →
  thompson (mkCstate h' k (frag :: rest)).
Proof.
  intros [Hend Hstart Hends Htwo Hone Hlabel]
    Hsuccs Hrest Hkeep Hnew Hfresh Hnodup Hout Hempty Hadd2 Hadd1 Haddl.
  split; simpl.
  - intros n c [->|Hn]%elem_of_cons; rewrite Hsuccs.
    + destruct (Hnew c) as [-> ->]. done.
    + by rewrite (Hend n c (Hrest n Hn)), (Hkeep n c Hn).
  - intros n [->|Hn]%elem_of_cons; [done|].
    destruct (Hstart n (Hrest n Hn)) as [c Hc]. exists c. rewrite Hsuccs.
    intros [? _]%app_eq_nil. done.
  - constructor; [exact Hfresh|exact Hnodup].
  - intros s c. rewrite Hsuccs.
    destruct (decide (added s c = [])) as [->|Hne].
    + rewrite app_nil_r. apply Htwo.
    + rewrite (Hempty s c c Hne). apply Hadd2.
  - intros s c Hc. rewrite Hsuccs.
    destruct (decide (added s c = [])) as [->|Hne].
    + rewrite app_nil_r. by apply Hone.
    + rewrite (Hempty s c c Hne). by apply Hadd1.
  - intros s c1 c2. rewrite !Hsuccs.
    destruct (decide (added s c1 = [])) as [H1|H1].
    + destruct (decide (added s c2 = [])) as [H2|H2].
      * rewrite H1, H2, !app_nil_r. apply Hlabel.
      * rewrite (Hempty s c2 c1 H2), H1. done.
    + rewrite (Hempty s c1 c1 H1), (Hempty s c1 c2 H1). simpl. by apply Haddl.
Qed.

Ltac added_cases :=
  intros; repeat case_decide; destruct_and?; simplify_eq; simpl in *;
  first [ done | lia | congruence | by eauto
        | exfalso; intuition (subst; first [congruence | lia]) ].

Lemma stacked_ends σ A rest :
  wf σ → thompson σ → stack σ = A :: rest →
  end_ A < length (heap σ)
  ∧ (∀ c, succs (heap σ) (end_ A) c = [])
  ∧ NoDup (end_ <$> rest)
  ∧ (∀ m, m ∈ rest → end_ m ≠ end_ A ∧ end_ m < length (heap σ)).
Proof.
  intros Hwf Hth Hstack.
  pose proof (wf_stack _ Hwf) as Hstk. pose proof (th_ends _ Hth) as Hends.
  pose proof (th_end _ Hth) as Hend. rewrite Hstack in *.
  apply NoDup_cons in Hends as [Hfresh Hends].
  destruct (Hstk A) as (_ & HeA & _); [by left|]. split_and!; [done| |done|].
  - intros c. apply Hend. by left.
  - intros m Hm. destruct (Hstk m) as (_ & Hem & _); [by right|]. split; [|done].
    intros Heq. apply Hfresh. rewrite <-Heq. by apply list_elem_of_fmap_2.
Qed.

Lemma fresh_end_not_stacked (n : nat) rest :
  (∀ m, m ∈ rest → end_ m < n) → S n ∉ end_ <$> rest.
Proof.
  intros Hlt (m & Heq & Hm)%list_elem_of_fmap. apply Hlt in Hm. lia.
Qed.

Lemma thompson_compile_iter char σ σ' :
  wf σ → thompson σ → compile_iter char σ = Normal () σ' →
  thompson σ'
  ∧ length (heap σ') = (if decide (char = [chDot]) then 0 else 2) + length (heap σ).
Proof.
  intros Hwf Hth Hrun.
  destruct (decide (length (stack σ) < arity char)) as [Hlow|Hok].
  { destruct (compile_iter_underflow σ char Hlow) as [? Hthrow]. congruence. }
  assert (Hout : ∀ s c, length (heap σ) ≤ s → succs (heap σ) s c = [])
    by (intros; by apply succs_outside).
  destruct (decide (char = [chStar])) as [->|Hstar].
  { change (arity [chStar]) with 1 in Hok.
    destruct (stack σ) as [|A rest] eqn:Hstack; simpl in Hok; try lia.
    destruct (stacked_ends σ A rest Hwf Hth Hstack) as (HeA & HA0 & Hnodup & Hrest).
    destruct (compile_iter_star σ A rest Hstack HeA)
      as (h' & Heq & Hlen & _ & _ & Hsuccs).
    rewrite Heq in Hrun. injection Hrun as <-. simpl. split; [|lia].
    apply (thompson_step σ h' _ _ rest _ Hth Hsuccs); rewrite ?Hstack; simpl.
    - intros m Hm. by right.
    - intros m c [??]%Hrest. added_cases.
    - intros c. split; [apply Hout; lia|added_cases].
    - apply fresh_end_not_stacked. intros m [??]%Hrest. done.
    - done.
    - exists epsilon. rewrite Hsuccs, (decide_True _ _ (conj eq_refl eq_refl)).
      intros [_ [=]]%app_eq_nil.
    - pose proof (Hout (length (heap σ))). added_cases.
    - added_cases.
    - added_cases.
    - added_cases. }
  destruct (decide (char = [chBar])) as [->|Hbar].
  { change (arity [chBar]) with 2 in Hok.
    destruct (stack σ) as [|B [|A rest]] eqn:Hstack; simpl in Hok; try lia.
    destruct (stacked_ends σ B (A :: rest) Hwf Hth Hstack)
      as (HeB & HB0 & Hnodup & Hrest).
    apply NoDup_cons in Hnodup as [HfreshA Hnodup].
    assert (HeA : end_ A < length (heap σ) ∧ end_ A ≠ end_ B).
    { destruct (Hrest A) as [??]; [by left|done]. }
    destruct HeA as [HeA HAB].
    assert (HA0 : ∀ c, succs (heap σ) (end_ A) c = []).
    { intros c. apply (th_end _ Hth). rewrite Hstack. right. by left. }
    assert (Hrest' : ∀ m, m ∈ rest →
              end_ m ≠ end_ A ∧ end_ m ≠ end_ B ∧ end_ m < length (heap σ)).
    { intros m Hm. destruct (Hrest m) as [??]; [by right|]. split_and!; [|done..].
      intros Heq. apply HfreshA. rewrite <-Heq. by apply list_elem_of_fmap_2. }
    destruct (compile_iter_bar σ B A rest Hstack HeA HeB)
      as (h' & Heq & Hlen & _ & _ & Hsuccs).
    rewrite Heq in Hrun. injection Hrun as <-. simpl. split; [|lia].
    apply (thompson_step σ h' _ _ rest _ Hth Hsuccs); rewrite ?Hstack; simpl.
    - intros m Hm. right. by right.
    - intros m c (? & ? & ?)%Hrest'. added_cases.
    - intros c. split; [apply Hout; lia|added_cases].
    - apply fresh_end_not_stacked. intros m (? & ? & ?)%Hrest'. done.
    - done.
    - exists epsilon. rewrite Hsuccs, (decide_True _ _ (conj eq_refl eq_refl)).
      intros [_ [=]]%app_eq_nil.
    - pose proof (Hout (length (heap σ))). added_cases.
    - added_cases.
    - added_cases.
    - added_cases. }
  destruct (decide (char = [chDot])) as [->|Hdot].
  { change (arity [chDot]) with 2 in Hok.
    destruct (stack σ) as [|B [|A rest]] eqn:Hstack; simpl in Hok; try lia.
    destruct (stacked_ends σ B (A :: rest) Hwf Hth Hstack)
      as (HeB & HB0 & Hnodup & Hrest).
    apply NoDup_cons in Hnodup as [HfreshA Hnodup].
    destruct (Hrest A) as [HAB HeA]; [by left|].
    assert (HA0 : ∀ c, succs (heap σ) (end_ A) c = []).
    { intros c. apply (th_end _ Hth). rewrite Hstack. right. by left. }
    assert (Hrest' : ∀ m, m ∈ rest →
              end_ m ≠ end_ A ∧ end_ m ≠ end_ B ∧ end_ m < length (heap σ)).
    { intros m Hm. destruct (Hrest m) as [??]; [by right|]. split_and!; [|done..].
      intros Heq. apply HfreshA. rewrite <-Heq. by apply list_elem_of_fmap_2. }
    destruct (compile_iter_dot σ B A rest Hstack HeA)
      as (h' & Heq & Hlen & _ & _ & Hsuccs).
    rewrite Heq in Hrun. injection Hrun as <-. simpl. split; [|lia].
    apply (thompson_step σ h' _ _ rest _ Hth Hsuccs); rewrite ?Hstack; simpl.
    - intros m Hm. right. by right.
    - intros m c (? & ? & ?)%Hrest'. added_cases.
    - intros c. split; [done|added_cases].
    - intros (m & Heq' & Hm)%list_elem_of_fmap.
      destruct (Hrest' m Hm) as (_ & Hne & _). congruence.
    - done.
    - destruct (th_start _ Hth A) as [c Hc]; [rewrite Hstack; right; by left|].
      exists c. rewrite Hsuccs. intros [? _]%app_eq_nil. done.
    - added_cases.
    - added_cases.
    - added_cases.
    - added_cases. }
  assert (Hrest : ∀ m, m ∈ stack σ → end_ m < length (heap σ)).
  { intros m Hm. by destruct (wf_stack _ Hwf m Hm) as (_ & ? & _). }
  destruct (compile_iter_literal σ char Hdot Hbar Hstar)
    as (h' & Heq & Hlen & _ & _ & Hsuccs).
  rewrite Heq in Hrun. injection Hrun as <-. simpl. split; [|lia].
  apply (thompson_step σ h' _ _ (stack σ) _ Hth Hsuccs); simpl.
  - done.
  - intros m c ?%Hrest. added_cases.
  - intros c. split; [apply Hout; lia|added_cases].
  - by apply fresh_end_not_stacked.
  - apply (th_ends _ Hth).
  - exists char. rewrite Hsuccs, (decide_True _ _ (conj eq_refl eq_refl)).
    intros [_ [=]]%app_eq_nil.
  - pose proof (Hout (length (heap σ))). added_cases.
  - added_cases.
  - added_cases.
  - added_cases.
Qed.

Lemma thompson_compile_loop tokens : ∀ σ σ',
  wf σ → thompson σ → compile_loop tokens σ = Normal () σ' →
  thompson σ'
  ∧ length (heap σ')
    = 2 * length (filter (λ char, char ≠ [chDot]) tokens) + length (heap σ).
Proof.
  induction tokens as [|char tokens IH]; intros σ σ' Hwf Hth.
  { intros [= <-]. split; [done|]. simpl. lia. }
  rewrite compile_loop_cons.
  destruct (compile_iter char σ) as [[] σ1|σ1] eqn:Hiter; [|done].
  intros Hloop.
  destruct (thompson_compile_iter _ _ _ Hwf Hth Hiter) as [Hth1 Hlen1].
  destruct (wf_compile_iter _ _ _ Hwf Hiter) as [Hwf1 _].
  destruct (IH _ _ Hwf1 Hth1 Hloop) as [Hth' Hlen']. split; [done|].
  rewrite Hlen', Hlen1. case_decide as Hchar.
  - rewrite filter_cons_False by (intros Hne; by apply Hne). lia.
  - rewrite filter_cons_True by done. simpl. lia.
Qed.

Lemma compiled_shape pattern nfa σ :
  compileRegexToNFA pattern = Normal (Some nfa) σ →
  ∃ σl rest,
    compile_loop (codePoints (toPostfix pattern)) initial = Normal () σl
    ∧ stack σl = nfa :: rest
    ∧ wf σl ∧ thompson σl
    ∧ length (heap σ) = length (heap σl)
    ∧ (∀ s c, succs (heap σ) s c = succs (heap σl) s c)
    ∧ length (heap σl)
      = 2 * length (filter (λ char, char ≠ [chDot]) (codePoints (toPostfix pattern))).
Proof.
  rewrite compileRegexToNFA_unfold.
  destruct (compile_loop _ _) as [[] σl|σl] eqn:Hloop; [|done].
  destruct (stack σl) as [|top rest] eqn:Hstack; [done|].
  intros [= -> <-]. simpl.
  destruct (thompson_compile_loop _ _ _ wf_initial thompson_initial Hloop)
    as [Hth Hlen].
  exists σl, rest. split_and!; try done.
  - by apply (wf_compile_loop _ _ _ wf_initial Hloop).
  - apply length_alter.
  - intros s c. apply succs_setAccept.
  - rewrite Hlen. simpl. lia.
Qed.



(** X12: a compiled automaton has the shape of Thompson's construction:
    every state has at most two outgoing transitions, all on one label,
    and at most one when the label is not ['ε']; the accepting end state
    has none, and the start state is a different state. *)
Theorem compiled_automaton_is_thompson_shaped pattern nfa σ :
  compileRegexToNFA pattern = Normal (Some nfa) σ →
  (∀ s c, length (succs (heap σ) s c) ≤ 2)
  ∧ (∀ s c, c ≠ epsilon → length (succs (heap σ) s c) ≤ 1)
  ∧ (∀ s c1 c2, succs (heap σ) s c1 ≠ [] → succs (heap σ) s c2 ≠ [] → c1 = c2)
  ∧ (∀ c, succs (heap σ) (end_ nfa) c = [])
  ∧ start nfa ≠ end_ nfa.
Proof.
  intros Hc.
  destruct (compiled_shape _ _ _ Hc)
    as (σl & rest & _ & Hstack & _ & [Hend Hstart _ Htwo Hone Hlabel] & _ & Hsuccs & _).
  assert (Htop : nfa ∈ stack σl) by (rewrite Hstack; by left).
  split_and!.
  - intros s c. rewrite Hsuccs. apply Htwo.
  - intros s c. rewrite Hsuccs. apply Hone.
  - intros s c1 c2. rewrite !Hsuccs. apply Hlabel.
  - intros c. rewrite Hsuccs. by apply Hend.
  - intros Heq. destruct (Hstart nfa Htop) as [c Hc'].
    rewrite Heq in Hc'. by rewrite Hend in Hc'.
Qed.

Lemma compiled_automaton_is_thompson_shaped_witness :
  compileRegexToNFA (lit "(a|b)*abb")
  = Normal (Some (mkNFA 6 13)) (state_of (compileRegexToNFA (lit "(a|b)*abb")))
  ∧ (∀ c, succs (heap (state_of (compileRegexToNFA (lit "(a|b)*abb")))) 13 c = []).
Proof.
  assert (Hc : compileRegexToNFA (lit "(a|b)*abb")
               = Normal (Some (mkNFA 6 13))
                   (state_of (compileRegexToNFA (lit "(a|b)*abb"))))
    by (vm_compute; reflexivity).
  split; [exact Hc|].
  exact (proj1 (proj2 (proj2 (proj2
           (compiled_automaton_is_thompson_shaped _ _ _ Hc))))).
Defined.
End thompson_shape.


(** ** The simulator computes the active states of the automaton *)

Section simulator_semantics.
Context (h : list State).
Implicit Types (s : nat) (set cur nexts : list nat) (char : list N).

Lemma fold_closure_call add :
  closure_call h add →
  ∀ nexts set result,
    foldl (λ o next, o ≫= add next) (Some set) nexts = Some result →
    (∃ extra, result = set ++ extra)
    ∧ (∀ x, x ∈ nexts → x ∈ result)
    ∧ (∀ x, x ∈ result → x ∈ set ∨ ∃ next, next ∈ nexts ∧ eps_closure h next x)
    ∧ (∀ x y, x ∈ result → x ∉ set → y ∈ succs h x epsilon → y ∈ result)
    ∧ (NoDup set → NoDup result).
Proof.
  intros Hadd. induction nexts as [|next nexts IH]; intros set result; simpl.
  { intros [= <-]. split_and!; try done.
    - exists []. by rewrite app_nil_r.
    - by intros x ?%elem_of_nil.
    - by left. }
  destruct (add next set) as [set1|] eqn:Hnext; [|by rewrite foldl_None].
  intros Hfold.
  destruct (Hadd _ _ _ Hnext) as ([e1 ->] & Hin1 & Hsound1 & Hclosed1 & Hnd1).
  destruct (IH _ _ Hfold) as ([e2 ->] & Hin2 & Hsound2 & Hclosed2 & Hnd2).
  split_and!.
  - exists (e1 ++ e2). by rewrite (assoc_L (++)).
  - intros x [->|Hx]%elem_of_cons; [|by apply Hin2].
    apply elem_of_app. by left.
  - intros x Hx. destruct (Hsound2 x Hx) as [Hx1|(n & Hn & Hreach)].
    + destruct (Hsound1 x Hx1) as [?|?]; [by left|].
      right. exists next. split; [by left|done].
    + right. exists n. split; [by right|done].
  - intros x y Hx Hnot Hy.
    destruct (decide (x ∈ set ++ e1)) as [Hx1|Hx1].
    + apply elem_of_app. left. by eapply Hclosed1.
    + by eapply Hclosed2.
  - auto.
Qed.

Lemma addState_closure_call fuel : closure_call h (addState fuel h).
Proof.
  induction fuel as [|fuel IH]; intros s set result; simpl; [done|].
  case_bool_decide as Hin.
  { intros [= <-]. split_and!; try done.
    - exists []. by rewrite app_nil_r.
    - by left. }
  destruct (h !! s) as [st|] eqn:Hst; simpl; [|done].
  assert (Hsuccs : succs h s epsilon = default [] (transitions st !! epsilon))
    by (unfold succs; by rewrite Hst).
  assert (Hfold : foldl (λ o next, o ≫= addState fuel h next) (Some (set ++ [s]))
                    (succs h s epsilon)
                  = match transitions st !! epsilon with
                    | Some nexts =>
                        foldl (λ o next, o ≫= addState fuel h next)
                          (Some (set ++ [s])) nexts
                    | None => Some (set ++ [s])
                    end).
  { rewrite Hsuccs. by destruct (transitions st !! epsilon). }
  rewrite <-Hfold. clear Hfold Hsuccs.
  intros ([e ->] & Hnexts & Hsound & Hclosed & Hnd)%(fold_closure_call _ IH).
  split_and!.
  - exists ([s] ++ e). by rewrite (assoc_L (++)).
  - rewrite !elem_of_app, list_elem_of_singleton. auto.
  - intros x Hx. destruct (Hsound x Hx) as [Hx1|(n & Hn & Hreach)].
    + apply elem_of_app in Hx1 as [?| ->%list_elem_of_singleton]; [by left|].
      right. apply rtc_refl.
    + right. by eapply rtc_l.
  - intros x y Hx Hnot Hy.
    destruct (decide (x = s)) as [->|Hne]; [by apply Hnexts|].
    eapply Hclosed; [done| |done].
    rewrite elem_of_app, list_elem_of_singleton. intuition.
  - intros Hset. apply Hnd. apply NoDup_app. split_and!; [done| |apply NoDup_singleton].
    intros x Hx ->%list_elem_of_singleton. done.
Qed.

Lemma eps_closed_closure set s s' :
  eps_closed h set → s ∈ set → eps_closure h s s' → s' ∈ set.
Proof. intros Hclosed Hs Hreach. induction Hreach; [done|]. eauto. Qed.

(** Adding the closures of some states to a closed set. *)
Lemma fold_addState_closed fuel nexts set result :
  eps_closed h set → NoDup set →
  foldl (λ o next, o ≫= addState fuel h next) (Some set) nexts = Some result →
  eps_closed h result ∧ NoDup result
  ∧ (∀ x, x ∈ result ↔ x ∈ set ∨ ∃ next, next ∈ nexts ∧ eps_closure h next x).
Proof.
  intros Hset Hnd
    ([e ->] & Hnexts & Hsound & Hclosed & Hnd')%(fold_closure_call _
                                                   (addState_closure_call fuel)).
  assert (Hres : eps_closed h (set ++ e)).
  { intros x y Hx Hy. destruct (decide (x ∈ set)) as [Hin|Hnot].
    - apply elem_of_app. left. by eapply Hset.
    - by eapply Hclosed. }
  split_and!; [done|by auto|].
  intros x. split; [apply Hsound|].
  intros [Hx|(next & Hnext & Hreach)]; [apply elem_of_app; by left|].
  eapply eps_closed_closure; [done| |done]. by apply Hnexts.
Qed.

Lemma eps_closed_nil : eps_closed h [].
Proof. by intros s s' ?%elem_of_nil. Qed.

(** One character: the new set holds exactly the states reached by a
    transition on the character followed by ['ε'] transitions. *)
Lemma simulate_iter_after_char fuel cur char next :
  simulate_iter fuel h cur char = Some next →
  NoDup next
  ∧ ∀ x, x ∈ next ↔ after_char h (λ s, s ∈ cur) char x.
Proof.
  unfold simulate_iter, after_char.
  assert (Hgen : ∀ cur acc result,
    eps_closed h acc → NoDup acc →
    foldl (λ o s, nextStates ← o; st ← h !! s;
             match transitions st !! char with
             | Some nexts =>
                 foldl (λ o next, o ≫= addState fuel h next) (Some nextStates) nexts
             | None => Some nextStates
             end) (Some acc) cur = Some result →
    eps_closed h result ∧ NoDup result
    ∧ ∀ x, x ∈ result
           ↔ x ∈ acc ∨ ∃ s p, s ∈ cur ∧ p ∈ succs h s char ∧ eps_closure h p x).
  { clear. induction cur as [|s cur IH]; intros acc result Hacc Hnd; simpl.
    { intros [= <-]. split_and!; [done..|]. intros x. split; [by left|].
      intros [?|(? & ? & ?%elem_of_nil & _)]; done. }
    destruct (h !! s) as [st|] eqn:Hst; simpl; [|by rewrite foldl_None].
    assert (Hsuccs : succs h s char = default [] (transitions st !! char))
      by (unfold succs; by rewrite Hst).
    destruct (foldl (λ o next, o ≫= addState fuel h next) (Some acc)
                (succs h s char)) as [acc1|] eqn:Hinner.
    - assert (Hstep : match transitions st !! char with
                      | Some nexts =>
                          foldl (λ o next, o ≫= addState fuel h next) (Some acc) nexts
                      | None => Some acc
                      end = Some acc1).
      { rewrite Hsuccs in Hinner. by destruct (transitions st !! char). }
      rewrite Hstep.
      destruct (fold_addState_closed _ _ _ _ Hacc Hnd Hinner)
        as (Hacc1 & Hnd1 & Hin1).
      intros (Hres & Hndr & Hin)%(IH _ _ Hacc1 Hnd1). split_and!; [done..|].
      intros x. rewrite Hin, Hin1. split.
      + intros [[?|(p & Hp & Hreach)]|(s' & p & Hs' & Hp & Hreach)].
        * by left.
        * right. exists s, p. split_and!; [by left|done..].
        * right. exists s', p. split_and!; [by right|done..].
      + intros [?|(s' & p & [->|Hs']%elem_of_cons & Hp & Hreach)].
        * left. by left.
        * left. right. by eauto.
        * right. by eauto.
    - assert (Hstep : match transitions st !! char with
                      | Some nexts =>
                          foldl (λ o next, o ≫= addState fuel h next) (Some acc) nexts
                      | None => Some acc
                      end = None).
      { rewrite Hsuccs in Hinner. by destruct (transitions st !! char). }
      rewrite Hstep. by rewrite foldl_None. }
  intros Hrun. destruct (Hgen cur [] next eps_closed_nil (NoDup_nil_2 (A:=nat)) Hrun)
    as (_ & Hnd & Hin).
  split; [done|]. intros x. rewrite Hin. split.
  - intros [?%elem_of_nil|?]; done.
  - by right.
Qed.

Lemma after_char_ext (A B : nat → Prop) char x :
  (∀ s, A s ↔ B s) → after_char h A char x ↔ after_char h B char x.
Proof.
  intros HAB. unfold after_char. split; intros (s & p & Hs & ?); exists s, p;
    (split; [by apply HAB|done]).
Qed.

Lemma foldl_after_char_ext chars : ∀ (A B : nat → Prop),
  (∀ s, A s ↔ B s) →
  ∀ x, foldl (after_char h) A chars x ↔ foldl (after_char h) B chars x.
Proof.
  induction chars as [|char chars IH]; intros A B HAB x; simpl; [done|].
  apply IH. intros s. by apply after_char_ext.
Qed.

Lemma simulate_loop_activeAfter fuel chars : ∀ cur (A : nat → Prop) result,
  (∀ s, s ∈ cur ↔ A s) → NoDup cur →
  foldl (λ o char, o ≫= λ cur, simulate_iter fuel h cur char) (Some cur) chars
  = Some result →
  NoDup result ∧ ∀ x, x ∈ result ↔ foldl (after_char h) A chars x.
Proof.
  induction chars as [|char chars IH]; intros cur A result Hcur Hnd; simpl.
  { by intros [= <-]. }
  destruct (simulate_iter fuel h cur char) as [next|] eqn:Hiter;
    [|by rewrite foldl_None].
  destruct (simulate_iter_after_char _ _ _ _ Hiter) as [Hndn Hnext].
  intros Hloop. apply (IH next (after_char h A char)) in Hloop; [done| |done].
  intros s. rewrite Hnext. by apply after_char_ext.
Qed.

Lemma mapM_lookup_id cur ids :
  heap_ok h → mapM (λ s, id <$> h !! s) cur = Some ids → ids = cur.
Proof.
  intros Hok Hids%mapM_Some. induction Hids as [|s y cur ids Hy _ IH]; [done|].
  f_equal; [|done]. destruct (h !! s) as [st|] eqn:Hst; simpl in Hy; [|done].
  injection Hy as <-. by eapply heap_ok_id.
Qed.

Lemma mapM_lookup_isAccept cur flags :
  mapM (λ s, isAccept <$> h !! s) cur = Some flags →
  existsb (λ b, b) flags = true ↔ ∃ s, s ∈ cur ∧ accepting h s = true.
Proof.
  intros Hflags%mapM_Some. induction Hflags as [|s b cur flags Hb _ IH]; simpl.
  { split; [done|]. by intros (s & ?%elem_of_nil & _). }
  assert (Hs : accepting h s = b).
  { unfold accepting. destruct (h !! s); simpl in Hb; [by injection Hb|done]. }
  rewrite orb_true_iff, IH. split.
  - intros [->|(s' & ? & ?)]; [exists s; split; [by left|done]|].
    exists s'. split; [by right|done].
  - intros (s' & [->|?]%elem_of_cons & Hacc); [left; congruence|right; by eauto].
Qed.

(** On a non-empty test string the simulation returns the active states
    of the automaton and whether one of them is accepting. *)
Lemma simulate_activeAfter fuel nfaObject testString activeIds isMatch :
  heap_ok h → testString ≠ [] →
  simulate fuel h nfaObject testString = Some (activeIds, isMatch) →
  NoDup activeIds
  ∧ (∀ s, s ∈ activeIds
          ↔ activeAfter h (start nfaObject) (split_units testString) s)
  ∧ (isMatch = true
     ↔ ∃ s, activeAfter h (start nfaObject) (split_units testString) s
            ∧ accepting h s = true).
Proof.
  intros Hok Hne. unfold simulate. rewrite decide_False by done.
  destruct (addState fuel h (start nfaObject) []) as [cur0|] eqn:Hcur0;
    simpl; [|done].
  destruct (fold_addState_closed fuel [start nfaObject] [] cur0
              eps_closed_nil (NoDup_nil_2 (A:=nat))) as (_ & Hnd0 & Hin0).
  { simpl. by rewrite Hcur0. }
  destruct (foldl _ (Some cur0) _) as [cur|] eqn:Hloop; simpl; [|done].
  destruct (simulate_loop_activeAfter fuel (split_units testString) cur0
              (eps_closure h (start nfaObject)) cur) as [Hnd Hin]; [|done|done|].
  { intros s. rewrite Hin0. split.
    - intros [?%elem_of_nil|(n & ->%list_elem_of_singleton & ?)]; done.
    - intros ?. right. exists (start nfaObject). split; [by left|done]. }
  destruct (mapM (λ s, id <$> h !! s) cur) as [ids|] eqn:Hids; simpl; [|done].
  destruct (mapM (λ s, isAccept <$> h !! s) cur) as [flags|] eqn:Hflags;
    simpl; [|done].
  intros [= <- <-]. apply mapM_lookup_id in Hids as ->; [|done].
  split_and!; [done|done|].
  rewrite (mapM_lookup_isAccept _ _ Hflags). split.
  - intros (s & Hs & Hacc). exists s. split; [by apply Hin|done].
  - intros (s & Hs & Hacc). exists s. split; [by apply Hin|done].
Qed.
End simulator_semantics.

Section simulator_correct.
Implicit Types (pattern testString : list N) (nfa : NFA).



Lemma foldl_after_char_empty h chars x :
  ¬ foldl (after_char h) (λ _, False) chars x.
Proof.
  induction chars as [|char chars IH]; cbn; [by intros []|].
  intros Hx. apply IH. revert Hx. apply foldl_after_char_ext.
  intros s. split; [by intros []|]. by intros (? & ? & [] & _).
Qed.

(** X14: once no state is active the simulation is dead: if the active
    set is empty after a non-empty test string, it is empty and the
    verdict is no match after every longer string that starts with it. *)
Theorem simulation_stays_dead pattern nfa σ fuel testString more isMatch :
  compileRegexToNFA pattern = Normal (Some nfa) σ →
  length (heap σ) < fuel →
  testString ≠ [] →
  simulate fuel (heap σ) nfa testString = Some ([], isMatch) →
  simulate fuel (heap σ) nfa (testString ++ more) = Some ([], false).
Proof.
  intros Hc Hfuel Hne Hrun.
  destruct (compiled_heap _ _ _ Hc) as (Hok & Hstart & _).
  destruct (simulate_total _ Hok fuel nfa (testString ++ more) Hfuel Hstart)
    as (ids & m & Hrun').
  assert (Hne' : testString ++ more ≠ []) by (by destruct testString).
  destruct (simulate_activeAfter _ _ _ _ _ _ Hok Hne Hrun) as (_ & Hin & _).
  destruct (simulate_activeAfter _ _ _ _ _ _ Hok Hne' Hrun') as (_ & Hin' & Hm').
  assert (Hdead : ∀ s, ¬ activeAfter (heap σ) (start nfa)
                           (split_units (testString ++ more)) s).
  { intros s. unfold activeAfter, split_units. rewrite fmap_app, foldl_app.
    intros Hs. apply (foldl_after_char_empty (heap σ) ((λ u, [u]) <$> more) s).
    revert Hs. apply foldl_after_char_ext. intros q.
    rewrite <-(Hin q). split; [by intros []|by intros ?%elem_of_nil]. }
  rewrite Hrun'. do 2 f_equal.
  - destruct ids as [|s ids]; [done|].
    destruct (Hdead s). apply Hin'. by left.
  - destruct m; [|done]. destruct (proj1 Hm' eq_refl) as (s & Hs & _).
    by destruct (Hdead s).
Qed.

Lemma simulation_stays_dead_witness :
  (compileRegexToNFA (lit "ab")
   = Normal (Some (mkNFA 0 3)) (state_of (compileRegexToNFA (lit "ab")))
   ∧ length (heap (state_of (compileRegexToNFA (lit "ab")))) < 5
   ∧ lit "b" ≠ []
   ∧ simulate 5 (heap (state_of (compileRegexToNFA (lit "ab")))) (mkNFA 0 3)
       (lit "b") = Some ([], false))
  ∧ simulate 5 (heap (state_of (compileRegexToNFA (lit "ab")))) (mkNFA 0 3)
      (lit "b" ++ lit "ab") = Some ([], false).
Proof.
  assert (Hc : compileRegexToNFA (lit "ab")
               = Normal (Some (mkNFA 0 3)) (state_of (compileRegexToNFA (lit "ab"))))
    by (vm_compute; reflexivity).
  assert (Hlen : length (heap (state_of (compileRegexToNFA (lit "ab")))) < 5)
    by (vm_compute; lia).
  assert (Hne : lit "b" ≠ []) by (vm_compute; discriminate).
  assert (Hrun : simulate 5 (heap (state_of (compileRegexToNFA (lit "ab"))))
                   (mkNFA 0 3) (lit "b") = Some ([], false))
    by (vm_compute; reflexivity).
  split; [by split_and!|].
  exact (simulation_stays_dead _ _ _ _ _ (lit "ab") _ Hc Hlen Hne Hrun).
Defined.
End simulator_correct.

(** ** The layout of the graph *)

Section layout.
Context (h : list State) (Hok : heap_ok h) (s0 : nat).
Implicit Types (ls : layout_state) (st : State) (s v w : nat) (c : list N).

Lemma elem_of_entries_flat st c w :
  (c, w) ∈ entries_flat st ↔ ∃ l, transitions st !! c = Some l ∧ w ∈ l.
Proof.
  unfold entries_flat. rewrite list_elem_of_bind. split.
  - intros ([c' l] & Hin & Hl%elem_of_map_to_list).
    apply list_elem_of_fmap in Hin as (next & [= -> ->] & Hnext). by eauto.
  - intros (l & Hl & Hw). exists (c, l). split; [|by apply elem_of_map_to_list].
    apply list_elem_of_fmap. by eauto.
Qed.

Lemma entries_flat_succs s st c w :
  h !! s = Some st → (c, w) ∈ entries_flat st ↔ w ∈ succs h s c.
Proof.
  intros Hst. rewrite elem_of_entries_flat. unfold succs. rewrite Hst.
  destruct (transitions st !! c) as [l|]; simpl.
  - split; [by intros (? & [= <-] & ?)|by eauto].
  - split; [by intros (? & [=] & _)|by intros ?%elem_of_nil].
Qed.

Lemma reachable_valid s : s0 < length h → reachable h s0 s → s < length h.
Proof.
  intros Hs0 Hreach. induction Hreach as [|x y z [c Hc] _ IH]; [done|].
  apply IH. by apply (ok_succs _ Hok x c).
Qed.

(** The inner loops add one edge and one queue entry for every
    transition of the state. *)
Lemma push_edges layer sid (out : list (list N * nat)) : ∀ es q,
  Forall (λ entry, entry.2 < length h) out →
  foldl (push_edge h sid layer) (Some (es, q)) out
  = Some (es ++ (edge_of sid <$> out), q ++ ((λ entry, (entry.2, layer + 1)) <$> out)).
Proof.
  induction out as [|[c w] out IH]; intros es q Hout; simpl.
  { by rewrite !app_nil_r. }
  apply Forall_cons in Hout as [Hw Hout]. simpl in Hw.
  destruct (lookup_lt_is_Some_2 h w Hw) as [nx Hnx]. rewrite Hnx. simpl.
  rewrite (heap_ok_id _ _ _ Hok Hnx). rewrite IH by done.
  by rewrite <-!(assoc_L (++)).
Qed.

Lemma pending_visit_other (V : gset nat) s (l : list State) :
  Forall (λ st, id st ≠ s) l →
  sum_list_with (λ st, if decide (id st ∈ {[s]} ∪ V) then 0
                       else length (entries_flat st)) l
  = sum_list_with (λ st, if decide (id st ∈ V) then 0
                         else length (entries_flat st)) l.
Proof.
  induction 1 as [|st l Hst _ IH]; [done|]. simpl. rewrite IH. f_equal.
  destruct (decide (id st ∈ V)) as [Hin|Hnot].
  - rewrite decide_True; [done|]. apply elem_of_union. by right.
  - rewrite decide_False; [done|].
    intros [?%elem_of_singleton|?]%elem_of_union; done.
Qed.

(** Visiting a state takes its transitions out of the pending ones. *)
Lemma pending_visit (V : gset nat) s st :
  h !! s = Some st → s ∉ V →
  pending h ({[s]} ∪ V) + length (entries_flat st) = pending h V.
Proof.
  intros Hst Hs. unfold pending.
  assert (Hother : ∀ j st', j ≠ s → h !! j = Some st' → id st' ≠ s).
  { intros j st' Hj Hst'. by rewrite (heap_ok_id _ _ _ Hok Hst'). }
  assert (Hbefore : Forall (λ st', id st' ≠ s) (take s h)).
  { apply Forall_forall. intros st' Hin.
    apply list_elem_of_lookup in Hin as [j Hj].
    pose proof (lookup_lt_Some _ _ _ Hj) as Hlt. rewrite length_take in Hlt.
    rewrite lookup_take_lt in Hj by lia. apply (Hother j); [lia|done]. }
  assert (Hafter : Forall (λ st', id st' ≠ s) (drop (S s) h)).
  { apply Forall_forall. intros st' Hin.
    apply list_elem_of_lookup in Hin as [j Hj]. rewrite lookup_drop in Hj.
    apply (Hother (S s + j)); [lia|done]. }
  rewrite <-(take_drop_middle h s st Hst).
  rewrite !sum_list_with_app. simpl.
  rewrite (heap_ok_id _ _ _ Hok Hst).
  rewrite decide_True by (apply elem_of_union; left; by apply elem_of_singleton).
  rewrite decide_False by done.
  rewrite !pending_visit_other by done. lia.
Qed.
Lemma yOffset_inj (k k' : nat) : yOffset k = yOffset k' → k = k'.
Proof. unfold yOffset. destruct (Nat.even k), (Nat.even k'); lia. Qed.

Lemma layout_inv_initial :
  layout_inv h s0 {| queue := [(s0, 0)]; visited := ∅; layers := ∅;
                     nodes := []; edges := [] |}.
Proof.
  split; simpl.
  - intros s. split; [by intros ?%elem_of_empty|by intros ?%elem_of_nil].
  - apply NoDup_nil_2.
  - intros s [?%elem_of_empty| ->%list_elem_of_singleton]; [done|].
    apply rtc_refl.
  - right. by apply list_elem_of_singleton.
  - by intros v c w ?%elem_of_empty.
  - intros e. split; [by intros ?%elem_of_nil|].
    by intros (v & c & w & ?%elem_of_empty & _).
  - by intros n ?%elem_of_nil.
  - apply NoDup_nil_2.
Qed.

(** An entry of the queue whose state has been visited is dropped. *)
Lemma layout_inv_skip ls s layer q :
  layout_inv h s0 ls → queue ls = (s, layer) :: q → s ∈ visited ls →
  layout_inv h s0 {| queue := q; visited := visited ls; layers := layers ls;
                     nodes := nodes ls; edges := edges ls |}.
Proof.
  intros [Hn Hnd Hsound Hstart Hclosed He Hinfo Hpos] Hq Hs.
  rewrite Hq, fmap_cons in Hsound, Hstart, Hclosed. cbn [fst] in *.
  split; cbn [queue visited layers nodes edges]; try done.
  - intros s' [?|?]; apply Hsound; [by left|right; apply elem_of_cons; by right].
  - destruct Hstart as [?|[->|?]%elem_of_cons]; [by left|by left|by right].
  - intros v c w Hv Hw.
    destruct (Hclosed v c w Hv Hw) as [?|[->|?]%elem_of_cons];
      [by left|by left|by right].
Qed.

(** A state that has not been visited gets a node, an edge for each of
    its transitions, and its successors are put on the queue. *)
Lemma layout_inv_visit ls s layer q st :
  layout_inv h s0 ls → queue ls = (s, layer) :: q → h !! s = Some st →
  s ∉ visited ls →
  layout_inv h s0
    {| queue := q ++ ((λ entry, (entry.2, layer + 1)) <$> entries_flat st);
       visited := {[s]} ∪ visited ls;
       layers := <[layer := default 0 (layers ls !! layer) + 1]> (layers ls);
       nodes := nodes ls ++
         [{| node_id := s;
             node_x := (60 + Z.of_nat layer * 120)%Z;
             node_y := (150 + yOffset (default 0%nat (layers ls !! layer)))%Z;
             node_label := if isAccept st then lit "End" else numberToString s;
             node_isAccept := isAccept st |}];
       edges := edges ls ++ (edge_of s <$> entries_flat st) |}.
Proof.
  intros [Hn Hnd Hsound Hstart Hclosed He Hinfo Hpos] Hq Hst Hs.
  rewrite Hq, fmap_cons in Hsound, Hstart, Hclosed. cbn [fst] in *.
  assert (Hnew : ∀ w,
    w ∈ ((λ entry : list N * nat, (entry.2, layer + 1)) <$> entries_flat st).*1
    ↔ ∃ c, w ∈ succs h s c).
  { intros w. rewrite <-list_fmap_compose, list_elem_of_fmap. split.
    - intros ([c w'] & -> & Hin). exists c. by apply (entries_flat_succs s st).
    - intros [c Hw]. exists (c, w). split; [done|].
      by apply (entries_flat_succs s st). }
  assert (Hacc : accepting h s = isAccept st) by (unfold accepting; by rewrite Hst).
  split; cbn [queue visited layers nodes edges].
  - intros s'. rewrite fmap_app, elem_of_app, elem_of_union, elem_of_singleton, <-Hn.
    cbn [fmap list_fmap node_id]. rewrite list_elem_of_singleton. tauto.
  - rewrite fmap_app. apply NoDup_app. split; [done|].
    split; [|apply NoDup_singleton].
    intros x Hx ->%list_elem_of_singleton. by apply Hs, Hn.
  - intros s'. rewrite elem_of_union, elem_of_singleton, fmap_app, elem_of_app, Hnew.
    intros [[->|?]|[?|[c Hc]]].
    + apply Hsound. right. apply elem_of_cons. by left.
    + apply Hsound. by left.
    + apply Hsound. right. apply elem_of_cons. by right.
    + eapply rtc_r; [apply Hsound; right; apply elem_of_cons; by left|].
      by exists c.
  - rewrite elem_of_union, elem_of_singleton, fmap_app, elem_of_app.
    destruct Hstart as [?|[->|?]%elem_of_cons];
      [left; by right|left; by left|right; by left].
  - intros v c w.
    rewrite !elem_of_union, !elem_of_singleton, fmap_app, elem_of_app, Hnew.
    intros [->|Hv] Hw.
    + right. right. by exists c.
    + destruct (Hclosed v c w Hv Hw) as [?|[->|?]%elem_of_cons];
        [left; by right|left; by left|right; by left].
  - intros e. rewrite elem_of_app, He, list_elem_of_fmap. split.
    + intros [(v & c & w & Hv & Hw & ->)|([c w] & -> & Hin)].
      * exists v, c, w. split; [apply elem_of_union; by right|done].
      * exists s, c, w.
        split; [apply elem_of_union; left; by apply elem_of_singleton|].
        split; [|done]. by apply (entries_flat_succs s st).
    + intros (v & c & w & [->%elem_of_singleton|Hv]%elem_of_union & Hw & ->).
      * right. exists (c, w). split; [done|]. by apply (entries_flat_succs s st).
      * left. by exists v, c, w.
  - intros n [Hin| ->%list_elem_of_singleton]%elem_of_app.
    + destruct (Hinfo n Hin) as (Ha & Hl & layer0 & k & Hx & Hy & Hk).
      split; [done|]. split; [done|]. exists layer0, k.
      split; [done|]. split; [done|].
      destruct (decide (layer0 = layer)) as [->|Hne].
      * rewrite lookup_insert_eq. simpl. lia.
      * by rewrite lookup_insert_ne.
    + cbn [node_id node_x node_y node_label node_isAccept]. rewrite Hacc.
      split; [done|]. split; [done|].
      exists layer, (default 0 (layers ls !! layer)).
      split; [done|]. split; [done|]. rewrite lookup_insert_eq. simpl. lia.
  - rewrite fmap_app. apply NoDup_app. split; [done|].
    split; [|apply NoDup_singleton].
    intros p Hp ->%list_elem_of_singleton.
    apply list_elem_of_fmap in Hp as (n & Hpn & Hin).
    destruct (Hinfo n Hin) as (_ & _ & layer0 & k & Hx & Hy & Hk).
    cbn [node_x node_y] in Hpn. injection Hpn as Hx' Hy'.
    rewrite Hx in Hx'. rewrite Hy in Hy'.
    assert (layer0 = layer) as -> by lia.
    assert (k = default 0 (layers ls !! layer)) by (apply yOffset_inj; lia). lia.
Qed.

(** The loop ends, with enough fuel for the queue and the transitions of
    the states still to visit, and returns the reachable part. *)
Lemma layout_loop_spec fuel : ∀ ls,
  s0 < length h → layout_inv h s0 ls →
  length (queue ls) + pending h (visited ls) < fuel →
  ∃ ns es more, layout_loop fuel h ls = Some (ns, es)
    ∧ layout_ok h s0 ns es ∧ ns = nodes ls ++ more.
Proof.
  induction fuel as [|fuel IH]; intros ls Hs0 Hinv Hfuel; [lia|].
  cbn [layout_loop]. destruct (queue ls) as [|[s layer] q] eqn:Hq.
  - exists (nodes ls), (edges ls), []. split; [done|].
    split; [|by rewrite app_nil_r].
    destruct Hinv as [Hn Hnd Hsound Hstart Hclosed He Hinfo Hpos].
    rewrite Hq in Hsound, Hstart, Hclosed.
    assert (Hall : ∀ s, reachable h s0 s ↔ s ∈ visited ls).
    { intros s. split; [|intros; apply Hsound; by left].
      revert s. apply (rtc_ind_r (λ s, s ∈ visited ls)).
      - by destruct Hstart as [?|?%elem_of_nil].
      - intros y z _ [c Hc] IH'.
        by destruct (Hclosed y c z IH' Hc) as [?|?%elem_of_nil]. }
    split.
    + done.
    + intros s. by rewrite <-Hn, Hall.
    + intros e. rewrite He.
      split; intros (v & c & w & Hv & Hw & ->); exists v, c, w;
        (split; [by apply Hall|done]).
    + intros n Hin.
      destruct (Hinfo n Hin) as (? & ? & layer0 & k & ? & ? & _). eauto 10.
    + done.
  - assert (Hs : s < length h).
    { apply reachable_valid; [done|]. apply (li_sound _ _ _ Hinv). right.
      rewrite Hq, fmap_cons. apply elem_of_cons. by left. }
    destruct (lookup_lt_is_Some_2 h s Hs) as [st Hst]. rewrite Hst.
    cbn [mbind option_bind]. rewrite (heap_ok_id _ _ _ Hok Hst).
    cbn [length] in Hfuel.
    destruct (decide (s ∈ visited ls)) as [Hin|Hnot].
    + match goal with |- context [layout_loop fuel h ?ls'] =>
        destruct (IH ls') as (ns & es & more & Hrun & Hres & Hpre) end.
      * done.
      * by apply (layout_inv_skip ls s layer).
      * cbn [queue visited]. lia.
      * exists ns, es, more. done.
    + rewrite push_edges.
      2:{ apply Forall_forall. intros [c w] Hw%(entries_flat_succs s st); [|done].
          by apply (ok_succs _ Hok s c). }
      cbn [mbind option_bind].
      match goal with |- context [layout_loop fuel h ?ls'] =>
        destruct (IH ls') as (ns & es & more & Hrun & Hres & Hpre) end.
      * done.
      * by apply (layout_inv_visit ls s layer q st).
      * cbn [queue visited]. rewrite length_app, length_fmap.
        pose proof (pending_visit (visited ls) s st Hst Hnot). lia.
      * cbn [nodes] in Hpre. rewrite <-(assoc_L (++)) in Hpre. eauto 10.
Qed.

(** [layoutGraph] ends, and its first node is the start state. *)
Lemma layoutGraph_ok fuel nfa :
  start nfa = s0 → s0 < length h → pending h ∅ + 2 ≤ fuel →
  ∃ ns es more, layoutGraph fuel h nfa = Some (ns, es)
    ∧ layout_ok h s0 ns es
    ∧ ns = {| node_id := s0; node_x := 60; node_y := 150;
              node_label := if accepting h s0 then lit "End"
                            else numberToString s0;
              node_isAccept := accepting h s0 |} :: more.
Proof.
  intros Hstart Hs0 Hfuel. destruct fuel as [|fuel]; [lia|].
  unfold layoutGraph. rewrite Hstart. cbn [layout_loop queue].
  destruct (lookup_lt_is_Some_2 h s0 Hs0) as [st Hst]. rewrite Hst.
  cbn [mbind option_bind]. rewrite (heap_ok_id _ _ _ Hok Hst).
  assert (Hnot : s0 ∉ (∅ : gset nat)) by apply not_elem_of_empty.
  cbn [visited nodes edges layers]. rewrite decide_False by done.
  rewrite push_edges.
  2:{ apply Forall_forall. intros [c w] Hw%(entries_flat_succs s0 st); [|done].
      by apply (ok_succs _ Hok s0 c). }
  cbn [mbind option_bind].
  pose proof (layout_inv_visit _ s0 0 [] st layout_inv_initial eq_refl Hst Hnot)
    as Hinv.
  cbn [queue visited layers nodes edges] in Hinv.
  match goal with |- context [layout_loop fuel h ?ls'] =>
    destruct (layout_loop_spec fuel ls') as (ns & es & more & Hrun & Hres & Hpre)
  end.
  - done.
  - exact Hinv.
  - cbn [queue visited]. rewrite length_app, length_fmap.
    pose proof (pending_visit ∅ s0 st Hst Hnot). cbn [length]. lia.
  - exists ns, es, more. split; [done|]. split; [done|].
    rewrite Hpre. cbn [nodes]. rewrite lookup_empty. unfold accepting.
    rewrite Hst. done.
Qed.
End layout.

Section layout_compiled.
Context (pattern : jsstring) (nfa : NFA) (σ : cstate) (fuel : nat).
Context (Hcompiled : compileRegexToNFA pattern = Normal (Some nfa) σ).
Context (Hfuel : pending (heap σ) ∅ + 2 ≤ fuel).

Lemma compiled_layout :
  ∃ ns es more, layoutGraph fuel (heap σ) nfa = Some (ns, es)
    ∧ layout_ok (heap σ) (start nfa) ns es
    ∧ ns = {| node_id := start nfa; node_x := 60; node_y := 150;
              node_label := if accepting (heap σ) (start nfa) then lit "End"
                            else numberToString (start nfa);
              node_isAccept := accepting (heap σ) (start nfa) |} :: more.
Proof.
  destruct (compiled_heap _ _ _ Hcompiled) as (Hok & Hstart & _).
  by apply layoutGraph_ok.
Qed.
End layout_compiled.

Lemma filter_none {A} (P : A → Prop) `{∀ y, Decision (P y)} (l : list A) :
  Forall (λ y, ¬ P y) l → filter P l = [].
Proof.
  induction 1 as [|y l Hy _ IH]; [done|]. by rewrite filter_cons_False.
Qed.

Lemma filter_unique {A B} (f : A → B) (P : A → Prop) `{∀ y, Decision (P y)}
    (l : list A) (x : A) :
  (∀ y, y ∈ l → P y ↔ f y = f x) → NoDup (f <$> l) → x ∈ l →
  filter P l = [x].
Proof.
  induction l as [|a l IH]; intros HP Hnd Hx; [by apply elem_of_nil in Hx|].
  rewrite fmap_cons in Hnd. apply NoDup_cons in Hnd as [Ha Hnd].
  assert (Hrest : ∀ y, y ∈ l → P y ↔ f y = f x).
  { intros y Hy. apply HP, elem_of_cons. by right. }
  apply elem_of_cons in Hx as [->|Hx].
  - rewrite filter_cons_True by (apply HP; [apply elem_of_cons; by left|done]).
    f_equal. apply filter_none, Forall_forall. intros y Hy HPy.
    apply Ha. apply Hrest in HPy; [|done]. rewrite <-HPy.
    apply list_elem_of_fmap. by exists y.
  - rewrite filter_cons_False; [by apply IH|].
    intros HPa%HP; [|apply elem_of_cons; by left].
    apply Ha. rewrite HPa. apply list_elem_of_fmap. by exists x.
Qed.

(** X15: with fuel above the number of transitions, drawing a compiled
    automaton ends, and gives one node for every state that can be
    reached from the start state, and no other node. *)
Theorem layout_has_one_node_per_reachable_state pattern nfa σ fuel :
  compileRegexToNFA pattern = Normal (Some nfa) σ →
  pending (heap σ) ∅ + 2 ≤ fuel →
  ∃ ns es, layoutGraph fuel (heap σ) nfa = Some (ns, es)
    ∧ NoDup (node_id <$> ns)
    ∧ ∀ s, s ∈ node_id <$> ns ↔ reachable (heap σ) (start nfa) s.
Proof.
  intros Hc Hfuel.
  destruct (compiled_layout _ _ _ _ Hc Hfuel) as (ns & es & _ & Hrun & Hres & _).
  exists ns, es. split; [done|]. split; [apply Hres|apply Hres].
Qed.

Lemma layout_has_one_node_per_reachable_state_witness :
  compileRegexToNFA (lit "a*")
  = Normal (Some (mkNFA 2 3)) (state_of (compileRegexToNFA (lit "a*")))
  ∧ pending (heap (state_of (compileRegexToNFA (lit "a*")))) ∅ + 2 ≤ 8
  ∧ ∃ ns es,
      layoutGraph 8 (heap (state_of (compileRegexToNFA (lit "a*")))) (mkNFA 2 3)
      = Some (ns, es)
      ∧ NoDup (node_id <$> ns).
Proof.
  assert (Hc : compileRegexToNFA (lit "a*")
               = Normal (Some (mkNFA 2 3)) (state_of (compileRegexToNFA (lit "a*"))))
    by (vm_compute; reflexivity).
  assert (Hf : pending (heap (state_of (compileRegexToNFA (lit "a*")))) ∅ + 2 ≤ 8)
    by (apply Nat.leb_le; vm_compute; reflexivity).
  split; [exact Hc|]. split; [exact Hf|].
  destruct (layout_has_one_node_per_reachable_state _ _ _ _ Hc Hf)
    as (ns & es & Hrun & Hnd & _).
  exists ns, es. split; [exact Hrun|exact Hnd].
Defined.

(** X16: the edges drawn for a compiled automaton are the transitions of
    the states reachable from the start state, each with its label and
    the identifier [from-to-label]; both ends of every edge are among the
    nodes, so that looking a node up by an edge's end finds one. *)
Theorem layout_has_one_edge_per_transition pattern nfa σ fuel :
  compileRegexToNFA pattern = Normal (Some nfa) σ →
  pending (heap σ) ∅ + 2 ≤ fuel →
  ∃ ns es, layoutGraph fuel (heap σ) nfa = Some (ns, es)
    ∧ (∀ e, e ∈ es ↔ ∃ v c w,
         reachable (heap σ) (start nfa) v ∧ w ∈ succs (heap σ) v c
         ∧ e = {| edge_from := v; edge_to := w; edge_label := c;
                  edge_id := numberToString v ++ [chMinus]
                             ++ numberToString w ++ [chMinus] ++ c |})
    ∧ (∀ e, e ∈ es →
         edge_from e ∈ node_id <$> ns ∧ edge_to e ∈ node_id <$> ns).
Proof.
  intros Hc Hfuel.
  destruct (compiled_layout _ _ _ _ Hc Hfuel) as (ns & es & _ & Hrun & Hres & _).
  assert (Hedge : ∀ v c w, edge_of v (c, w)
    = {| edge_from := v; edge_to := w; edge_label := c;
         edge_id := numberToString v ++ [chMinus]
                    ++ numberToString w ++ [chMinus] ++ c |}).
  { intros v c w. unfold edge_of. cbn [fst snd]. by destruct (decide (c = epsilon)) as [->|]. }
  exists ns, es. split; [done|]. split.
  - intros e. rewrite (lo_edges _ _ _ _ Hres).
    split; intros (v & c & w & Hv & Hw & ->); exists v, c, w; by rewrite Hedge in *.
  - intros e (v & c & w & Hv & Hw & ->)%(lo_edges _ _ _ _ Hres).
    cbn [edge_of edge_from edge_to snd].
    split; apply (lo_nodes _ _ _ _ Hres); [done|].
    eapply rtc_r; [exact Hv|]. by exists c.
Qed.

Lemma layout_has_one_edge_per_transition_witness :
  compileRegexToNFA (lit "a*")
  = Normal (Some (mkNFA 2 3)) (state_of (compileRegexToNFA (lit "a*")))
  ∧ pending (heap (state_of (compileRegexToNFA (lit "a*")))) ∅ + 2 ≤ 8
  ∧ ∃ ns es,
      layoutGraph 8 (heap (state_of (compileRegexToNFA (lit "a*")))) (mkNFA 2 3)
      = Some (ns, es)
      ∧ ∀ e, e ∈ es → edge_from e ∈ node_id <$> ns ∧ edge_to e ∈ node_id <$> ns.
Proof.
  assert (Hc : compileRegexToNFA (lit "a*")
               = Normal (Some (mkNFA 2 3)) (state_of (compileRegexToNFA (lit "a*"))))
    by (vm_compute; reflexivity).
  assert (Hf : pending (heap (state_of (compileRegexToNFA (lit "a*")))) ∅ + 2 ≤ 8)
    by (apply Nat.leb_le; vm_compute; reflexivity).
  split; [exact Hc|]. split; [exact Hf|].
  destruct (layout_has_one_edge_per_transition _ _ _ _ Hc Hf)
    as (ns & es & Hrun & _ & Hends).
  exists ns, es. split; [exact Hrun|exact Hends].
Defined.

(** X17: in the drawing of a compiled automaton the node of the end
    state, and no other, is marked accepting and labelled ["End"]; every
    other node is labelled by its identifier in decimal. *)
Theorem layout_marks_only_the_end_state pattern nfa σ fuel :
  compileRegexToNFA pattern = Normal (Some nfa) σ →
  pending (heap σ) ∅ + 2 ≤ fuel →
  ∃ ns es, layoutGraph fuel (heap σ) nfa = Some (ns, es)
    ∧ (∀ n, n ∈ ns →
         node_isAccept n = bool_decide (node_id n = end_ nfa)
         ∧ node_label n = if bool_decide (node_id n = end_ nfa) then lit "End"
                          else numberToString (node_id n))
    ∧ ∃ n, filter (λ n, node_isAccept n = true) ns = [n]
           ∧ node_id n = end_ nfa.
Proof.
  intros Hc Hfuel.
  destruct (compiled_layout _ _ _ _ Hc Hfuel) as (ns & es & _ & Hrun & Hres & _).
  destruct (compiled_heap _ _ _ Hc) as (_ & _ & _ & Hreach & Hacc).
  assert (Hinfo : ∀ n, n ∈ ns →
    node_isAccept n = bool_decide (node_id n = end_ nfa)
    ∧ node_label n = if bool_decide (node_id n = end_ nfa) then lit "End"
                     else numberToString (node_id n)).
  { intros n Hn. destruct (lo_info _ _ _ _ Hres n Hn) as (Ha & Hl & _).
    by rewrite Hacc in Ha, Hl. }
  exists ns, es. split; [done|]. split; [done|].
  apply (lo_nodes _ _ _ _ Hres), list_elem_of_fmap in Hreach as (n & Hid & Hn).
  exists n. split; [|done].
  apply (filter_unique node_id); [|apply Hres|done].
  intros m Hm. destruct (Hinfo m Hm) as [-> _]. rewrite bool_decide_eq_true.
  by rewrite <-Hid.
Qed.

Lemma layout_marks_only_the_end_state_witness :
  compileRegexToNFA (lit "a*")
  = Normal (Some (mkNFA 2 3)) (state_of (compileRegexToNFA (lit "a*")))
  ∧ pending (heap (state_of (compileRegexToNFA (lit "a*")))) ∅ + 2 ≤ 8
  ∧ ∃ ns es,
      layoutGraph 8 (heap (state_of (compileRegexToNFA (lit "a*")))) (mkNFA 2 3)
      = Some (ns, es)
      ∧ ∃ n, filter (λ n, node_isAccept n = true) ns = [n] ∧ node_id n = 3.
Proof.
  assert (Hc : compileRegexToNFA (lit "a*")
               = Normal (Some (mkNFA 2 3)) (state_of (compileRegexToNFA (lit "a*"))))
    by (vm_compute; reflexivity).
  assert (Hf : pending (heap (state_of (compileRegexToNFA (lit "a*")))) ∅ + 2 ≤ 8)
    by (apply Nat.leb_le; vm_compute; reflexivity).
  split; [exact Hc|]. split; [exact Hf|].
  destruct (layout_marks_only_the_end_state _ _ _ _ Hc Hf)
    as (ns & es & Hrun & _ & Hend).
  exists ns, es. split; [exact Hrun|exact Hend].
Defined.

(** X18: in the drawing of a compiled automaton no two nodes are at the
    same place: every node is in a column [60 + 120 * layer] and at a
    height [150 + yOffset k]; the first node is the start state, at
    [(60, 150)]. *)
Theorem layout_puts_nodes_at_different_places pattern nfa σ fuel :
  compileRegexToNFA pattern = Normal (Some nfa) σ →
  pending (heap σ) ∅ + 2 ≤ fuel →
  ∃ ns es, layoutGraph fuel (heap σ) nfa = Some (ns, es)
    ∧ NoDup ((λ n, (node_x n, node_y n)) <$> ns)
    ∧ (∀ n, n ∈ ns → ∃ layer k : nat,
         node_x n = (60 + Z.of_nat layer * 120)%Z
         ∧ node_y n = (150 + yOffset k)%Z)
    ∧ ∃ n more, ns = n :: more ∧ node_id n = start nfa
                ∧ node_x n = 60%Z ∧ node_y n = 150%Z.
Proof.
  intros Hc Hfuel.
  destruct (compiled_layout _ _ _ _ Hc Hfuel)
    as (ns & es & more & Hrun & Hres & Hns).
  exists ns, es. split; [done|]. split; [apply Hres|]. split.
  - intros n Hn. by destruct (lo_info _ _ _ _ Hres n Hn) as (_ & _ & Hpos).
  - rewrite Hns. by eexists _, more.
Qed.

Lemma layout_puts_nodes_at_different_places_witness :
  compileRegexToNFA (lit "a*")
  = Normal (Some (mkNFA 2 3)) (state_of (compileRegexToNFA (lit "a*")))
  ∧ pending (heap (state_of (compileRegexToNFA (lit "a*")))) ∅ + 2 ≤ 8
  ∧ ∃ ns es,
      layoutGraph 8 (heap (state_of (compileRegexToNFA (lit "a*")))) (mkNFA 2 3)
      = Some (ns, es)
      ∧ NoDup ((λ n, (node_x n, node_y n)) <$> ns).
Proof.
  assert (Hc : compileRegexToNFA (lit "a*")
               = Normal (Some (mkNFA 2 3)) (state_of (compileRegexToNFA (lit "a*"))))
    by (vm_compute; reflexivity).
  assert (Hf : pending (heap (state_of (compileRegexToNFA (lit "a*")))) ∅ + 2 ≤ 8)
    by (apply Nat.leb_le; vm_compute; reflexivity).
  split; [exact Hc|]. split; [exact Hf|].
  destruct (layout_puts_nodes_at_different_places _ _ _ _ Hc Hf)
    as (ns & es & Hrun & Hnd & _).
  exists ns, es. split; [exact Hrun|exact Hnd].
Defined.

(** X19: the graph that [RegexAutomata] computes for the pattern typed in
    has no node exactly when the pattern is rejected by the compiler, so
    that the placeholder shown for an empty list of nodes stands for a
    rejected pattern, and an automaton is never drawn empty. *)
Theorem graph_has_no_node_only_for_rejected_pattern regexInput :
  ∃ fuel0, ∀ fuel, fuel0 ≤ fuel →
    ∃ ns es nfaObject,
      useMemo_graph fuel regexInput = Some (ns, es, nfaObject)
      ∧ (ns = [] ↔ nfaObject = None)
      ∧ (nfaObject = None → es = []).
Proof.
  unfold useMemo_graph.
  destruct (compileRegexToNFA regexInput) as [[nfa|] σ|σ] eqn:Hc.
  - exists (pending (heap σ) ∅ + 2). intros fuel Hfuel.
    destruct (compiled_layout _ _ _ _ Hc Hfuel)
      as (ns & es & more & -> & _ & ->).
    eexists _, es, (Some nfa). split; [done|]. by split.
  - exists 0. intros fuel _. by exists [], [], None.
  - exists 0. intros fuel _. by exists [], [], None.
Qed.

(** ** The language of a compiled automaton *)

Section paths.
Implicit Types (h : list State) (s t x : nat) (w : list (list N)) (c : list N).

Lemma run_app h s w1 x w2 t :
  run h s w1 x → run h x w2 t → run h s (w1 ++ w2) t.
Proof.
  intros H1 H2. induction H1 as [s|s s' w t0 Hs _ IH|s s' c w t0 Hs _ IH].
  - done.
  - eapply run_eps; [done|]. by apply IH.
  - eapply (run_char _ _ s'); [done|]. by apply IH.
Qed.

Lemma run_reachable h s w t : run h s w t → reachable h s t.
Proof.
  induction 1 as [s|s s' w t Hs _ IH|s s' c w t Hs _ IH].
  - apply rtc_refl.
  - eapply rtc_l; [by exists epsilon|done].
  - eapply rtc_l; [by exists c|done].
Qed.

Lemma run_stuck h s w t :
  (∀ c, succs h s c = []) → run h s w t → w = [] ∧ t = s.
Proof.
  intros Hs Hrun. destruct Hrun as [s|s s' w t Hin _|s s' c w t Hin _]; [done|..];
    rewrite Hs in Hin; by apply elem_of_nil in Hin.
Qed.

Lemma run_mono h h' s w t : extends h h' → run h s w t → run h' s w t.
Proof.
  intros Hext. induction 1 as [s|s s' w t Hs _ IH|s s' c w t Hs _ IH].
  - constructor.
  - eapply run_eps; [|done]. destruct (Hext s epsilon) as [extra ->].
    apply elem_of_app. by left.
  - eapply run_char; [|done]. destruct (Hext s c) as [extra ->].
    apply elem_of_app. by left.
Qed.

(** A path only depends on the transitions of the states it can reach. *)
Lemma run_local h h' s w t :
  (∀ x c, reachable h s x → succs h' x c = succs h x c) →
  run h' s w t ↔ run h s w t.
Proof.
  intros Hsame. split.
  - intros Hrun. induction Hrun as [s|s s' w t Hs _ IH|s s' c w t Hs _ IH].
    + constructor.
    + rewrite Hsame in Hs by apply rtc_refl. eapply run_eps; [done|].
      apply IH. intros x c Hx. apply Hsame.
      eapply rtc_l; [by exists epsilon|done].
    + rewrite Hsame in Hs by apply rtc_refl. eapply run_char; [done|].
      apply IH. intros x c' Hx. apply Hsame.
      eapply rtc_l; [by exists c|done].
  - intros Hrun. induction Hrun as [s|s s' w t Hs _ IH|s s' c w t Hs _ IH].
    + constructor.
    + eapply run_eps; [by rewrite Hsame by apply rtc_refl|].
      apply IH. intros x c Hx. apply Hsame.
      eapply rtc_l; [by exists epsilon|done].
    + eapply run_char; [by rewrite Hsame by apply rtc_refl|].
      apply IH. intros x c' Hx. apply Hsame.
      eapply rtc_l; [by exists c|done].
Qed.

Lemma reachable_local h h' s t :
  (∀ x c, reachable h s x → succs h' x c = succs h x c) →
  reachable h' s t ↔ reachable h s t.
Proof.
  intros Hsame. unfold reachable in *. split.
  - intros Hreach. induction Hreach as [s|s s' t [c Hs] _ IH].
    + apply rtc_refl.
    + rewrite Hsame in Hs by apply rtc_refl. eapply rtc_l; [by exists c|].
      apply IH. intros x c' Hx. apply Hsame. eapply rtc_l; [by exists c|done].
  - intros Hreach. induction Hreach as [s|s s' t [c Hs] _ IH].
    + apply rtc_refl.
    + eapply rtc_l; [exists c; by rewrite Hsame by apply rtc_refl|].
      apply IH. intros x c' Hx. apply Hsame. eapply rtc_l; [by exists c|done].
Qed.

(** The states reachable from [s0] stay in a set that holds [s0] and
    the successors of its members. *)
Lemma reachable_within h s0 (R : nat → Prop) :
  R s0 → (∀ s c s', R s → s' ∈ succs h s c → R s') →
  ∀ t, reachable h s0 t → R t.
Proof.
  intros H0 Hstep. apply (rtc_ind_r R); [done|].
  intros y z _ [c Hc] Hy. by apply (Hstep y c).
Qed.

Lemma eps_closure_run h s t : eps_closure h s t ↔ run h s [] t.
Proof.
  split.
  - induction 1 as [s|s s' t Hs _ IH]; [constructor|by eapply run_eps].
  - intros Hrun. remember [] as w eqn:Hw.
    induction Hrun as [s|s s' w t Hs _ IH|s s' c w t Hs _ IH]; [apply rtc_refl| |done].
    eapply rtc_l; [done|by apply IH].
Qed.

Lemma run_snoc h s w c t :
  run h s (w ++ [c]) t ↔ ∃ x p, run h s w x ∧ p ∈ succs h x c ∧ run h p [] t.
Proof.
  split.
  - intros Hrun. remember (w ++ [c]) as w' eqn:Hw'. revert w Hw'.
    induction Hrun as [s|s s' w' t Hs Hrun IH|s s' c' w' t Hs Hrun IH]; intros w Hw'.
    + by destruct w.
    + destruct (IH w Hw') as (x & p & Hx & Hp & Ht). exists x, p.
      split; [by eapply run_eps|done].
    + destruct w as [|c0 w]; simplify_eq/=.
      * exists s, s'. split; [constructor|done].
      * destruct (IH w eq_refl) as (x & p & Hx & Hp & Ht). exists x, p.
        split; [by eapply run_char|done].
  - intros (x & p & Hx & Hp & Ht). eapply run_app; [done|].
    by eapply run_char.
Qed.

(** The states the simulation reports are the ends of the paths that
    spell the characters read. *)
Lemma activeAfter_run h s w t : activeAfter h s w t ↔ run h s w t.
Proof.
  revert t. induction w as [|c w IH] using rev_ind; intros t.
  - apply eps_closure_run.
  - unfold activeAfter in *. rewrite foldl_app, run_snoc. simpl.
    unfold after_char. split.
    + intros (x & p & Hx & Hp & Ht). exists x, p.
      split; [by apply IH|]. split; [done|by apply eps_closure_run].
    + intros (x & p & Hx & Hp & Ht). exists x, p.
      split; [by apply IH|]. split; [done|by apply eps_closure_run].
Qed.
End paths.

Section constructions.
Implicit Types (h : list State) (s t x : nat) (w : list (list N)) (c : list N).
Implicit Types (A B : NFA) (r : regex).

(** A literal: two new states and one transition between them. *)
Lemma literal_accepts h h' n char :
  length h ≤ n →
  (∀ s c, succs h' s c
          = succs h s c ++ (if decide (s = n ∧ c = char) then [S n] else [])) →
  accepts h' (mkNFA n (S n)) (Lit char)
  ∧ ∀ t, reachable h' n t → t = n ∨ t = S n.
Proof.
  intros Hn Hsuccs.
  assert (Hstart : ∀ c, succs h' n c = if decide (c = char) then [S n] else []).
  { intros c. rewrite Hsuccs, succs_outside by done.
    destruct (decide (c = char)) as [->|Hne].
    - by rewrite decide_True.
    - rewrite decide_False; [done|]. by intros [_ ?]. }
  assert (Hend : ∀ c, succs h' (S n) c = []).
  { intros c. rewrite Hsuccs, succs_outside by lia.
    rewrite decide_False; [done|]. intros [? _]. lia. }
  split.
  - intros w Hw. simpl. split.
    + intros Hrun. inversion Hrun as [|? s' ? ? Hin Hrest|? s' c w' ? Hin Hrest]; subst.
      * lia.
      * rewrite Hstart in Hin. case_decide as Hc; [|by apply elem_of_nil in Hin].
        apply list_elem_of_singleton in Hin as ->.
        apply run_stuck in Hrest as [-> _]; [|done].
        by rewrite decide_True.
      * rewrite Hstart in Hin. case_decide as Hc; [|by apply elem_of_nil in Hin].
        apply list_elem_of_singleton in Hin as ->. subst c.
        apply run_stuck in Hrest as [-> _]; [|done].
        rewrite decide_False; [done|]. intros ->. apply Hw. by left.
    + case_decide as Hc.
      * intros ->. eapply run_eps; [|constructor].
        rewrite Hstart, decide_True by done. by left.
      * intros ->. eapply run_char; [|constructor].
        rewrite Hstart, decide_True by done. by left.
  - apply (reachable_within h' n (λ t, t = n ∨ t = S n)); [by left|].
    intros s c s' [->| ->] Hin.
    + rewrite Hstart in Hin. case_decide; [|by apply elem_of_nil in Hin].
      apply list_elem_of_singleton in Hin as ->. by right.
    + rewrite Hend in Hin. by apply elem_of_nil in Hin.
Qed.

(** Concatenation: a transition from the end of the first operand to the
    start of the second. *)
Lemma dot_accepts h h' A B rA rB :
  (∀ s c, succs h' s c
          = succs h s c
            ++ (if decide (s = end_ A ∧ c = epsilon) then [start B] else [])) →
  accepts h A rA → accepts h B rB →
  reachable h (start A) (end_ A) → reachable h (start B) (end_ B) →
  (∀ s, reachable h (start A) s → ¬ reachable h (start B) s) →
  accepts h' (mkNFA (start A) (end_ B)) (Cat rA rB)
  ∧ ∀ t, reachable h' (start A) t
         → reachable h (start A) t ∨ reachable h (start B) t.
Proof.
  intros Hsuccs HA HB HrA HrB Hapart.
  assert (Hext : extends h h') by (intros s c; rewrite Hsuccs; eauto).
  assert (Hold : ∀ x c, reachable h (start B) x → succs h' x c = succs h x c).
  { intros x c Hx. rewrite Hsuccs, decide_False, app_nil_r; [done|].
    intros [-> _]. by apply (Hapart (end_ A)). }
  assert (Hpath : ∀ x w t, epsilon ∉ w → reachable h (start A) x →
    run h' x w t →
    run h x w t
    ∨ ∃ w1 w2, w = w1 ++ w2 ∧ run h x w1 (end_ A) ∧ run h' (start B) w2 t).
  { intros x w t Hw Hx Hrun.
    induction Hrun as [x|x x' w t Hin Hrun IH|x x' c w t Hin Hrun IH].
    - left. constructor.
    - rewrite Hsuccs in Hin. apply elem_of_app in Hin as [Hin|Hin].
      + destruct IH as [Hr|(w1 & w2 & -> & H1 & H2)].
        * done.
        * eapply rtc_r; [done|]. by exists epsilon.
        * left. by eapply run_eps.
        * right. exists w1, w2. split; [done|]. split; [by eapply run_eps|done].
      + case_decide as Hd; [|by apply elem_of_nil in Hin]. destruct Hd as [-> _].
        apply list_elem_of_singleton in Hin as ->.
        right. exists [], w. split; [done|]. split; [constructor|done].
    - apply not_elem_of_cons in Hw as [Hc Hw].
      rewrite Hsuccs, decide_False, app_nil_r in Hin by (by intros [_ ->]).
      destruct IH as [Hr|(w1 & w2 & -> & H1 & H2)].
      * done.
      * eapply rtc_r; [done|]. by exists c.
      * left. by eapply run_char.
      * right. exists (c :: w1), w2. split; [done|].
        split; [by eapply run_char|done]. }
  split.
  - intros w Hw. simpl. split.
    + intros Hrun.
      destruct (Hpath _ _ _ Hw (rtc_refl _ _) Hrun) as [Hr|(w1 & w2 & -> & H1 & H2)].
      * exfalso. apply (Hapart (end_ B)); [by apply run_reachable in Hr|done].
      * apply not_elem_of_app in Hw as [Hw1 Hw2].
        apply (run_local h h') in H2; [|done].
        exists w1, w2. split; [done|]. split; [by apply HA|by apply HB].
    + intros (w1 & w2 & -> & H1 & H2).
      apply not_elem_of_app in Hw as [Hw1 Hw2].
      apply HA in H1; [|done]. apply HB in H2; [|done].
      eapply run_app; [by eapply run_mono|].
      eapply run_eps; [|by eapply run_mono].
      rewrite Hsuccs, decide_True by done. apply elem_of_app. right. by left.
  - apply (reachable_within h' (start A)
             (λ t, reachable h (start A) t ∨ reachable h (start B) t)).
    { left. apply rtc_refl. }
    intros s c s' [Hs|Hs] Hin.
    + rewrite Hsuccs in Hin. apply elem_of_app in Hin as [Hin|Hin].
      * left. eapply rtc_r; [done|]. by exists c.
      * case_decide; [|by apply elem_of_nil in Hin].
        apply list_elem_of_singleton in Hin as ->. right. apply rtc_refl.
    + rewrite Hold in Hin by done. right. eapply rtc_r; [done|]. by exists c.
Qed.

(** Alternation: a new start with a transition to the start of each
    operand, and a transition from the end of each to a new end. *)
Lemma bar_accepts h h' n A B rA rB :
  heap_ok h → n = length h →
  start A < n → start B < n →
  (∀ s c, succs h' s c
          = succs h s c
            ++ (if decide (s = n ∧ c = epsilon) then [start A; start B] else [])
            ++ (if decide (s = end_ A ∧ c = epsilon) then [S n] else [])
            ++ (if decide (s = end_ B ∧ c = epsilon) then [S n] else [])) →
  accepts h A rA → accepts h B rB →
  reachable h (start A) (end_ A) → reachable h (start B) (end_ B) →
  (∀ s, reachable h (start A) s → ¬ reachable h (start B) s) →
  accepts h' (mkNFA n (S n)) (Alt rA rB)
  ∧ ∀ t, reachable h' n t
         → t = n ∨ t = S n ∨ reachable h (start A) t ∨ reachable h (start B) t.
Proof.
  intros Hok -> HsA HsB Hsuccs HA HB HrA HrB Hapart.
  set (n := length h) in *.
  assert (Hext : extends h h') by (intros s c; rewrite Hsuccs; eauto).
  assert (Hin_h : ∀ C x, start C < n → reachable h (start C) x → x < n).
  { intros C x HC Hx. by apply (reachable_valid h Hok (start C)). }
  assert (Hstart : ∀ c, succs h' n c
                        = if decide (c = epsilon) then [start A; start B] else []).
  { intros c. rewrite Hsuccs, succs_outside by done.
    pose proof (Hin_h A _ HsA HrA). pose proof (Hin_h B _ HsB HrB).
    destruct (decide (c = epsilon)) as [->|Hne].
    - rewrite (decide_True (P := n = n ∧ _)) by done.
      rewrite !decide_False by (intros [? _]; lia). done.
    - by rewrite !decide_False by (by intros [_ ?]). }
  assert (Hend : ∀ c, succs h' (S n) c = []).
  { intros c. rewrite Hsuccs, succs_outside by (unfold n; lia).
    pose proof (Hin_h A _ HsA HrA). pose proof (Hin_h B _ HsB HrB).
    by rewrite !decide_False by (intros [? _]; lia). }
  assert (Hpath : ∀ C rC other, start C < n → accepts h C rC →
    (∀ x, reachable h (start C) x → x ≠ end_ other) →
    (∀ s c, succs h' s c
            = succs h s c
              ++ (if decide (s = n ∧ c = epsilon) then [start A; start B] else [])
              ++ (if decide (s = end_ C ∧ c = epsilon) then [S n] else [])
              ++ (if decide (s = end_ other ∧ c = epsilon) then [S n] else [])) →
    ∀ x w, epsilon ∉ w → reachable h (start C) x →
    run h' x w (S n) → run h x w (end_ C)).
  { intros C rC other HsC HC Hother HsuccsC x w Hw Hx Hrun.
    remember (S n) as t eqn:Ht.
    induction Hrun as [x|x x' w t Hin Hrun IH|x x' c w t Hin Hrun IH].
    - subst. apply Hin_h in Hx; [lia|done].
    - subst t. pose proof (Hin_h C x HsC Hx) as Hlt.
      rewrite HsuccsC in Hin.
      rewrite (decide_False (P := x = n ∧ _)) in Hin by (intros [? _]; lia).
      rewrite (decide_False (P := x = end_ other ∧ _)) in Hin
        by (intros [? _]; by apply (Hother x)).
      rewrite app_nil_r in Hin. simpl in Hin.
      apply elem_of_app in Hin as [Hin|Hin].
      + eapply run_eps; [done|]. apply IH; try done.
        eapply rtc_r; [done|]. by exists epsilon.
      + case_decide as Hd; [|by apply elem_of_nil in Hin]. destruct Hd as [-> _].
        apply list_elem_of_singleton in Hin as ->.
        apply run_stuck in Hrun as [-> _]; [|done]. constructor.
    - subst t. apply not_elem_of_cons in Hw as [Hc Hw].
      rewrite HsuccsC, !decide_False in Hin by (by intros [_ ->]).
      rewrite !app_nil_r in Hin.
      eapply run_char; [done|]. apply IH; try done.
      eapply rtc_r; [done|]. by exists c. }
  split.
  - intros w Hw. simpl. split.
    + intros Hrun. inversion Hrun as [|? s' ? ? Hin Hrest|? s' c w' ? Hin Hrest]; subst.
      * lia.
      * rewrite Hstart, decide_True in Hin by done.
        assert (HoA : ∀ x, reachable h (start A) x → x ≠ end_ B).
        { intros x Hx ->. by apply (Hapart (end_ B)). }
        assert (HoB : ∀ x, reachable h (start B) x → x ≠ end_ A).
        { intros x Hx ->. by apply (Hapart (end_ A)). }
        assert (Hsuccs' : ∀ s c, succs h' s c
            = succs h s c
              ++ (if decide (s = n ∧ c = epsilon) then [start A; start B] else [])
              ++ (if decide (s = end_ B ∧ c = epsilon) then [S n] else [])
              ++ (if decide (s = end_ A ∧ c = epsilon) then [S n] else [])).
        { intros s c. rewrite Hsuccs. f_equal. f_equal.
          destruct (decide (s = end_ A ∧ c = epsilon)) as [[-> ->]|];
            destruct (decide (_ = end_ B ∧ _)) as [[HAB _]|]; done. }
        apply elem_of_cons in Hin as [->|Hin].
        -- left. apply HA; [done|].
           exact (Hpath A rA B HsA HA HoA Hsuccs _ _ Hw (rtc_refl _ _) Hrest).
        -- apply list_elem_of_singleton in Hin as ->.
           right. apply HB; [done|].
           exact (Hpath B rB A HsB HB HoB Hsuccs' _ _ Hw (rtc_refl _ _) Hrest).
      * apply not_elem_of_cons in Hw as [Hc Hw].
        rewrite Hstart, decide_False in Hin by done. by apply elem_of_nil in Hin.
    + assert (Hlast : ∀ C, C = A ∨ C = B → run h' (end_ C) [] (S n)).
      { intros C HC. eapply run_eps; [|constructor]. rewrite Hsuccs.
        destruct HC as [-> | ->].
        - rewrite (decide_True (P := end_ A = end_ A ∧ _)) by done.
          rewrite !elem_of_app. right. right. left. by left.
        - rewrite (decide_True (P := end_ B = end_ B ∧ _)) by done.
          rewrite !elem_of_app. right. right. right. by left. }
      intros [Hm|Hm].
      * apply HA in Hm; [|done]. eapply run_eps.
        { rewrite Hstart, decide_True by done. by left. }
        rewrite <-(app_nil_r w).
        eapply run_app; [by eapply run_mono|]. apply Hlast. by left.
      * apply HB in Hm; [|done]. eapply run_eps.
        { rewrite Hstart, decide_True by done. right. by left. }
        rewrite <-(app_nil_r w).
        eapply run_app; [by eapply run_mono|]. apply Hlast. by right.
  - apply (reachable_within h' n
      (λ t, t = n ∨ t = S n ∨ reachable h (start A) t ∨ reachable h (start B) t));
      [by left|].
    assert (Hstep : ∀ C s c s', start C < n → reachable h (start C) s →
      s' ∈ succs h' s c → s' = S n ∨ reachable h (start C) s').
    { intros C s c s' HsC Hs Hin. pose proof (Hin_h C s HsC Hs) as Hlt.
      rewrite Hsuccs, !elem_of_app in Hin.
      destruct Hin as [Hin|[Hin|[Hin|Hin]]].
      - right. eapply rtc_r; [done|]. by exists c.
      - case_decide as Hd; [destruct Hd; lia|by apply elem_of_nil in Hin].
      - case_decide; [|by apply elem_of_nil in Hin].
        apply list_elem_of_singleton in Hin as ->. by left.
      - case_decide; [|by apply elem_of_nil in Hin].
        apply list_elem_of_singleton in Hin as ->. by left. }
    intros s c s' [->|[->|[Hs|Hs]]] Hin.
    + rewrite Hstart in Hin. case_decide; [|by apply elem_of_nil in Hin].
      apply elem_of_cons in Hin as [->|Hin].
      * right. right. left. apply rtc_refl.
      * apply list_elem_of_singleton in Hin as ->. right. right. right.
        apply rtc_refl.
    + rewrite Hend in Hin. by apply elem_of_nil in Hin.
    + destruct (Hstep A s c s' HsA Hs Hin) as [->|?]; auto.
    + destruct (Hstep B s c s' HsB Hs Hin) as [->|?]; auto.
Qed.
(** The star: a new start with a transition to the start of the operand
    and one to a new end, and the same two transitions from the end of
    the operand. *)
Lemma star_accepts h h' n A rA :
  heap_ok h → n = length h → start A < n →
  (∀ s c, succs h' s c
          = succs h s c
            ++ (if decide (s = n ∧ c = epsilon) then [start A; S n] else [])
            ++ (if decide (s = end_ A ∧ c = epsilon) then [start A; S n] else [])) →
  accepts h A rA → reachable h (start A) (end_ A) →
  accepts h' (mkNFA n (S n)) (Star rA)
  ∧ ∀ t, reachable h' n t → t = n ∨ t = S n ∨ reachable h (start A) t.
Proof.
  intros Hok -> HsA Hsuccs HA HrA.
  set (n := length h) in *.
  assert (Hext : extends h h') by (intros s c; rewrite Hsuccs; eauto).
  assert (Hin_h : ∀ x, reachable h (start A) x → x < n).
  { intros x Hx. by apply (reachable_valid h Hok (start A)). }
  pose proof (Hin_h _ HrA) as HeA.
  assert (Hstart : ∀ c, succs h' n c
                        = if decide (c = epsilon) then [start A; S n] else []).
  { intros c. rewrite Hsuccs, succs_outside by done.
    destruct (decide (c = epsilon)) as [->|Hne].
    - rewrite (decide_True (P := n = n ∧ _)) by done.
      rewrite decide_False by (intros [? _]; lia). done.
    - by rewrite !decide_False by (by intros [_ ?]). }
  assert (Hend : ∀ c, succs h' (S n) c = []).
  { intros c. rewrite Hsuccs, succs_outside by (unfold n; lia).
    by rewrite !decide_False by (intros [? _]; lia). }
  assert (Hback : ∀ s', s' = start A ∨ s' = S n → s' ∈ succs h' (end_ A) epsilon).
  { intros s' Hs'. rewrite Hsuccs.
    rewrite (decide_True (P := end_ A = end_ A ∧ _)) by done.
    rewrite !elem_of_app, !elem_of_cons. by intuition. }
  assert (Hpath : ∀ x w, epsilon ∉ w → reachable h (start A) x →
    run h' x w (S n) →
    ∃ w1 w2, w = w1 ++ w2 ∧ run h x w1 (end_ A) ∧ lang_star (matches rA) w2).
  { intros x w Hw Hx Hrun. remember (S n) as t eqn:Ht.
    induction Hrun as [x|x x' w t Hin Hrun IH|x x' c w t Hin Hrun IH].
    - subst. apply Hin_h in Hx. lia.
    - subst t. pose proof (Hin_h x Hx) as Hlt.
      rewrite Hsuccs in Hin.
      rewrite (decide_False (P := x = n ∧ _)) in Hin by (intros [? _]; lia).
      simpl in Hin. apply elem_of_app in Hin as [Hin|Hin].
      + destruct IH as (w1 & w2 & -> & H1 & H2); try done.
        { eapply rtc_r; [done|]. by exists epsilon. }
        exists w1, w2. split; [done|]. split; [by eapply run_eps|done].
      + case_decide as Hd; [|by apply elem_of_nil in Hin]. destruct Hd as [-> _].
        exists [], w. split; [done|]. split; [constructor|].
        apply elem_of_cons in Hin as [->|Hin].
        * destruct IH as (w1 & w2 & -> & H1 & H2);
            [first [done|apply rtc_refl]..|].
          apply not_elem_of_app in Hw as [Hw1 Hw2].
          constructor; [by apply HA|done].
        * apply list_elem_of_singleton in Hin as ->.
          apply run_stuck in Hrun as [-> _]; [|done]. constructor.
    - subst t. apply not_elem_of_cons in Hw as [Hc Hw].
      rewrite Hsuccs, !decide_False in Hin by (by intros [_ ->]).
      rewrite !app_nil_r in Hin.
      destruct IH as (w1 & w2 & -> & H1 & H2); try done.
      { eapply rtc_r; [done|]. by exists c. }
      exists (c :: w1), w2. split; [done|]. split; [by eapply run_char|done]. }
  assert (Hloop : ∀ w, lang_star (matches rA) w → epsilon ∉ w →
    run h' (end_ A) w (S n)).
  { intros w Hstar. induction Hstar as [|w1 w2 H1 H2 IH]; intros Hw.
    - eapply run_eps; [|constructor]. apply Hback. by right.
    - apply not_elem_of_app in Hw as [Hw1 Hw2].
      eapply run_eps; [apply Hback; by left|].
      eapply run_app; [eapply run_mono; [done|]; by apply HA|]. by apply IH. }
  split.
  - intros w Hw. simpl. split.
    + intros Hrun. inversion Hrun as [|? s' ? ? Hin Hrest|? s' c w' ? Hin Hrest]; subst.
      * lia.
      * rewrite Hstart, decide_True in Hin by done.
        apply elem_of_cons in Hin as [->|Hin].
        -- destruct (Hpath _ _ Hw (rtc_refl _ _) Hrest) as (w1 & w2 & -> & H1 & H2).
           apply not_elem_of_app in Hw as [Hw1 Hw2].
           constructor; [by apply HA|done].
        -- apply list_elem_of_singleton in Hin as ->.
           apply run_stuck in Hrest as [-> _]; [|done]. constructor.
      * apply not_elem_of_cons in Hw as [Hc Hw].
        rewrite Hstart, decide_False in Hin by done. by apply elem_of_nil in Hin.
    + intros Hstar. destruct Hstar as [|w1 w2 H1 H2].
      * eapply run_eps; [|constructor]. rewrite Hstart, decide_True by done.
        right. by left.
      * apply not_elem_of_app in Hw as [Hw1 Hw2].
        eapply run_eps; [rewrite Hstart, decide_True by done; by left|].
        eapply run_app; [eapply run_mono; [done|]; by apply HA|]. by apply Hloop.
  - apply (reachable_within h' n
      (λ t, t = n ∨ t = S n ∨ reachable h (start A) t)); [by left|].
    intros s c s' [->|[->|Hs]] Hin.
    + rewrite Hstart in Hin. case_decide; [|by apply elem_of_nil in Hin].
      apply elem_of_cons in Hin as [->|Hin].
      * right. right. apply rtc_refl.
      * apply list_elem_of_singleton in Hin as ->. right. by left.
    + rewrite Hend in Hin. by apply elem_of_nil in Hin.
    + pose proof (Hin_h s Hs) as Hlt. rewrite Hsuccs, !elem_of_app in Hin.
      destruct Hin as [Hin|[Hin|Hin]].
      * right. right. eapply rtc_r; [done|]. by exists c.
      * case_decide as Hd; [destruct Hd; lia|by apply elem_of_nil in Hin].
      * case_decide; [|by apply elem_of_nil in Hin].
        apply elem_of_cons in Hin as [->|Hin].
        -- right. right. apply rtc_refl.
        -- apply list_elem_of_singleton in Hin as ->. right. by left.
Qed.
End constructions.

Section language.
Implicit Types (σ : cstate) (h : list State) (rest : list NFA) (s t : nat).
Implicit Types (c : list N) (rs : list regex).

Lemma apart_local h h' rest :
  (∀ m t, m ∈ rest → reachable h' (start m) t → reachable h (start m) t) →
  apart h rest → apart h' rest.
Proof.
  induction rest as [|n rest IH]; intros Hreach; simpl; [done|].
  intros [Hall Hapart]. split.
  - rewrite Forall_forall in *. intros m Hm s Hn Hs.
    apply (Hall m Hm s); apply Hreach; [by left|done|by right|done].
  - apply IH; [|done]. intros m t Hm. apply Hreach. by right.
Qed.

(** The fragments none of whose states gets a transition accept what
    they accepted. *)
Lemma frame_rest h h' (added : nat → list N → list nat) rest rs :
  (∀ s c, succs h' s c = succs h s c ++ added s c) →
  (∀ m s c, m ∈ rest → reachable h (start m) s → added s c = []) →
  Forall2 (accepts h) rest rs → apart h rest →
  Forall2 (accepts h') rest rs ∧ apart h' rest
  ∧ ∀ m t, m ∈ rest → reachable h' (start m) t → reachable h (start m) t.
Proof.
  intros Hsuccs Hadded Hacc Hapart.
  assert (Hsame : ∀ m, m ∈ rest →
    ∀ x c, reachable h (start m) x → succs h' x c = succs h x c).
  { intros m Hm x c Hx. by rewrite Hsuccs, (Hadded m x c Hm Hx), app_nil_r. }
  assert (Hreach : ∀ m t, m ∈ rest →
    reachable h' (start m) t → reachable h (start m) t).
  { intros m t Hm Ht. apply (reachable_local h h'); [by apply Hsame|done]. }
  split; [|split; [by eapply apart_local|done]].
  apply Forall2_same_length_lookup. apply Forall2_same_length_lookup in Hacc.
  destruct Hacc as [Hlen Hacc]. split; [done|].
  intros i m r Hm Hr w Hw. rewrite <-(Hacc i m r Hm Hr w Hw).
  apply run_local. apply Hsame. by eapply list_elem_of_lookup_2.
Qed.

Lemma built_initial : built initial [].
Proof. split; simpl; [constructor|done]. Qed.

(** One token keeps the fragments and the expressions in step. *)
Lemma built_compile_iter char σ σ' rs :
  wf σ → built σ rs → compile_iter char σ = Normal () σ' →
  ∃ rs', parse_iter rs char = Some rs' ∧ built σ' rs'.
Proof.
  intros Hwf [Hacc Hapart] Hrun.
  destruct (decide (length (stack σ) < arity char)) as [Hlow|Hok].
  { destruct (compile_iter_underflow σ char Hlow) as [? Hthrow]. congruence. }
  pose proof (wf_heap _ Hwf) as Hheap. pose proof (wf_stack _ Hwf) as Hstk.
  assert (Hlt : ∀ m s, m ∈ stack σ → reachable (heap σ) (start m) s →
                       s < length (heap σ)).
  { intros m s Hm Hs. destruct (Hstk m Hm) as (Hsm & _ & _).
    by apply (reachable_valid _ Hheap (start m)). }
  unfold arity in Hok. unfold parse_iter.
  destruct (decide (char = [chDot])) as [->|Hdot].
  { destruct (stack σ) as [|B [|A rest]] eqn:Hstack; simpl in Hok; try lia.
    apply Forall2_cons_inv_l in Hacc as (rB & rs1 & HB & Hacc & ->).
    apply Forall2_cons_inv_l in Hacc as (rA & rs2 & HA & Hacc & ->).
    simpl in Hapart. destruct Hapart as (HapB & HapA & Hapart).
    apply Forall_cons in HapB as [HBA HapB].
    rewrite Forall_forall in HapA, HapB.
    destruct (Hstk A) as (HsA & HeA & HrA); [rewrite !elem_of_cons; auto|].
    destruct (Hstk B) as (HsB & HeB & HrB); [rewrite !elem_of_cons; auto|].
    destruct (compile_iter_dot σ B A rest Hstack HeA)
      as (h' & Heq & Hlen & _ & _ & Hsuccs).
    rewrite Heq in Hrun. injection Hrun as <-.
    assert (HAB : ∀ s, reachable (heap σ) (start A) s
                       → ¬ reachable (heap σ) (start B) s).
    { intros s ??. by apply (HBA s). }
    destruct (dot_accepts (heap σ) h' A B rA rB Hsuccs HA HB HrA HrB HAB)
      as [Hnew Hreach].
    destruct (frame_rest (heap σ) h' _ rest rs2 Hsuccs)
      as (Hacc' & Hapart' & Hold); [|done|done|].
    { intros m s c Hm Hs. rewrite decide_False; [done|].
      intros [-> _]. by apply (HapA m Hm (end_ A)). }
    eexists. split; [done|]. split; simpl; [by constructor|].
    split; [|done]. apply Forall_forall. intros m Hm s Hs1 Hs2.
    apply Hold in Hs2; [|done].
    destruct (Hreach s Hs1) as [?|?]; [by apply (HapA m Hm s)|by apply (HapB m Hm s)]. }
  destruct (decide (char = [chBar])) as [->|Hbar].
  { destruct (stack σ) as [|B [|A rest]] eqn:Hstack; simpl in Hok; try lia.
    apply Forall2_cons_inv_l in Hacc as (rB & rs1 & HB & Hacc & ->).
    apply Forall2_cons_inv_l in Hacc as (rA & rs2 & HA & Hacc & ->).
    simpl in Hapart. destruct Hapart as (HapB & HapA & Hapart).
    apply Forall_cons in HapB as [HBA HapB].
    rewrite Forall_forall in HapA, HapB.
    destruct (Hstk A) as (HsA & HeA & HrA); [rewrite !elem_of_cons; auto|].
    destruct (Hstk B) as (HsB & HeB & HrB); [rewrite !elem_of_cons; auto|].
    destruct (compile_iter_bar σ B A rest Hstack HeA HeB)
      as (h' & Heq & Hlen & _ & _ & Hsuccs).
    rewrite Heq in Hrun. injection Hrun as <-.
    assert (HAB : ∀ s, reachable (heap σ) (start A) s
                       → ¬ reachable (heap σ) (start B) s).
    { intros s ??. by apply (HBA s). }
    destruct (bar_accepts (heap σ) h' _ A B rA rB Hheap eq_refl HsA HsB
                Hsuccs HA HB HrA HrB HAB) as [Hnew Hreach].
    assert (Hrest : ∀ m s, m ∈ rest → reachable (heap σ) (start m) s →
                           s < length (heap σ)).
    { intros m s Hm. apply Hlt. by do 2 right. }
    destruct (frame_rest (heap σ) h' _ rest rs2 Hsuccs)
      as (Hacc' & Hapart' & Hold); [|done|done|].
    { intros m s c Hm Hs. pose proof (Hrest m s Hm Hs).
      rewrite (decide_False (P := s = length _ ∧ _)) by (intros [? _]; lia).
      rewrite (decide_False (P := s = end_ A ∧ _))
        by (intros [-> _]; by apply (HapA m Hm (end_ A))).
      rewrite (decide_False (P := s = end_ B ∧ _))
        by (intros [-> _]; by apply (HapB m Hm (end_ B))).
      done. }
    eexists. split; [done|]. split; simpl; [by constructor|].
    split; [|done]. apply Forall_forall. intros m Hm s Hs1 Hs2.
    apply Hold in Hs2; [|done]. pose proof (Hrest m s Hm Hs2).
    destruct (Hreach s Hs1) as [?|[?|[?|?]]]; [lia|lia| |].
    - by apply (HapA m Hm s).
    - by apply (HapB m Hm s). }
  destruct (decide (char = [chStar])) as [->|Hstar].
  { destruct (stack σ) as [|A rest] eqn:Hstack; simpl in Hok; try lia.
    apply Forall2_cons_inv_l in Hacc as (rA & rs2 & HA & Hacc & ->).
    simpl in Hapart. destruct Hapart as (HapA & Hapart).
    rewrite Forall_forall in HapA.
    destruct (Hstk A) as (HsA & HeA & HrA); [rewrite !elem_of_cons; auto|].
    destruct (compile_iter_star σ A rest Hstack HeA)
      as (h' & Heq & Hlen & _ & _ & Hsuccs).
    rewrite Heq in Hrun. injection Hrun as <-.
    destruct (star_accepts (heap σ) h' _ A rA Hheap eq_refl HsA Hsuccs HA HrA)
      as [Hnew Hreach].
    assert (Hrest : ∀ m s, m ∈ rest → reachable (heap σ) (start m) s →
                           s < length (heap σ)).
    { intros m s Hm. apply Hlt. by right. }
    destruct (frame_rest (heap σ) h' _ rest rs2 Hsuccs)
      as (Hacc' & Hapart' & Hold); [|done|done|].
    { intros m s c Hm Hs. pose proof (Hrest m s Hm Hs).
      rewrite (decide_False (P := s = length _ ∧ _)) by (intros [? _]; lia).
      rewrite (decide_False (P := s = end_ A ∧ _))
        by (intros [-> _]; by apply (HapA m Hm (end_ A))).
      done. }
    eexists. split; [done|]. split; simpl; [by constructor|].
    split; [|done]. apply Forall_forall. intros m Hm s Hs1 Hs2.
    apply Hold in Hs2; [|done]. pose proof (Hrest m s Hm Hs2).
    destruct (Hreach s Hs1) as [?|[?|?]]; [lia|lia|].
    by apply (HapA m Hm s). }
  destruct (compile_iter_literal σ char Hdot Hbar Hstar)
    as (h' & Heq & Hlen & _ & _ & Hsuccs).
  rewrite Heq in Hrun. injection Hrun as <-.
  destruct (literal_accepts (heap σ) h' _ char (Nat.le_refl _) Hsuccs)
    as [Hnew Hreach].
  destruct (frame_rest (heap σ) h' _ (stack σ) rs Hsuccs)
    as (Hacc' & Hapart' & Hold); [|done|done|].
  { intros m s c Hm Hs. pose proof (Hlt m s Hm Hs).
    rewrite decide_False; [done|]. intros [? _]. lia. }
  eexists. split; [done|]. split; simpl; [by constructor|].
  split; [|done]. apply Forall_forall. intros m Hm s Hs1 Hs2.
  apply Hold in Hs2; [|done]. pose proof (Hlt m s Hm Hs2).
  destruct (Hreach s Hs1); lia.
Qed.

Lemma built_compile_loop tokens : ∀ σ σ' rs,
  wf σ → built σ rs → compile_loop tokens σ = Normal () σ' →
  ∃ rs', foldl (λ o char, o ≫= λ stack, parse_iter stack char) (Some rs) tokens
         = Some rs'
         ∧ built σ' rs'.
Proof.
  induction tokens as [|char tokens IH]; intros σ σ' rs Hwf Hbuilt.
  { intros [= <-]. by exists rs. }
  rewrite compile_loop_cons.
  destruct (compile_iter char σ) as [[] σ1|σ1] eqn:Hiter; [|done].
  intros Hloop.
  destruct (built_compile_iter _ _ _ _ Hwf Hbuilt Hiter) as (rs1 & Hparse & Hb1).
  destruct (wf_compile_iter _ _ _ Hwf Hiter) as [Hwf1 _].
  destruct (IH _ _ _ Hwf1 Hb1 Hloop) as (rs' & Hfold & Hb').
  exists rs'. split; [|done]. simpl. by rewrite Hparse.
Qed.

(** The automaton returned for a pattern accepts the expression its
    postfix form stands for. *)
Lemma compiled_accepts pattern nfa σ :
  compileRegexToNFA pattern = Normal (Some nfa) σ →
  ∃ r rs,
    parse_postfix (codePoints (toPostfix pattern)) = Some (r :: rs)
    ∧ accepts (heap σ) nfa r.
Proof.
  intros Hc.
  destruct (compiled_shape _ _ _ Hc)
    as (σl & rest & Hloop & Hstack & Hwf & _ & _ & Hsuccs & _).
  destruct (built_compile_loop _ _ _ _ wf_initial built_initial Hloop)
    as (rs & Hparse & [Hacc _]).
  rewrite Hstack in Hacc.
  apply Forall2_cons_inv_l in Hacc as (r & rs' & Hr & _ & ->).
  exists r, rs'. split; [done|].
  intros w Hw. rewrite <-(Hr w Hw). apply run_local. intros x c _. apply Hsuccs.
Qed.
End language.

Lemma epsilon_split_units (testString : list N) :
  epsilon ∈ split_units testString ↔ chEpsilon ∈ testString.
Proof.
  unfold split_units. rewrite list_elem_of_fmap. split.
  - by intros (u & [= <-] & Hu).
  - intros Hu. by exists chEpsilon.
Qed.

(** X20: the automaton returned for a pattern has a path from its start
    state to its end state spelling a word (of labels other than ['ε'])
    exactly when the word matches the regular expression that the
    postfix form of the pattern stands for, with ['.'] as concatenation,
    ['|'] as alternation, ['*'] as the star, ['ε'] as the empty word. *)
Theorem compiled_automaton_accepts_the_expression pattern nfa σ :
  compileRegexToNFA pattern = Normal (Some nfa) σ →
  ∃ r rest,
    parse_postfix (codePoints (toPostfix pattern)) = Some (r :: rest)
    ∧ ∀ w, epsilon ∉ w →
        activeAfter (heap σ) (start nfa) w (end_ nfa) ↔ matches r w.
Proof.
  intros (r & rest & Hparse & Hr)%compiled_accepts.
  exists r, rest. split; [done|]. intros w Hw. rewrite activeAfter_run. by apply Hr.
Qed.

Lemma compiled_automaton_accepts_the_expression_witness :
  compileRegexToNFA (lit "(a|b)*abb")
  = Normal (Some (mkNFA 6 13)) (state_of (compileRegexToNFA (lit "(a|b)*abb")))
  ∧ ∃ r rest,
      parse_postfix (codePoints (toPostfix (lit "(a|b)*abb"))) = Some (r :: rest)
      ∧ ∀ w, epsilon ∉ w →
          activeAfter (heap (state_of (compileRegexToNFA (lit "(a|b)*abb"))))
            6 w 13 ↔ matches r w.
Proof.
  assert (Hc : compileRegexToNFA (lit "(a|b)*abb")
               = Normal (Some (mkNFA 6 13))
                   (state_of (compileRegexToNFA (lit "(a|b)*abb"))))
    by (vm_compute; reflexivity).
  split; [exact Hc|].
  exact (compiled_automaton_accepts_the_expression _ _ _ Hc).
Defined.



(** ** Patterns of the grammar: from the pattern to the verdict *)

Section grammar.
Implicit Types (s : list N) (c u : N) (r : regex) (k : nat).
Implicit Types (stack ops pend : list (list N)) (output out : list N).

Lemma alnum_unit c :
  isAlnumUnit c = true →
  isHighSurrogate c = false ∧ isC1Alphanum c = true ∧ isC2Alphanum c = true
  ∧ c ≠ chDot ∧ c ≠ chBar ∧ c ≠ chStar ∧ c ≠ chLParen ∧ c ≠ chRParen.
Proof.
  intros Hc. unfold isC1Alphanum, isC2Alphanum. rewrite Hc. simpl.
  unfold isAlnumUnit in Hc.
  rewrite !orb_true_iff, !andb_true_iff, !N.leb_le in Hc.
  unfold isHighSurrogate, chDot, chBar, chStar, chLParen, chRParen.
  split_and!; try done; try lia.
  apply andb_false_iff. left. apply N.leb_gt. lia.
Qed.

Lemma insertConcat_from_middle s1 c1 c2 s2 :
  insertConcat_from (s1 ++ c1 :: c2 :: s2)
  = insertConcat_from (s1 ++ [c1])
    ++ (if isC1Alphanum c1 && isC2Alphanum c2 then [chDot] else [])
    ++ insertConcat_from (c2 :: s2).
Proof.
  induction s1 as [|a s1 IH].
  - by rewrite !app_nil_l, insertConcat_from_cons2.
  - destruct s1 as [|b s1].
    + rewrite !app_nil_l in IH. cbn [app].
      rewrite (insertConcat_from_cons2 a c1 (c2 :: s2)), IH.
      rewrite (insertConcat_from_cons2 a c1 []).
      cbn [app]. f_equal. by rewrite <-(assoc_L (++)).
    + cbn [app] in *.
      rewrite (insertConcat_from_cons2 a b (s1 ++ c1 :: c2 :: s2)), IH.
      rewrite (insertConcat_from_cons2 a b (s1 ++ [c1])).
      cbn [app]. f_equal. by rewrite <-(assoc_L (++)).
Qed.

(** A pattern of the grammar starts with an operand or an opening
    parenthesis, ends with an operand, a star or a closing parenthesis,
    and holds no surrogate. *)
Lemma parses_shape k s r :
  parses k s r →
  (∃ c s', s = c :: s' ∧ isC2Alphanum c = true)
  ∧ (∃ s' c, s = s' ++ [c] ∧ isC1Alphanum c = true)
  ∧ Forall (λ u, isHighSurrogate u = false) s
  ∧ Forall (λ u, isHighSurrogate u = false) (postfix r).
Proof.
  induction 1 as [k c Hc|k s r _ IH|k s r _ _ IH
                 |k s1 s2 r1 r2 _ _ IH1 _ IH2|k s1 s2 r1 r2 _ _ IH1 _ IH2];
    simpl.
  - destruct (alnum_unit c Hc) as (? & ? & ? & _).
    split_and!; [by exists c, []|by exists [], c|by apply Forall_singleton..].
  - destruct IH as (_ & _ & Hs & Hp). split_and!.
    + by eexists _, _.
    + by exists (chLParen :: s), chRParen.
    + apply Forall_cons. split; [done|]. apply Forall_app. split; [done|].
      by apply Forall_singleton.
    + done.
  - destruct IH as ((c & s' & -> & Hc) & _ & Hs & Hp). split_and!.
    + by eexists _, _.
    + by eexists _, _.
    + apply Forall_app. split; [done|]. by apply Forall_singleton.
    + apply Forall_app. split; [done|]. by apply Forall_singleton.
  - destruct IH1 as ((c & s' & -> & Hc) & _ & Hs1 & Hp1).
    destruct IH2 as (_ & (s'' & c' & -> & Hc') & Hs2 & Hp2). split_and!.
    + by eexists _, _.
    + exists ((c :: s') ++ s''), c'. by rewrite <-(assoc_L (++)).
    + by apply Forall_app.
    + rewrite !Forall_app. split_and!; [done..|]. by apply Forall_singleton.
  - destruct IH1 as ((c & s' & -> & Hc) & _ & Hs1 & Hp1).
    destruct IH2 as (_ & (s'' & c' & -> & Hc') & Hs2 & Hp2). split_and!.
    + by eexists _, _.
    + exists ((c :: s') ++ chBar :: s''), c'. by rewrite <-!(assoc_L (++)).
    + apply Forall_app. split; [done|]. by apply Forall_cons.
    + rewrite !Forall_app. split_and!; [done..|]. by apply Forall_singleton.
Qed.

Lemma codePoints_plain s :
  Forall (λ u, isHighSurrogate u = false) s → codePoints s = split_units s.
Proof.
  induction 1 as [|x s Hx Hs IH]; [done|].
  destruct s as [|y t]; [done|].
  rewrite codePoints_cons2, Hx, IH. done.
Qed.

Lemma insertConcat_from_plain s :
  Forall (λ u, isHighSurrogate u = false) s →
  Forall (λ u, isHighSurrogate u = false) (insertConcat_from s).
Proof.
  induction 1 as [|x s Hx Hs IH]; [constructor|].
  destruct s as [|y t]; [by repeat constructor|].
  rewrite insertConcat_from_cons2. constructor; [done|].
  apply Forall_app. split; [|done]. case_match; by repeat constructor.
Qed.

(** Where [insertConcat] puts a dot between two patterns. *)
Lemma insertConcat_from_join (dot : bool) s1 c1 c2 s2 :
  isC1Alphanum c1 && isC2Alphanum c2 = dot →
  insertConcat_from ((s1 ++ [c1]) ++ c2 :: s2)
  = insertConcat_from (s1 ++ [c1])
    ++ (if dot then [chDot] else []) ++ insertConcat_from (c2 :: s2).
Proof.
  intros <-. rewrite <-(assoc_L (++)). apply insertConcat_from_middle.
Qed.
End grammar.

Section shunting.
Implicit Types (s : list N) (c u : N) (r : regex) (k j : nat).
Implicit Types (stack ops pend : list (list N)) (output out : list N).
Implicit Types (char : list N).

(** The normalized form of each production of the grammar. *)
Lemma insertConcat_from_paren k s r :
  parses k s r →
  insertConcat_from ([chLParen] ++ s ++ [chRParen])
  = [chLParen] ++ insertConcat_from s ++ [chRParen].
Proof.
  intros Hs. destruct (parses_shape _ _ _ Hs) as ((c & s' & Hhead & _) & Hlast & _).
  destruct Hlast as (s'' & l & Hlast & _).
  assert (Hin : insertConcat_from (s ++ [chRParen])
                = insertConcat_from s ++ [chRParen]).
  { rewrite Hlast. rewrite (insertConcat_from_join false); [done|].
    apply andb_false_r. }
  rewrite <-Hin. rewrite Hhead. cbn [app].
  by rewrite insertConcat_from_cons2.
Qed.

Lemma insertConcat_from_star k s r :
  parses k s r →
  insertConcat_from (s ++ [chStar]) = insertConcat_from s ++ [chStar].
Proof.
  intros Hs. destruct (parses_shape _ _ _ Hs) as (_ & (s'' & l & -> & _) & _).
  rewrite (insertConcat_from_join false); [done|]. apply andb_false_r.
Qed.

Lemma insertConcat_from_cat k1 k2 s1 s2 r1 r2 :
  parses k1 s1 r1 → parses k2 s2 r2 →
  insertConcat_from (s1 ++ s2)
  = insertConcat_from s1 ++ [chDot] ++ insertConcat_from s2.
Proof.
  intros H1 H2.
  destruct (parses_shape _ _ _ H1) as (_ & (s'' & l & -> & Hl) & _).
  destruct (parses_shape _ _ _ H2) as ((c & s' & -> & Hc) & _).
  rewrite (insertConcat_from_join true); [done|]. by rewrite Hl, Hc.
Qed.

Lemma insertConcat_from_alt k1 k2 s1 s2 r1 r2 :
  parses k1 s1 r1 → parses k2 s2 r2 →
  insertConcat_from (s1 ++ [chBar] ++ s2)
  = insertConcat_from s1 ++ [chBar] ++ insertConcat_from s2.
Proof.
  intros H1 H2.
  destruct (parses_shape _ _ _ H1) as (_ & (s'' & l & -> & Hl) & _).
  destruct (parses_shape _ _ _ H2) as ((c & s' & -> & Hc) & _).
  cbn [app]. rewrite (insertConcat_from_join false) by apply andb_false_r.
  by rewrite insertConcat_from_cons2.
Qed.

(** The loop body of [toPostfix] on each kind of token. *)
Lemma toPostfix_iter_alnum stack output c :
  isAlnumUnit c = true →
  toPostfix_iter (stack, output) [c] = (stack, output ++ [c]).
Proof. intros Hc. unfold toPostfix_iter, testAlnum. simpl. by rewrite Hc. Qed.

Lemma toPostfix_iter_lparen stack output :
  toPostfix_iter (stack, output) [chLParen] = ([chLParen] :: stack, output).
Proof. done. Qed.

Lemma toPostfix_iter_rparen stack output :
  toPostfix_iter (stack, output) [chRParen]
  = (tail (popUntilParen stack output).1, (popUntilParen stack output).2).
Proof.
  unfold toPostfix_iter. change (testAlnum [chRParen]) with false. cbn match.
  rewrite decide_False, decide_True by done.
  by destruct (popUntilParen stack output).
Qed.

Lemma toPostfix_iter_operator stack output char j :
  precedence char = Some j →
  toPostfix_iter (stack, output) char
  = (char :: (popHigher char stack output).1, (popHigher char stack output).2).
Proof.
  intros Hj. unfold precedence in Hj.
  assert (Hop : char = [chStar] ∨ char = [chDot] ∨ char = [chBar])
    by (repeat case_decide; auto; done).
  unfold toPostfix_iter.
  destruct Hop as [->|[->| ->]];
    (match goal with |- context [testAlnum ?t] => change (testAlnum t) with false end);
    cbn match; rewrite !decide_False by done;
    by destruct (popHigher _ stack output).
Qed.

Lemma popHigher_pend char j pend ops : ∀ out,
  precedence char = Some j → pending_ops j pend → exposed j ops →
  popHigher char (pend ++ ops) out = (ops, out ++ mjoin pend).
Proof.
  induction pend as [|op pend IH]; intros out Hj Hpend Hops.
  - rewrite app_nil_r. destruct ops as [|top ops]; [done|]. cbn [app popHigher].
    rewrite Hj. simpl in Hops.
    destruct (precedence top) as [i|]; [|done]. simpl.
    rewrite bool_decide_eq_false_2; [done|]. specialize (Hops i eq_refl). lia.
  - apply Forall_cons in Hpend as [(i & Hi & Hle) Hpend].
    cbn [app popHigher]. rewrite Hi, Hj. simpl.
    rewrite bool_decide_eq_true_2 by done. rewrite IH by done.
    simpl. by rewrite (assoc_L (++)).
Qed.

Lemma popUntilParen_pend k pend ops : ∀ out,
  pending_ops k pend →
  popUntilParen (pend ++ [chLParen] :: ops) out
  = ([chLParen] :: ops, out ++ mjoin pend).
Proof.
  induction pend as [|op pend IH]; intros out Hpend.
  - by rewrite app_nil_r.
  - apply Forall_cons in Hpend as [(i & Hi & _) Hpend].
    cbn [app popUntilParen]. rewrite bool_decide_eq_true_2.
    + rewrite IH by done. simpl. by rewrite (assoc_L (++)).
    + intros ->. done.
Qed.

Lemma exposed_mono k k' ops : k ≤ k' → exposed k ops → exposed k' ops.
Proof.
  intros Hk. destruct ops as [|top ops]; [done|]. simpl.
  intros Hops j Hj. specialize (Hops j Hj). lia.
Qed.

Lemma pending_ops_mono k k' pend : k' ≤ k → pending_ops k pend → pending_ops k' pend.
Proof.
  intros Hk Hpend. eapply Forall_impl; [done|].
  intros op (j & Hj & Hle). exists j. split; [done|lia].
Qed.

(** The loop of [toPostfix] on a pattern of the grammar: it leaves on
    the stack what was there, under operators of the pattern that are
    still to be emitted, and has emitted the rest of the postfix form. *)
Lemma toPostfix_loop_parses k s r :
  parses k s r → ∀ ops out, exposed k ops →
  ∃ pend out',
    foldl toPostfix_iter (ops, out) (split_units (insertConcat_from s))
    = (pend ++ ops, out')
    ∧ out' ++ mjoin pend = out ++ postfix r
    ∧ pending_ops k pend.
Proof.
  unfold split_units.
  induction 1 as [k c Hc|k s r Hs IH|k s r Hk Hs IH
                 |k s1 s2 r1 r2 Hk H1 IH1 H2 IH2|k s1 s2 r1 r2 Hk H1 IH1 H2 IH2];
    intros ops out Hops.
  - exists [], (out ++ [c]). cbn [insertConcat_from fmap list_fmap foldl].
    rewrite toPostfix_iter_alnum by done.
    split; [done|]. split; [by rewrite app_nil_r|constructor].
  - rewrite (insertConcat_from_paren _ _ _ Hs), !fmap_app, !foldl_app.
    cbn [fmap list_fmap foldl]. rewrite toPostfix_iter_lparen.
    destruct (IH ([chLParen] :: ops) out) as (pend & out' & -> & Hout & Hpend);
      [done|].
    rewrite toPostfix_iter_rparen, (popUntilParen_pend 1) by done.
    exists [], (out' ++ mjoin pend). simpl.
    split; [done|]. split; [by rewrite app_nil_r|constructor].
  - rewrite (insertConcat_from_star _ _ _ Hs), !fmap_app, !foldl_app.
    cbn [fmap list_fmap foldl].
    destruct (IH ops out) as (pend & out' & -> & Hout & Hpend);
      [by apply (exposed_mono k)|].
    rewrite (toPostfix_iter_operator _ _ [chStar] 3) by done.
    rewrite (popHigher_pend [chStar] 3) by (done || by apply (exposed_mono k)).
    exists [[chStar]], (out' ++ mjoin pend). cbn [app fst snd].
    split; [done|]. split.
    + simpl. by rewrite Hout, <-!(assoc_L (++)).
    + apply Forall_singleton. exists 3. by split.
  - rewrite (insertConcat_from_cat _ _ _ _ _ _ H1 H2), !fmap_app, !foldl_app.
    cbn [fmap list_fmap foldl].
    destruct (IH1 ops out) as (pend1 & out1 & -> & Hout1 & Hpend1);
      [by apply (exposed_mono k)|].
    rewrite (toPostfix_iter_operator _ _ [chDot] 2) by done.
    rewrite (popHigher_pend [chDot] 2) by (done || by apply (exposed_mono k)).
    cbn [fst snd].
    destruct (IH2 ([chDot] :: ops) (out1 ++ mjoin pend1))
      as (pend2 & out2 & -> & Hout2 & Hpend2).
    { simpl. intros j [= <-]. lia. }
    exists (pend2 ++ [[chDot]]), out2. split; [by rewrite <-(assoc_L (++))|].
    split.
    + rewrite join_app, (assoc_L (++)), Hout2, Hout1. simpl.
      by rewrite <-!(assoc_L (++)).
    + apply Forall_app. split; [by apply (pending_ops_mono 3); [lia|]|].
      apply Forall_singleton. exists 2. by split.
  - rewrite (insertConcat_from_alt _ _ _ _ _ _ H1 H2), !fmap_app, !foldl_app.
    cbn [fmap list_fmap foldl].
    destruct (IH1 ops out) as (pend1 & out1 & -> & Hout1 & Hpend1);
      [by apply (exposed_mono k)|].
    rewrite (toPostfix_iter_operator _ _ [chBar] 1) by done.
    rewrite (popHigher_pend [chBar] 1) by (done || by apply (exposed_mono k)).
    cbn [fst snd].
    destruct (IH2 ([chBar] :: ops) (out1 ++ mjoin pend1))
      as (pend2 & out2 & -> & Hout2 & Hpend2).
    { simpl. intros j [= <-]. lia. }
    exists (pend2 ++ [[chBar]]), out2. split; [by rewrite <-(assoc_L (++))|].
    split.
    + rewrite join_app, (assoc_L (++)), Hout2, Hout1. simpl.
      by rewrite <-!(assoc_L (++)).
    + apply Forall_app. split; [by apply (pending_ops_mono 2); [lia|]|].
      apply Forall_singleton. exists 1. by split.
Qed.

Lemma toPostfix_parses pattern r : parses 1 pattern r → toPostfix pattern = postfix r.
Proof.
  intros Hp. unfold toPostfix. rewrite insertConcat_unfold.
  destruct (parses_shape _ _ _ Hp) as (_ & _ & Hplain & _).
  rewrite codePoints_plain by by apply insertConcat_from_plain.
  destruct (toPostfix_loop_parses _ _ _ Hp [] []) as (pend & out' & -> & Hout & _);
    [done|].
  rewrite app_nil_r, popAll_join. done.
Qed.

(** Reading the postfix form of an expression of the grammar gives the
    expression back. *)
Lemma parse_postfix_parses k s r :
  parses k s r → ∀ rs,
  foldl (λ o char, o ≫= λ exprs, parse_iter exprs char) (Some rs)
    (split_units (postfix r))
  = Some (r :: rs).
Proof.
  unfold split_units.
  induction 1 as [k c Hc|k s r Hs IH|k s r Hk Hs IH
                 |k s1 s2 r1 r2 Hk H1 IH1 H2 IH2|k s1 s2 r1 r2 Hk H1 IH1 H2 IH2];
    intros rs; cbn [postfix].
  - destruct (alnum_unit c Hc) as (_ & _ & _ & ? & ? & ? & _).
    simpl. unfold parse_iter. by rewrite !decide_False by congruence.
  - apply IH.
  - rewrite fmap_app, foldl_app, IH. done.
  - rewrite !fmap_app, !foldl_app, IH1, IH2. done.
  - rewrite !fmap_app, !foldl_app, IH1, IH2. done.
Qed.
End shunting.

Section end_to_end.
Implicit Types (σ : cstate) (rs : list regex) (r : regex) (pattern : list N).

Lemma parse_iter_arity rs char rs' :
  parse_iter rs char = Some rs' → arity char ≤ length rs.
Proof.
  unfold parse_iter, arity.
  repeat case_decide; destruct rs as [|? [|? ?]]; simpl; intros; try done; lia.
Qed.

(** The compiler completes on a postfix stream that can be read. *)
Lemma compile_loop_completes tokens : ∀ σ rs rs',
  wf σ → built σ rs →
  foldl (λ o char, o ≫= λ exprs, parse_iter exprs char) (Some rs) tokens
  = Some rs' →
  ∃ σ', compile_loop tokens σ = Normal () σ' ∧ built σ' rs'.
Proof.
  induction tokens as [|char tokens IH]; intros σ rs rs' Hwf Hbuilt Hfold.
  { injection Hfold as <-. by exists σ. }
  simpl in Hfold.
  destruct (parse_iter rs char) as [rs1|] eqn:Hparse; [|by rewrite foldl_None in Hfold].
  destruct (compile_iter_enough σ char) as [σ1 Hiter].
  { rewrite (Forall2_length _ _ _ (bu_accepts _ _ Hbuilt)).
    by eapply parse_iter_arity. }
  destruct (built_compile_iter _ _ _ _ Hwf Hbuilt Hiter) as (rs1' & Hparse' & Hb1).
  rewrite Hparse in Hparse'. injection Hparse' as <-.
  destruct (wf_compile_iter _ _ _ Hwf Hiter) as [Hwf1 _].
  destruct (IH _ _ _ Hwf1 Hb1 Hfold) as (σ' & Hloop & Hb').
  exists σ'. by rewrite compile_loop_cons, Hiter.
Qed.

(** A pattern of the grammar is compiled, to an automaton that accepts
    the expression the pattern stands for. *)
Lemma compiled_parses pattern r :
  parses 1 pattern r →
  ∃ nfa σ, compileRegexToNFA pattern = Normal (Some nfa) σ
           ∧ accepts (heap σ) nfa r.
Proof.
  intros Hp.
  destruct (parses_shape _ _ _ Hp) as (_ & _ & _ & Hplain).
  assert (Hread : parse_postfix (codePoints (toPostfix pattern)) = Some [r]).
  { rewrite (toPostfix_parses _ _ Hp), codePoints_plain by done.
    apply (parse_postfix_parses _ _ _ Hp). }
  destruct (compile_loop_completes _ _ _ _ wf_initial built_initial Hread)
    as (σl & Hloop & [Hacc _]).
  destruct (stack σl) as [|top rest] eqn:Hstack;
    [by apply Forall2_nil_inv_l in Hacc|].
  assert (Hc : ∃ σ, compileRegexToNFA pattern = Normal (Some top) σ).
  { rewrite compileRegexToNFA_unfold, Hloop, Hstack. by eexists. }
  destruct Hc as [σ Hc]. exists top, σ. split; [done|].
  destruct (compiled_accepts _ _ _ Hc) as (r' & rs' & Hread' & Hr').
  rewrite Hread in Hread'. by injection Hread' as <- <-.
Qed.
End end_to_end.

(** X22: on a pattern written in the usual grammar of regular
    expressions over letters and digits (alternation of concatenations of
    starred letters, digits and parenthesized patterns), [toPostfix]
    returns the postfix form of the expression the pattern stands for,
    with alternation and concatenation associating to the left, and
    reading that postfix form gives the expression back. *)
Theorem toPostfix_gives_the_postfix_form pattern r :
  parses 1 pattern r →
  toPostfix pattern = postfix r
  ∧ parse_postfix (codePoints (toPostfix pattern)) = Some [r].
Proof.
  intros Hp. destruct (parses_shape _ _ _ Hp) as (_ & _ & _ & Hplain).
  split; [by apply toPostfix_parses|].
  rewrite (toPostfix_parses _ _ Hp), codePoints_plain by done.
  apply (parse_postfix_parses _ _ _ Hp).
Qed.

Lemma toPostfix_gives_the_postfix_form_witness :
  parses 1 (lit "ab|c*")
    (Alt (Cat (Lit (lit "a")) (Lit (lit "b"))) (Star (Lit (lit "c"))))
  ∧ toPostfix (lit "ab|c*") = lit "ab.c*|".
Proof.
  assert (Hp : parses 1 (lit "ab|c*")
                 (Alt (Cat (Lit (lit "a")) (Lit (lit "b"))) (Star (Lit (lit "c"))))).
  { apply (parses_alt 1 (lit "ab") (lit "c*")); [done| |].
    - apply (parses_cat 1 (lit "a") (lit "b")); [lia| |]; by apply parses_lit.
    - apply (parses_star 2 (lit "c")); [lia|]. by apply parses_lit. }
  split; [exact Hp|].
  exact (proj1 (toPostfix_gives_the_postfix_form _ _ Hp)).
Defined.

(** X23: every pattern of the grammar is compiled to an automaton, and
    with fuel above the number of states the simulation of a non-empty
    test string without the character ['ε'] ends and reports a match
    exactly when the test string, character by character, matches the
    expression the pattern stands for. *)
Theorem pattern_of_the_grammar_is_decided pattern r :
  parses 1 pattern r →
  ∃ nfa σ,
    compileRegexToNFA pattern = Normal (Some nfa) σ
    ∧ ∀ fuel testString,
        length (heap σ) < fuel → testString ≠ [] → chEpsilon ∉ testString →
        ∃ activeIds isMatch,
          simulate fuel (heap σ) nfa testString = Some (activeIds, isMatch)
          ∧ (isMatch = true ↔ matches r (split_units testString)).
Proof.
  intros (nfa & σ & Hc & Hr)%compiled_parses. exists nfa, σ. split; [done|].
  intros fuel testString Hfuel Hne Heps.
  destruct (compiled_heap _ _ _ Hc) as (Hok & Hstart & _ & _ & Hacc).
  destruct (simulate_total _ Hok fuel nfa testString Hfuel Hstart)
    as (activeIds & isMatch & Hrun).
  exists activeIds, isMatch. split; [done|].
  destruct (simulate_activeAfter _ _ _ _ _ _ Hok Hne Hrun) as (_ & _ & Hmatch).
  assert (Hw : epsilon ∉ split_units testString) by (by rewrite epsilon_split_units).
  rewrite Hmatch, <-(Hr _ Hw). split.
  - intros (s & Hs & Hs'). rewrite Hacc in Hs'.
    apply bool_decide_eq_true in Hs' as ->. by apply activeAfter_run.
  - intros Hend. exists (end_ nfa). split; [by apply activeAfter_run|].
    rewrite Hacc. by apply bool_decide_eq_true.
Qed.

Lemma pattern_of_the_grammar_is_decided_witness :
  parses 1 (lit "ab|c*")
    (Alt (Cat (Lit (lit "a")) (Lit (lit "b"))) (Star (Lit (lit "c"))))
  ∧ ∃ nfa σ, compileRegexToNFA (lit "ab|c*") = Normal (Some nfa) σ.
Proof.
  assert (Hp : parses 1 (lit "ab|c*")
                 (Alt (Cat (Lit (lit "a")) (Lit (lit "b"))) (Star (Lit (lit "c"))))).
  { apply (parses_alt 1 (lit "ab") (lit "c*")); [done| |].
    - apply (parses_cat 1 (lit "a") (lit "b")); [lia| |]; by apply parses_lit.
    - apply (parses_star 2 (lit "c")); [lia|]. by apply parses_lit. }
  split; [exact Hp|].
  destruct (pattern_of_the_grammar_is_decided _ _ Hp) as (nfa & σ & Hc & _).
  by exists nfa, σ.
Defined.

(** ** The layers of the layout *)

Section layout_layers.
Context (h : list State) (Hok : heap_ok h) (s0 : nat) (Hs0 : s0 < length h).
Implicit Types (ls : layout_state) (st : State) (s t : nat) (L : nat).

Lemma bfs_initial :
  bfs_inv h s0 0 {| queue := [(s0, 0)]; visited := ∅; layers := ∅;
                    nodes := []; edges := [] |}.
Proof.
  split; simpl.
  - exists [(s0, 0)], []. split; [done|]. split; [by apply Forall_singleton|constructor].
  - by apply Forall_singleton.
  - intros s d _ ?. lia.
  - right. by left.
  - by intros n ?%elem_of_nil.
Qed.

(** When the entries of a layer are used up, the next layer begins. *)
Lemma bfs_advance L ls s l q :
  layout_inv h s0 ls → bfs_inv h s0 L ls → queue ls = (s, l) :: q →
  bfs_inv h s0 l ls.
Proof.
  intros Hinv [(qa & qb & Hq & Hqa & Hqb) Hsteps Hnear Hstart Hnodes] Hhead.
  destruct qa as [|e qa].
  2:{ assert (He : e = (s, l)) by (rewrite Hhead in Hq; by injection Hq).
      subst e. pose proof Hqa as Hqa'. apply Forall_cons in Hqa' as [Hl _].
      simpl in Hl. subst l. by split; [exists ((s, L) :: qa), qb|..]. }
  simpl in Hq. assert (Hl : l = S L).
  { rewrite Hhead in Hq. destruct qb as [|e qb]; [done|]. injection Hq as <- _.
    by apply Forall_cons in Hqb as [Hl _]. }
  subst l.
  assert (Hall : ∀ e, e ∈ queue ls → e.2 = S L).
  { intros e He. rewrite Hq in He. by apply (proj1 (Forall_forall _ _) Hqb). }
  split.
  - exists (queue ls), []. rewrite app_nil_r. split; [done|].
    split; [by apply Forall_forall|constructor].
  - done.
  - intros t d Ht Hd. destruct (decide (d < L)) as [Hlt|Hge]; [by eapply Hnear|].
    assert (d = L) as -> by lia. clear Hd.
    destruct L as [|L'].
    + simpl in Ht. subst t. destruct Hstart as [?|Hin]; [done|].
      apply Hall in Hin. done.
    + simpl in Ht. destruct Ht as (p & Hp & Hedge).
      assert (Hpv : p ∈ visited ls) by (eapply Hnear; [done|lia]).
      apply (li_nodes _ _ _ Hinv), list_elem_of_fmap in Hpv as (n & -> & Hn).
      destruct (Hnodes n Hn) as (d & _ & [_ Hmin] & _ & Hsucc).
      destruct (Hsucc t Hedge) as [?|Hin]; [done|].
      apply Hall in Hin. simpl in Hin. specialize (Hmin L' Hp). lia.
  - done.
  - intros n Hn. destruct (Hnodes n Hn) as (d & ? & ? & ? & ?).
    exists d. split_and!; [done..|lia|done].
Qed.

Lemma bfs_tail L ls s q :
  bfs_inv h s0 L ls → queue ls = (s, L) :: q →
  ∃ qa qb, q = qa ++ qb ∧ Forall (λ e, e.2 = L) qa ∧ Forall (λ e, e.2 = S L) qb.
Proof.
  intros [(qa & qb & Hq & Hqa & Hqb) _ _ _ _] Hhead. rewrite Hhead in Hq.
  destruct qa as [|e qa].
  - simpl in Hq. destruct qb as [|e qb]; [done|]. injection Hq as <- _.
    apply Forall_cons in Hqb as [Hl _]. simpl in Hl. lia.
  - injection Hq as _ ->. apply Forall_cons in Hqa as [_ Hqa]. by exists qa, qb.
Qed.

Lemma bfs_skip L ls s q :
  bfs_inv h s0 L ls → queue ls = (s, L) :: q → s ∈ visited ls →
  bfs_inv h s0 L {| queue := q; visited := visited ls; layers := layers ls;
                    nodes := nodes ls; edges := edges ls |}.
Proof.
  intros Hbfs Hhead Hs. pose proof (bfs_tail _ _ _ _ Hbfs Hhead) as Htail.
  destruct Hbfs as [_ Hsteps Hnear Hstart Hnodes]. rewrite Hhead in *.
  split; cbn [queue visited layers nodes edges].
  - done.
  - by apply Forall_cons in Hsteps as [_ ?].
  - done.
  - destruct Hstart as [?|[[= <- _]|?]%elem_of_cons]; auto.
  - intros n Hn. destruct (Hnodes n Hn) as (d & ? & ? & ? & Hsucc).
    exists d. split_and!; [done..|]. intros t Ht.
    destruct (Hsucc t Ht) as [?|[[= -> _]|?]%elem_of_cons]; auto.
Qed.

Lemma bfs_visit L ls s q st (node : NodeType) :
  layout_inv h s0 ls → bfs_inv h s0 L ls →
  queue ls = (s, L) :: q → h !! s = Some st → s ∉ visited ls →
  node_id node = s → node_x node = (60 + Z.of_nat L * 120)%Z →
  bfs_inv h s0 L
    {| queue := q ++ ((λ entry, (entry.2, L + 1)) <$> entries_flat st);
       visited := {[s]} ∪ visited ls;
       layers := <[L := default 0%nat (layers ls !! L) + 1]> (layers ls);
       nodes := nodes ls ++ [node];
       edges := edges ls ++ (edge_of s <$> entries_flat st) |}.
Proof.
  intros Hinv Hbfs Hhead Hst Hs Hid Hx.
  destruct (bfs_tail _ _ _ _ Hbfs Hhead) as (qa & qb & -> & Hqa & Hqb).
  destruct Hbfs as [_ Hsteps Hnear Hstart Hnodes]. rewrite Hhead in *.
  apply Forall_cons in Hsteps as [Hpath Hsteps]. simpl in Hpath.
  assert (Hnew : ∀ t, (t, S L) ∈ (λ entry : list N * nat, (entry.2, L + 1))
                                   <$> entries_flat st ↔ edge h s t).
  { intros t. rewrite list_elem_of_fmap. split.
    - intros ([c t'] & [= ->] & Hin). exists c. by apply (entries_flat_succs h s st).
    - intros [c Hc]. exists (c, t). split; [simpl; f_equal; lia|].
      by apply (entries_flat_succs h s st). }
  split; cbn [queue visited layers nodes edges].
  - exists qa, (qb ++ ((λ entry : list N * nat, (entry.2, L + 1)) <$> entries_flat st)).
    split; [by rewrite (assoc_L (++))|]. split; [done|].
    apply Forall_app. split; [done|]. apply Forall_fmap, Forall_forall.
    intros e _. simpl. lia.
  - apply Forall_app. split; [done|]. apply Forall_fmap, Forall_forall.
    intros [c t] Hin. simpl. rewrite Nat.add_1_r. simpl. exists s. split; [done|].
    exists c. by apply (entries_flat_succs h s st).
  - intros t d Ht Hd. apply elem_of_union. right. by eapply Hnear.
  - destruct Hstart as [?|[[= <- _]|?]%elem_of_cons].
    + left. apply elem_of_union. by right.
    + left. apply elem_of_union. left. by apply elem_of_singleton.
    + right. apply elem_of_app. by left.
  - intros n [Hn| ->%list_elem_of_singleton]%elem_of_app.
    + destruct (Hnodes n Hn) as (d & ? & ? & ? & Hsucc).
      exists d. split_and!; [done..|]. intros t Ht.
      destruct (Hsucc t Ht) as [?|[[= -> _]|?]%elem_of_cons].
      * left. apply elem_of_union. by right.
      * left. apply elem_of_union. left. by apply elem_of_singleton.
      * right. apply elem_of_app. by left.
    + exists L. rewrite Hid. split_and!; [done| |done|].
      * split; [done|]. intros d' Hd'.
        destruct (decide (d' < L)) as [Hlt|?]; [|lia].
        exfalso. apply Hs. by eapply Hnear.
      * intros t Ht. right. apply elem_of_app. right. by apply Hnew.
Qed.

(** The column of every node is the distance of its state from the
    start state. *)
Lemma layout_loop_layers fuel : ∀ ls L ns es,
  layout_inv h s0 ls → bfs_inv h s0 L ls →
  layout_loop fuel h ls = Some (ns, es) →
  ∀ n, n ∈ ns →
    ∃ d, distance h s0 (node_id n) d ∧ node_x n = (60 + Z.of_nat d * 120)%Z.
Proof.
  induction fuel as [|fuel IH]; intros ls L ns es Hinv Hbfs; [done|].
  cbn [layout_loop]. destruct (queue ls) as [|[s l] q] eqn:Hq.
  - intros [= <- <-] n Hn.
    destruct (bf_nodes _ _ _ _ Hbfs n Hn) as (d & ? & ? & _). by exists d.
  - apply (bfs_advance _ _ s l q Hinv) in Hbfs; [|done]. clear L.
    assert (Hs : s < length h).
    { apply (reachable_valid h Hok s0); [done|]. apply (li_sound _ _ _ Hinv).
      right. rewrite Hq, fmap_cons. apply elem_of_cons. by left. }
    destruct (lookup_lt_is_Some_2 h s Hs) as [st Hst]. rewrite Hst.
    cbn [mbind option_bind]. rewrite (heap_ok_id _ _ _ Hok Hst).
    destruct (decide (s ∈ visited ls)) as [Hin|Hnot].
    + apply (IH _ l); [by apply (layout_inv_skip h s0 ls s l)|].
      by apply (bfs_skip l ls s q).
    + rewrite (push_edges h Hok).
      2:{ apply Forall_forall. intros [c w] Hw%(entries_flat_succs h s st); [|done].
          by apply (ok_succs _ Hok s c). }
      cbn [mbind option_bind].
      apply (IH _ l); [by apply (layout_inv_visit h s0 ls s l q st)|].
      by apply (bfs_visit l ls s q st).
Qed.
End layout_layers.

(** X24: the column of a node in the drawing of a compiled automaton is
    the distance of its state from the start state: a node is at
    [x = 60 + 120 * d] where [d] is the least number of transitions that
    lead from the start state to the state of the node. *)
Theorem layout_column_is_the_distance_from_start pattern nfa σ fuel :
  compileRegexToNFA pattern = Normal (Some nfa) σ →
  pending (heap σ) ∅ + 2 ≤ fuel →
  ∃ ns es, layoutGraph fuel (heap σ) nfa = Some (ns, es)
    ∧ ∀ n, n ∈ ns →
        ∃ d, distance (heap σ) (start nfa) (node_id n) d
             ∧ node_x n = (60 + Z.of_nat d * 120)%Z.
Proof.
  intros Hc Hfuel.
  destruct (compiled_layout _ _ _ _ Hc Hfuel) as (ns & es & _ & Hrun & _ & _).
  destruct (compiled_heap _ _ _ Hc) as (Hok & Hstart & _).
  exists ns, es. split; [done|].
  eapply (layout_loop_layers (heap σ) Hok (start nfa) Hstart fuel _ 0 ns es);
    [apply layout_inv_initial|by apply bfs_initial|exact Hrun].
Qed.

Lemma layout_column_is_the_distance_from_start_witness :
  compileRegexToNFA (lit "a*")
  = Normal (Some (mkNFA 2 3)) (state_of (compileRegexToNFA (lit "a*")))
  ∧ pending (heap (state_of (compileRegexToNFA (lit "a*")))) ∅ + 2 ≤ 8
  ∧ ∃ ns es,
      layoutGraph 8 (heap (state_of (compileRegexToNFA (lit "a*")))) (mkNFA 2 3)
      = Some (ns, es)
      ∧ ∀ n, n ∈ ns →
          ∃ d, distance (heap (state_of (compileRegexToNFA (lit "a*")))) 2
                 (node_id n) d
               ∧ node_x n = (60 + Z.of_nat d * 120)%Z.
Proof.
  assert (Hc : compileRegexToNFA (lit "a*")
               = Normal (Some (mkNFA 2 3)) (state_of (compileRegexToNFA (lit "a*"))))
    by (vm_compute; reflexivity).
  assert (Hf : pending (heap (state_of (compileRegexToNFA (lit "a*")))) ∅ + 2 ≤ 8)
    by (apply Nat.leb_le; vm_compute; reflexivity).
  split; [exact Hc|]. split; [exact Hf|].
  exact (layout_column_is_the_distance_from_start _ _ _ _ Hc Hf).
Defined.

(** X25: the compiler rejects a pattern exactly when the postfix form
    cannot be read as an expression: [compileRegexToNFA] returns [null]
    when some operator of the postfix form lacks an operand or the
    postfix form is empty, and an automaton in every other case. *)
Theorem compiler_rejects_exactly_the_unreadable_postfix pattern :
  ((∃ σ, compileRegexToNFA pattern = Normal None σ)
   ↔ parse_postfix (codePoints (toPostfix pattern)) = None
     ∨ parse_postfix (codePoints (toPostfix pattern)) = Some [])
  ∧ ((∃ nfa σ, compileRegexToNFA pattern = Normal (Some nfa) σ)
     ↔ ∃ r rest, parse_postfix (codePoints (toPostfix pattern)) = Some (r :: rest)).
Proof.
  rewrite compileRegexToNFA_unfold.
  destruct (parse_postfix (codePoints (toPostfix pattern))) as [[|r rest]|] eqn:Hread.
  - destruct (compile_loop_completes _ _ _ _ wf_initial built_initial Hread)
      as (σl & -> & [Hacc _]).
    apply Forall2_nil_inv_r in Hacc as ->. split; split.
    + intros _. by right.
    + intros _. by eexists.
    + by intros (? & ? & ?).
    + by intros (? & ? & ?).
  - destruct (compile_loop_completes _ _ _ _ wf_initial built_initial Hread)
      as (σl & -> & [Hacc _]).
    apply Forall2_cons_inv_r in Hacc as (top & others & _ & _ & ->). split; split.
    + by intros [? ?].
    + by intros [?|?].
    + intros _. by eexists _, _.
    + intros _. by eexists _, _.
  - destruct (compile_loop (codePoints (toPostfix pattern)) initial)
      as [[] σl|σl] eqn:Hloop.
    + destruct (built_compile_loop _ _ _ _ wf_initial built_initial Hloop)
        as (rs & Hrs & _).
      unfold parse_postfix in Hread. congruence.
    + split; split.
      * intros _. by left.
      * intros _. by eexists.
      * by intros (? & ? & ?).
      * by intros (? & ? & ?).
Qed.

(** ** The rows of the layout *)

Section layout_rows.
Context (h : list State) (Hok : heap_ok h) (s0 : nat) (Hs0 : s0 < length h).
Implicit Types (ls : layout_state) (st : State) (s : nat).

Lemma rows_initial :
  rows_inv {| queue := [(s0, 0)]; visited := ∅; layers := ∅;
              nodes := []; edges := [] |}.
Proof. split; simpl; [by intros layer; rewrite lookup_empty|by intros [] ?]. Qed.

Lemma rows_skip ls q :
  rows_inv ls →
  rows_inv {| queue := q; visited := visited ls; layers := layers ls;
              nodes := nodes ls; edges := edges ls |}.
Proof. by intros [??]. Qed.

Lemma rows_visit ls q (v : gset nat) es layer (node : NodeType) :
  rows_inv ls →
  node_x node = (60 + Z.of_nat layer * 120)%Z →
  node_y node = (150 + yOffset (default 0%nat (layers ls !! layer)))%Z →
  rows_inv {| queue := q; visited := v;
              layers := <[layer := default 0%nat (layers ls !! layer) + 1]> (layers ls);
              nodes := nodes ls ++ [node]; edges := es |}.
Proof.
  intros [Hcount Hrows] Hx Hy. split; cbn [queue visited layers nodes edges].
  - intros layer'. rewrite filter_app, length_app, <-Hcount.
    destruct (decide (layer' = layer)) as [->|Hne].
    + rewrite lookup_insert_eq, filter_cons_True by done. simpl. lia.
    + rewrite lookup_insert_ne, filter_cons_False by (rewrite ?Hx; lia || done).
      simpl. lia.
  - intros i n Hn. apply lookup_app_Some in Hn as [Hn|[Hlen Hn]].
    + rewrite take_app_le by (apply lookup_lt_Some in Hn; lia). by apply Hrows.
    + apply list_lookup_singleton_Some in Hn as [Hi <-].
      assert (i = length (nodes ls)) as -> by lia.
      rewrite take_app_length, Hy, Hx. by rewrite (Hcount layer).
Qed.

Lemma layout_loop_rows fuel : ∀ ls ns es,
  layout_inv h s0 ls → rows_inv ls →
  layout_loop fuel h ls = Some (ns, es) →
  ∀ i n, ns !! i = Some n →
    node_y n
    = (150 + yOffset (length (filter (λ m, node_x m = node_x n) (take i ns))))%Z.
Proof.
  induction fuel as [|fuel IH]; intros ls ns es Hinv Hrows; [done|].
  cbn [layout_loop]. destruct (queue ls) as [|[s l] q] eqn:Hq.
  - intros [= <- <-]. apply (ro_rows _ Hrows).
  - assert (Hs : s < length h).
    { apply (reachable_valid h Hok s0); [done|]. apply (li_sound _ _ _ Hinv).
      right. rewrite Hq, fmap_cons. apply elem_of_cons. by left. }
    destruct (lookup_lt_is_Some_2 h s Hs) as [st Hst]. rewrite Hst.
    cbn [mbind option_bind]. rewrite (heap_ok_id _ _ _ Hok Hst).
    destruct (decide (s ∈ visited ls)) as [Hin|Hnot].
    + apply IH; [by apply (layout_inv_skip h s0 ls s l)|by apply rows_skip].
    + rewrite (push_edges h Hok).
      2:{ apply Forall_forall. intros [c w] Hw%(entries_flat_succs h s st); [|done].
          by apply (ok_succs _ Hok s c). }
      cbn [mbind option_bind].
      apply IH; [by apply (layout_inv_visit h s0 ls s l q st)|].
      by apply rows_visit.
Qed.
End layout_rows.

(** X26: the rows of the drawing: the height of a node is given by the
    number [k] of nodes placed before it in the same column, 70 times [k]
    below 150 for an even [k] and above for an odd one: [y] is 150, 80,
    290, -60, 430 for the first five nodes of a column. *)
Theorem layout_row_is_the_rank_in_the_column pattern nfa σ fuel :
  compileRegexToNFA pattern = Normal (Some nfa) σ →
  pending (heap σ) ∅ + 2 ≤ fuel →
  ∃ ns es, layoutGraph fuel (heap σ) nfa = Some (ns, es)
    ∧ ∀ i n, ns !! i = Some n →
        let k := length (filter (λ m, node_x m = node_x n) (take i ns)) in
        node_y n = (150 + (if Nat.even k then 70 else -70) * Z.of_nat k)%Z.
Proof.
  intros Hc Hfuel.
  destruct (compiled_layout _ _ _ _ Hc Hfuel) as (ns & es & _ & Hrun & _ & _).
  destruct (compiled_heap _ _ _ Hc) as (Hok & Hstart & _).
  exists ns, es. split; [done|]. intros i n Hn k.
  rewrite (layout_loop_rows (heap σ) Hok (start nfa) Hstart fuel _ ns es
             (layout_inv_initial _ _) (rows_initial _) Hrun i n Hn).
  fold k. unfold yOffset. destruct (Nat.even k); lia.
Qed.

Lemma layout_row_is_the_rank_in_the_column_witness :
  compileRegexToNFA (lit "a|b")
  = Normal (Some (mkNFA 4 5)) (state_of (compileRegexToNFA (lit "a|b")))
  ∧ pending (heap (state_of (compileRegexToNFA (lit "a|b")))) ∅ + 2 ≤ 10
  ∧ ∃ ns es,
      layoutGraph 10 (heap (state_of (compileRegexToNFA (lit "a|b")))) (mkNFA 4 5)
      = Some (ns, es)
      ∧ ∀ i n, ns !! i = Some n →
          let k := length (filter (λ m, node_x m = node_x n) (take i ns)) in
          node_y n = (150 + (if Nat.even k then 70 else -70) * Z.of_nat k)%Z.
Proof.
  assert (Hc : compileRegexToNFA (lit "a|b")
               = Normal (Some (mkNFA 4 5)) (state_of (compileRegexToNFA (lit "a|b"))))
    by (vm_compute; reflexivity).
  assert (Hf : pending (heap (state_of (compileRegexToNFA (lit "a|b")))) ∅ + 2 ≤ 10)
    by (apply Nat.leb_le; vm_compute; reflexivity).
  split; [exact Hc|]. split; [exact Hf|].
  exact (layout_row_is_the_rank_in_the_column _ _ _ _ Hc Hf).
Defined.

Section epsilon_in_test_string.
Implicit Types (h : list State) (s t : nat) (w : list (list N)).

End epsilon_in_test_string.



(** ** The number of transitions, and the iterations of the layout *)

Section transition_count.
Implicit Types (m : gmap (list N) (list nat)) (h : list State) (st : State).

Lemma entries_flat_insert st c l m :
  transitions st = <[c := l]> m → m !! c = None →
  ∃ st', transitions st' = m
         ∧ length (entries_flat st) = length l + length (entries_flat st').
Proof.
  intros Hst Hc. exists (mkState (id st) m (isAccept st)). split; [done|].
  unfold entries_flat. rewrite Hst. simpl.
  rewrite (map_to_list_insert m c l Hc).
  by rewrite bind_cons, length_app, length_fmap.
Qed.

Lemma entries_flat_none m : ∀ st,
  transitions st = m → (∀ c l, m !! c = Some l → l = []) →
  length (entries_flat st) = 0.
Proof.
  induction m as [|c l m Hc IH] using map_ind; intros st Hst Hall.
  - unfold entries_flat. by rewrite Hst, map_to_list_empty.
  - destruct (entries_flat_insert st c l m Hst Hc) as (st' & Hst' & ->).
    rewrite (Hall c l) by apply lookup_insert_eq.
    rewrite (IH st' Hst'); [done|]. intros c' l' Hl'. apply (Hall c').
    rewrite lookup_insert_ne; [done|]. intros ->. congruence.
Qed.

(** A state with transitions on one label only, to at most two states,
    has at most two transitions. *)
Lemma entries_flat_bound m : ∀ st,
  transitions st = m →
  (∀ c l, m !! c = Some l → length l ≤ 2) →
  (∀ c1 c2 l1 l2, m !! c1 = Some l1 → m !! c2 = Some l2 →
                  l1 ≠ [] → l2 ≠ [] → c1 = c2) →
  length (entries_flat st) ≤ 2.
Proof.
  induction m as [|c l m Hc IH] using map_ind; intros st Hst Htwo Hone.
  - unfold entries_flat. rewrite Hst, map_to_list_empty. simpl. lia.
  - destruct (entries_flat_insert st c l m Hst Hc) as (st' & Hst' & ->).
    assert (Hkeep : ∀ c' l', m !! c' = Some l' → <[c:=l]> m !! c' = Some l').
    { intros c' l' Hl'. rewrite lookup_insert_ne; [done|]. intros ->. congruence. }
    destruct (decide (l = [])) as [->|Hl].
    + simpl. apply (IH st' Hst').
      * intros c' l' Hl'. by apply (Htwo c'), Hkeep.
      * intros c1 c2 l1 l2 H1 H2. apply Hone; by apply Hkeep.
    + rewrite (entries_flat_none m st' Hst').
      * pose proof (Htwo c l (lookup_insert_eq _ _ _)). lia.
      * intros c' l' Hl'. destruct (decide (l' = [])) as [|Hl'']; [done|].
        exfalso. assert (c' = c); [|congruence].
        apply (Hone c' c l' l); [by apply Hkeep|apply lookup_insert_eq|done..].
Qed.

Lemma pending_bound h (k : nat) :
  (∀ s st, h !! s = Some st → length (entries_flat st) ≤ k) →
  pending h ∅ ≤ k * length h.
Proof.
  unfold pending. induction h as [|st h IH]; intros Hall; simpl; [lia|].
  rewrite decide_False by apply not_elem_of_empty.
  rewrite Nat.mul_succ_r, (Nat.add_comm (k * _)).
  apply Nat.add_le_mono; [by apply (Hall 0)|].
  apply IH. intros s st' Hst'. by apply (Hall (S s)).
Qed.

Lemma compiled_pending pattern nfa σ :
  compileRegexToNFA pattern = Normal (Some nfa) σ →
  pending (heap σ) ∅ ≤ 2 * length (heap σ).
Proof.
  intros Hc.
  destruct (compiled_shape _ _ _ Hc)
    as (σl & rest & _ & _ & _ & [_ _ _ Htwo _ Hlabel] & _ & Hsuccs & _).
  apply pending_bound. intros s st Hst.
  assert (Hs : ∀ c, succs (heap σ) s c = default [] (transitions st !! c)).
  { intros c. unfold succs. by rewrite Hst. }
  apply (entries_flat_bound (transitions st)); [done| |].
  - intros c l Hl. specialize (Htwo s c). by rewrite <-Hsuccs, Hs, Hl in Htwo.
  - intros c1 c2 l1 l2 H1 H2 Hne1 Hne2. apply (Hlabel s c1 c2).
    + by rewrite <-Hsuccs, Hs, H1.
    + by rewrite <-Hsuccs, Hs, H2.
Qed.
End transition_count.

(** X28: a compiled automaton of [n] states has at most [2 * n]
    transitions, and the loop of [layoutGraph] on it ends within
    [2 * n + 2] iterations. *)
Theorem layout_ends_within_twice_the_states pattern nfa σ fuel :
  compileRegexToNFA pattern = Normal (Some nfa) σ →
  2 * length (heap σ) + 2 ≤ fuel →
  pending (heap σ) ∅ ≤ 2 * length (heap σ)
  ∧ ∃ ns es, layoutGraph fuel (heap σ) nfa = Some (ns, es).
Proof.
  intros Hc Hfuel. pose proof (compiled_pending _ _ _ Hc) as Hbound.
  split; [done|].
  destruct (compiled_layout _ _ _ fuel Hc) as (ns & es & _ & Hrun & _); [lia|].
  by exists ns, es.
Qed.

Lemma layout_ends_within_twice_the_states_witness :
  compileRegexToNFA (lit "a*")
  = Normal (Some (mkNFA 2 3)) (state_of (compileRegexToNFA (lit "a*")))
  ∧ 2 * length (heap (state_of (compileRegexToNFA (lit "a*")))) + 2 ≤ 10
  ∧ ∃ ns es,
      layoutGraph 10 (heap (state_of (compileRegexToNFA (lit "a*")))) (mkNFA 2 3)
      = Some (ns, es).
Proof.
  assert (Hc : compileRegexToNFA (lit "a*")
               = Normal (Some (mkNFA 2 3)) (state_of (compileRegexToNFA (lit "a*"))))
    by (vm_compute; reflexivity).
  assert (Hf : 2 * length (heap (state_of (compileRegexToNFA (lit "a*")))) + 2 ≤ 10)
    by (apply Nat.leb_le; vm_compute; reflexivity).
  split; [exact Hc|]. split; [exact Hf|].
  exact (proj2 (layout_ends_within_twice_the_states _ _ _ _ Hc Hf)).
Defined.
